(** * task_scheduler.py: a shallow embedding and its verified properties

    The development follows the layout of the program:
    - [Task] and the Python exceptions the program can raise;
    - the dependency-existence check that ends [parse_input];
    - [detect_cycles], the depth-first search over two mutable sets, and
      [detect_cycles_within], the same search under the recursion limit
      of the interpreter;
    - [calculate_expected_runtime];
    - [build_command] and [execute_task];
    - the dispatch loop of [run_mode] and its final report;
    - the reading of the file by [parse_input].

    Python sets are [gset string], dictionaries are [gmap string _], the
    insertion-ordered dictionary of futures is an association list.
    A Python call that can raise returns an [outcome]; what is raised
    inside the [try] block of [parse_input] is an [attempt]. *)

From Stdlib Require Import ZArith String Ascii List Lia.
From stdpp Require Import base tactics option list relations gmap strings.

Local Open Scope Z_scope.

(** ** Exceptions and outcomes *)

Inductive exn : Type :=
  | KeyError (key : string)
  | StopIteration
  | RecursionError.

(** What a Python call does: it returns a value, raises, or exhausts the
    budget it was given: the number of nested calls for the recursive
    search, the number of turns for the dispatch loop. *)
Inductive outcome (A : Type) : Type :=
  | Returns (a : A)
  | Raises (e : exn)
  | OutOfFuel.

Arguments Returns {A} a.
Arguments Raises {A} e.
Arguments OutOfFuel {A}.

Definition bind {A B : Type} (m : outcome A) (k : A -> outcome B) : outcome B :=
  match m with
  | Returns a => k a
  | Raises e => Raises e
  | OutOfFuel => OutOfFuel
  end.

Notation "'let*' x := m 'in' k" := (bind m (fun x => k))
  (at level 10, x pattern, m at level 100, k at level 200).

(** ** Tasks *)

Record Task : Type := mkTask {
  name : string;
  duration : Z;
  dependencies : list string;
  task_type : string;
  parameters : gmap string string
}.

(** Truth value of a Python string: every string but the empty one. *)
Definition truthy (s : string) : bool :=
  match s with
  | EmptyString => false
  | String _ _ => true
  end.

(** [task_names] of [parse_input], once every line has been read. *)
Definition task_names (tasks : list Task) : gset string :=
  list_to_set (name <$> tasks).

(** ** parse_input, lines 46 and 63-67 *)

(** [s.split(sep)] for a one-character separator. *)
Fixpoint split (sep : ascii) (s : string) : list string :=
  match s with
  | EmptyString => [EmptyString]
  | String c rest =>
      if Ascii.eqb c sep then EmptyString :: split sep rest
      else match split sep rest with
           | [] => [String c EmptyString]
           | piece :: pieces => String c piece :: pieces
           end
  end.

(** [dependencies = deps.split(';') if deps else []] *)
Definition parse_dependencies (deps : string) : list string :=
  if truthy deps then split ";" deps else [].

Definition unknown_dependency (task : Task) (dep : string) : string :=
  "Task " +:+ name task +:+ ": Unknown dependency '" +:+ dep +:+ "'".

(** The inner loop of lines 65-67: the first entry that is non-empty and
    not a task name. *)
Fixpoint first_unknown (names : gset string) (deps : list string) : option string :=
  match deps with
  | [] => None
  | dep :: rest =>
      if truthy dep && negb (bool_decide (dep ∈ names)) then Some dep
      else first_unknown names rest
  end.

Fixpoint check_dependencies_in (names : gset string) (tasks : list Task) : option string :=
  match tasks with
  | [] => None
  | task :: rest =>
      match first_unknown names (dependencies task) with
      | Some dep => Some (unknown_dependency task dep)
      | None => check_dependencies_in names rest
      end
  end.

(** Lines 63-69: [Some error] when [parse_input] returns [None, error],
    [None] when it returns the tasks. *)
Definition check_dependencies (tasks : list Task) : option string :=
  check_dependencies_in (task_names tasks) tasks.

(** ** detect_cycles *)

Record DfsState : Type := mkDfs {
  visited : gset string;
  rec_stack : gset string
}.

(** [next(t for t in tasks if t.name == dep)] *)
Definition find_task (tasks : list Task) (dep : string) : outcome Task :=
  match find (fun t => String.eqb (name t) dep) tasks with
  | Some t => Returns t
  | None => Raises StopIteration
  end.

(** [s.remove(x)] raises [KeyError] when [x] is not a member. *)
Definition set_remove (x : string) (s : gset string) : outcome (gset string) :=
  if bool_decide (x ∈ s) then Returns (s ∖ {[x]}) else Raises (KeyError x).

(** The [for dep in task.dependencies] loop of [dfs]; [call] is the
    recursive call. [Returns (true, _)] is the early [return True]. *)
Fixpoint dfs_deps (tasks : list Task)
    (call : Task -> DfsState -> outcome (bool * DfsState))
    (deps : list string) (s : DfsState) : outcome (bool * DfsState) :=
  match deps with
  | [] => Returns (false, s)
  | dep :: rest =>
      if truthy dep then
        let* dep_task := find_task tasks dep in
        if bool_decide (dep ∈ visited s) then
          if bool_decide (dep ∈ rec_stack s) then Returns (true, s)
          else dfs_deps tasks call rest s
        else
          let* (found, s') := call dep_task s in
          if found then Returns (true, s') else dfs_deps tasks call rest s'
      else dfs_deps tasks call rest s
  end.

Fixpoint dfs (fuel : nat) (tasks : list Task) (task : Task) (s : DfsState)
    : outcome (bool * DfsState) :=
  match fuel with
  | O => OutOfFuel
  | S fuel' =>
      let s1 := mkDfs ({[name task]} ∪ visited s) ({[name task]} ∪ rec_stack s) in
      let* (found, s2) := dfs_deps tasks (dfs fuel' tasks) (dependencies task) s1 in
      if found then Returns (true, s2)
      else
        let* stack := set_remove (name task) (rec_stack s2) in
        Returns (false, mkDfs (visited s2) stack)
  end.

Definition cycle_message : string := "Dependency cycle detected".

(** The [for task in tasks] loop of lines 94-98. *)
Fixpoint detect_cycles_from (fuel : nat) (tasks roots : list Task) (s : DfsState)
    : outcome (option string) :=
  match roots with
  | [] => Returns None
  | task :: rest =>
      if bool_decide (name task ∈ visited s) then detect_cycles_from fuel tasks rest s
      else
        let* (found, s') := dfs fuel tasks task s in
        if found then Returns (Some cycle_message)
        else detect_cycles_from fuel tasks rest s'
  end.

(** [detect_cycles] where the interpreter has room for the recursion. A
    call of [dfs] marks a name that was not visited, so the recursion is
    never deeper than the number of tasks ([detect_cycles_total]). *)
Definition detect_cycles (tasks : list Task) : outcome (option string) :=
  detect_cycles_from (S (length tasks)) tasks tasks (mkDfs ∅ ∅).

(** [detect_cycles] where the interpreter lets [limit] nested calls of
    [dfs] run: the program does not raise the recursion limit, and the
    call that would be nested deeper raises [RecursionError], which
    nothing catches. *)
Definition detect_cycles_within (limit : nat) (tasks : list Task)
    : outcome (option string) :=
  match detect_cycles_from limit tasks tasks (mkDfs ∅ ∅) with
  | OutOfFuel => Raises RecursionError
  | result => result
  end.

(** ** calculate_expected_runtime *)

(** Lines 105-108. [finish_times] is a plain dict: reading a missing key
    raises [KeyError]. *)
Fixpoint max_dep_finish (finish_times : gmap string Z) (deps : list string)
    (acc : Z) : outcome Z :=
  match deps with
  | [] => Returns acc
  | dep :: rest =>
      if truthy dep then
        match finish_times !! dep with
        | Some finish => max_dep_finish finish_times rest (Z.max acc finish)
        | None => Raises (KeyError dep)
        end
      else max_dep_finish finish_times rest acc
  end.

(** Lines 104-110. [start_times] is written and never read; it is left
    out. *)
Fixpoint finish_times_from (tasks : list Task) (finish_times : gmap string Z)
    : outcome (gmap string Z) :=
  match tasks with
  | [] => Returns finish_times
  | task :: rest =>
      let* start := max_dep_finish finish_times (dependencies task) 0 in
      finish_times_from rest (<[name task := start + duration task]> finish_times)
  end.

(** [max(values) if values else 0] *)
Definition max_values (values : list Z) : Z :=
  match values with
  | [] => 0
  | v :: vs => foldr Z.max v vs
  end.

Definition calculate_expected_runtime (tasks : list Task) : outcome Z :=
  let* finish_times := finish_times_from tasks ∅ in
  Returns (max_values (snd <$> map_to_list finish_times)).

(** ** validate_mode, after the lines of the file have been read *)

(** [validate_mode] calls [detect_cycles] where it has room for its
    recursion; [validate_mode_within] below has the limit. *)

Inductive report : Type :=
  | Invalid (error : string)
  | Valid (expected_runtime : Z).

Definition validate_mode (tasks : list Task) : outcome report :=
  match check_dependencies tasks with
  | Some error => Returns (Invalid error)
  | None =>
      let* cycle_error := detect_cycles tasks in
      match cycle_error with
      | Some error => Returns (Invalid error)
      | None =>
          let* expected_runtime := calculate_expected_runtime tasks in
          Returns (Valid expected_runtime)
      end
  end.

(** [validate_mode] with the recursion limit of [detect_cycles_within]. *)
Definition validate_mode_within (limit : nat) (tasks : list Task) : outcome report :=
  match check_dependencies tasks with
  | Some error => Returns (Invalid error)
  | None =>
      let* cycle_error := detect_cycles_within limit tasks in
      match cycle_error with
      | Some error => Returns (Invalid error)
      | None =>
          let* expected_runtime := calculate_expected_runtime tasks in
          Returns (Valid expected_runtime)
      end
  end.

(** ** build_command and execute_task *)

(** [task.parameters[key]] *)
Definition parameter (task : Task) (key : string) : outcome string :=
  match parameters task !! key with
  | Some value => Returns value
  | None => Raises (KeyError key)
  end.

Definition build_command (task : Task) : outcome string :=
  if String.eqb (task_type task) "resolve" then
    let* fqdn := parameter task "fqdn" in
    Returns ("dig +short " +:+ fqdn)
  else if String.eqb (task_type task) "traceroute" then
    if bool_decide (parameters task !! "tool" = Some "mtr") then
      let* count := parameter task "count" in
      let* endpoint := parameter task "endpoint" in
      Returns ("mtr -nz -c " +:+ count +:+ " " +:+ endpoint +:+ " --report")
    else
      let* count := parameter task "count" in
      let* endpoint := parameter task "endpoint" in
      Returns ("traceroute -q " +:+ count +:+ " " +:+ endpoint)
  else if String.eqb (task_type task) "iperf3" then
    let* endpoint := parameter task "endpoint" in
    let* port := parameter task "port" in
    let* seconds := parameter task "duration" in
    Returns ("iperf3 -c " +:+ endpoint +:+ " -p " +:+ port +:+ " -t " +:+ seconds)
  else Returns "".

(** What [subprocess.run] does with a command and a timeout: it returns a
    completed process, raises [TimeoutExpired], or raises another
    [Exception] whose [str] is [message]. *)
Inductive run_result : Type :=
  | Completed (returncode : Z) (stdout stderr : string)
  | TimeoutExpired
  | OtherException (message : string).

(** One execution of a task by a worker: the behaviour of the operating
    system and the two readings of the clock. *)
Record execution : Type := mkExecution {
  subprocess_run : string -> Z -> run_result;
  start_time : Z;
  end_time : Z
}.

(** [str.isspace] on the code points below 256. *)
Definition isspace (c : ascii) : bool :=
  let n := nat_of_ascii c in
  ((9 <=? n) && (n <=? 13) || (28 <=? n) && (n <=? 32)
   || (n =? 133) || (n =? 160))%nat.

Fixpoint lstrip (s : string) : string :=
  match s with
  | EmptyString => EmptyString
  | String c rest => if isspace c then lstrip rest else s
  end.

Fixpoint rstrip (s : string) : string :=
  match s with
  | EmptyString => EmptyString
  | String c rest =>
      match rstrip rest with
      | EmptyString => if isspace c then EmptyString else String c EmptyString
      | kept => String c kept
      end
  end.

Definition strip (s : string) : string := rstrip (lstrip s).

Definition no_dns_records : string := "No DNS records found".

(** [build_command] is called before the [try] block is entered. *)
Definition execute_task (task : Task) (x : execution) : outcome (bool * string * Z) :=
  let* command := build_command task in
  let '(success, output) :=
    match subprocess_run x command (duration task + 10) with
    | Completed returncode stdout stderr =>
        let output := if returncode =? 0 then stdout else stderr in
        let success := returncode =? 0 in
        if String.eqb (task_type task) "resolve" && success && negb (truthy (strip output))
        then (false, no_dns_records)
        else (success, output)
    | TimeoutExpired => (false, "Task " +:+ name task +:+ " timed out")
    | OtherException message => (false, "Task " +:+ name task +:+ " error: " +:+ message)
    end in
  Returns (success, output, end_time x - start_time x).

(** ** run_mode: the dispatch loop *)

(** The lines the loop prints, most recent first. [Starting] is printed
    with the call of [executor.submit]. *)
Inductive event : Type :=
  | Starting (task_name : string)
  | Finished (task_name : string)
  | Error (task_name output : string)
  | Skipped (task_name failed : string).

Record SchedState : Type := mkSched {
  completed : gset string;
  running : gset string;
  futures : list (string * Task);
  actual_durations : gmap string Z;
  outputs : gmap string string;
  trace : list event
}.

Definition initial_state : SchedState := mkSched ∅ ∅ [] ∅ ∅ [].

(** [d[key] = value] on a dictionary kept in insertion order. *)
Fixpoint dict_set {V : Type} (key : string) (value : V) (d : list (string * V))
    : list (string * V) :=
  match d with
  | [] => [(key, value)]
  | (k, v) :: rest =>
      if String.eqb k key then (key, value) :: rest
      else (k, v) :: dict_set key value rest
  end.

(** [d.pop(key)] *)
Fixpoint dict_pop {V : Type} (key : string) (d : list (string * V))
    : outcome (V * list (string * V)) :=
  match d with
  | [] => Raises (KeyError key)
  | (k, v) :: rest =>
      if String.eqb k key then Returns (v, rest)
      else
        let* (value, rest') := dict_pop key rest in
        Returns (value, (k, v) :: rest')
  end.

(** [all(dep in completed for dep in task.dependencies if dep)] *)
Definition ready (done : gset string) (task : Task) : bool :=
  forallb (fun dep => bool_decide (dep ∈ done)) (List.filter truthy (dependencies task)).

(** Lines 188-191. The future stands for the call [execute_task(task)]. *)
Definition submit (task : Task) (st : SchedState) : SchedState :=
  mkSched (completed st) ({[name task]} ∪ running st)
    (dict_set (name task) task (futures st))
    (actual_durations st) (outputs st)
    (Starting (name task) :: trace st).

(** Lines 185-191. *)
Fixpoint readiness_scan (todo : list Task) (st : SchedState) : SchedState :=
  match todo with
  | [] => st
  | task :: rest =>
      if negb (bool_decide (name task ∈ completed st))
         && negb (bool_decide (name task ∈ running st))
         && ready (completed st) task
      then readiness_scan rest (submit task st)
      else readiness_scan rest st
  end.

Definition skipped_output (failed : string) : string :=
  "Skipped due to failure in " +:+ failed.

(** Lines 207-209. *)
Definition skip (t : Task) (failed : string) (st : SchedState) : SchedState :=
  mkSched ({[name t]} ∪ completed st) (running st) (futures st)
    (actual_durations st) (<[name t := skipped_output failed]> (outputs st))
    (Skipped (name t) failed :: trace st).

(** Lines 205-209. *)
Fixpoint skip_dependents (failed : string) (todo : list Task) (st : SchedState)
    : SchedState :=
  match todo with
  | [] => st
  | t :: rest =>
      if bool_decide (failed ∈ dependencies t)
         && negb (bool_decide (name t ∈ completed st))
      then skip_dependents failed rest (skip t failed st)
      else skip_dependents failed rest st
  end.

(** Lines 196-209 for one finished future; [x] is the execution the
    worker went through. [result()] raises what [execute_task] raised. *)
Definition complete (tasks : list Task) (finished : string) (x : execution)
    (st : SchedState) : outcome SchedState :=
  let* (task, futures') := dict_pop finished (futures st) in
  let* (result, elapsed) := execute_task task x in
  let '(success, output) := result in
  let* running' := set_remove finished (running st) in
  let st1 :=
    mkSched ({[finished]} ∪ completed st) running' futures'
      (<[finished := elapsed]> (actual_durations st))
      (<[finished := output]> (outputs st))
      (Finished finished :: trace st) in
  if success then Returns st1
  else
    Returns (skip_dependents finished tasks
      (mkSched (completed st1) (running st1) (futures st1)
         (actual_durations st1) (outputs st1)
         (Error finished output :: trace st1))).

(** What the pool knows about the future stored under a name when it is
    polled: [None] while the worker is busy, the execution once it has
    finished. *)
Definition pool : Type := string -> option execution.

(** [[name for name, future in list(futures.items()) if future.done()]] *)
Fixpoint done_futures (p : pool) (fs : list (string * Task))
    : list (string * execution) :=
  match fs with
  | [] => []
  | (task_name, _) :: rest =>
      match p task_name with
      | Some x => (task_name, x) :: done_futures p rest
      | None => done_futures p rest
      end
  end.

(** Lines 195-209. *)
Fixpoint completion_scan (tasks : list Task) (done : list (string * execution))
    (st : SchedState) : outcome SchedState :=
  match done with
  | [] => Returns st
  | (finished, x) :: rest =>
      let* st' := complete tasks finished x st in
      completion_scan tasks rest st'
  end.

(** One turn of the [while] loop, lines 185-209. *)
Definition iteration (tasks : list Task) (p : pool) (st : SchedState)
    : outcome SchedState :=
  let st1 := readiness_scan tasks st in
  completion_scan tasks (done_futures p (futures st1)) st1.

(** [len(completed) < len(tasks)] *)
Definition unfinished (tasks : list Task) (st : SchedState) : bool :=
  (size (completed st) <? length tasks)%nat.

(** Lines 184-209; [polls i] is what the pool answers in turn [i]. *)
Fixpoint dispatch_loop (fuel : nat) (tasks : list Task) (polls : nat -> pool)
    (turn : nat) (st : SchedState) : outcome SchedState :=
  if unfinished tasks st then
    match fuel with
    | O => OutOfFuel
    | S fuel' =>
        let* st' := iteration tasks (polls turn) st in
        dispatch_loop fuel' tasks polls (S turn) st'
    end
  else Returns st.

Inductive run_report : Type :=
  | NotRun (error : string)
  | Ran (expected_runtime : Z) (final : SchedState).

Definition run_mode (fuel : nat) (tasks : list Task) (polls : nat -> pool)
    : outcome run_report :=
  match check_dependencies tasks with
  | Some error => Returns (NotRun error)
  | None =>
      let* cycle_error := detect_cycles tasks in
      match cycle_error with
      | Some error => Returns (NotRun error)
      | None =>
          let* expected_runtime := calculate_expected_runtime tasks in
          let* final := dispatch_loop fuel tasks polls 0 initial_state in
          Returns (Ran expected_runtime final)
      end
  end.

(** Lines 212-214: one line for each task, in the order of the file. *)
Definition no_output : string := "No output".

Definition task_outputs (tasks : list Task) (st : SchedState) : list string :=
  (fun task =>
     "Task " +:+ name task +:+ ": " +:+ default no_output (outputs st !! name task))
  <$> tasks.

(** ** parse_input, lines 18-61 and 70-73 *)

(** An exception raised inside the [try] block: [FileNotFoundError] has
    a handler of its own, any other one is handled by what [str] gives
    for it. *)
Inductive parse_exn : Type :=
  | FileNotFoundError
  | AnyException (str : string).

Inductive attempt (A : Type) : Type :=
  | Done (a : A)
  | Raised (e : parse_exn).

Arguments Done {A} a.
Arguments Raised {A} e.

Definition name_error (variable : string) : parse_exn :=
  AnyException ("name '" +:+ variable +:+ "' is not defined").

(** [return None, f"Line {line_num}: ..."] on lines 29, 34, 43, 50 and
    57. The loop binds [line_nuem]; [line_num] is bound nowhere, so the
    f-string raises [NameError] before the tuple is built. *)
Definition line_error {A : Type} : attempt A := Raised (name_error "line_num").

(** [c in s] *)
Fixpoint contains (c : ascii) (s : string) : bool :=
  match s with
  | EmptyString => false
  | String d rest => Ascii.eqb d c || contains c rest
  end.

(** [s.split(sep, 1)] *)
Fixpoint split_once (sep : ascii) (s : string) : list string :=
  match s with
  | EmptyString => [EmptyString]
  | String c rest =>
      if Ascii.eqb c sep then [EmptyString; rest]
      else match split_once sep rest with
           | [] => [String c EmptyString]
           | piece :: pieces => String c piece :: pieces
           end
  end.

(** What the assignment [key, value = ...] raises when the list has not
    two elements. *)
Definition unpack_error (got : nat) : parse_exn :=
  AnyException
    (match got with
     | 0%nat => "not enough values to unpack (expected 2, got 0)"
     | 1%nat => "not enough values to unpack (expected 2, got 1)"
     | _ => "too many values to unpack (expected 2)"
     end).

(** Lines 54-59. *)
Fixpoint parse_parameters (params : list string) (parameters : gmap string string)
    : attempt (gmap string string) :=
  match params with
  | [] => Done parameters
  | param :: rest =>
      if truthy param then
        if negb (contains "=" param) then line_error
        else
          match split_once "=" param with
          | [key; value] => parse_parameters rest (<[key := value]> parameters)
          | pieces => Raised (unpack_error (length pieces))
          end
      else parse_parameters rest parameters
  end.

Definition task_types : list string := ["resolve"; "traceroute"; "iperf3"].

(** What the file gives: the lines the iteration yields, and the
    exception that [open] or the reading raises after them, if any. *)
Record reading : Type := mkReading {
  lines : list string;
  failure : option parse_exn
}.

Section parse_input.

(** The built-in [int] on a string: the integer, or [None] for
    [ValueError]. *)
Variable int : string -> option Z.

(** Lines 24-61 for one line: [Done None] is the [continue] of a blank
    line, [Done (Some task)] the task that is appended. *)
Definition parse_line (names : gset string) (line : string) : attempt (option Task) :=
  let line := strip line in
  if negb (truthy line) then Done None
  else
    match split "," line with
    | [name; duration; deps; task_type; params] =>
        if negb (truthy name) || bool_decide (name ∈ names) then line_error
        else
          match int duration with
          | None => line_error
          | Some duration =>
              if duration <=? 0 then line_error
              else
                let dependencies := parse_dependencies deps in
                if negb (bool_decide (task_type ∈ task_types)) then line_error
                else
                  match parse_parameters (split ";" params) ∅ with
                  | Raised e => Raised e
                  | Done parameters =>
                      Done (Some (mkTask name duration dependencies task_type parameters))
                  end
          end
    | _ => line_error
    end.

(** The loop of lines 23-61 over the lines that are left. *)
Fixpoint read_lines (todo : list string) (tasks : list Task) (names : gset string)
    : attempt (list Task * gset string) :=
  match todo with
  | [] => Done (tasks, names)
  | line :: rest =>
      match parse_line names line with
      | Raised e => Raised e
      | Done None => read_lines rest tasks names
      | Done (Some task) => read_lines rest (tasks ++ [task]) ({[name task]} ∪ names)
      end
  end.

(** Lines 19-61: the tasks and the names after the last line, unless a
    line or the file itself raised. *)
Definition read_file (file : reading) : attempt (list Task * gset string) :=
  match read_lines (lines file) [] ∅ with
  | Raised e => Raised e
  | Done read =>
      match failure file with
      | Some e => Raised e
      | None => Done read
      end
  end.

Definition parse_input (file_path : string) (file : reading)
    : option (list Task) * option string :=
  match read_file file with
  | Done (tasks, names) =>
      match check_dependencies_in names tasks with
      | Some error => (None, Some error)
      | None => (Some tasks, None)
      end
  | Raised FileNotFoundError => (None, Some ("File " +:+ file_path +:+ " not found"))
  | Raised (AnyException str) => (None, Some ("Error parsing file: " +:+ str))
  end.

End parse_input.

(** * Properties: graphs, chains, traces and the states of the loop *)

(** [u] lists the non-empty name [v]; the task of a name is the one the
    lookup of [dfs] finds. *)
Definition found_edge (tasks : list Task) (u v : string) : Prop :=
  ∃ t, find_task tasks u = Returns t ∧ v ∈ dependencies t ∧ v ≠ "".

(** The dependency relation of the graph. *)
Definition depends_on (tasks : list Task) (u v : string) : Prop :=
  ∃ t, t ∈ tasks ∧ name t = u ∧ v ∈ dependencies t ∧ v ≠ "".

Definition cyclic (tasks : list Task) : Prop :=
  ∃ u, tc (depends_on tasks) u u.

(** Some task lists a non-empty name that no task has. *)
Definition dangling (tasks : list Task) : Prop :=
  ∃ t d, t ∈ tasks ∧ d ∈ dependencies t ∧ d ≠ "" ∧ d ∉ task_names tasks.

(** Names whose call of [dfs] has returned. *)
Definition explored (s : DfsState) : gset string := visited s ∖ rec_stack s.

Record dfs_inv (tasks : list Task) (s : DfsState) : Prop := {
  inv_stack : rec_stack s ⊆ visited s;
  inv_names : visited s ⊆ task_names tasks;
  inv_closed : ∀ u v, u ∈ explored s → found_edge tasks u v → v ∈ explored s;
  inv_acyclic : ∀ u, u ∈ explored s → ¬ tc (found_edge tasks) u u
}.

(** What a call of [dfs], or the loop over the dependencies, may do
    to a state [s]: report a cycle, or leave the stack as it was and
    explore [mark]. *)
Definition dfs_post (tasks : list Task) (s : DfsState) (mark : string → Prop)
    (r : outcome (bool * DfsState)) : Prop :=
  ∃ found s', r = Returns (found, s') ∧
    if found then ∃ u, tc (found_edge tasks) u u
    else dfs_inv tasks s' ∧ rec_stack s' = rec_stack s
         ∧ visited s ⊆ visited s'
         ∧ ∀ d, mark d → d ∈ explored s'.

Definition dfs_pre (tasks : list Task) (budget : nat) (t : Task) (s : DfsState)
    : Prop :=
  find_task tasks (name t) = Returns t ∧ (name t ∉ visited s) ∧ dfs_inv tasks s
  ∧ (∀ r, r ∈ rec_stack s → rtc (found_edge tasks) r (name t))
  ∧ (size (task_names tasks ∖ visited s) < budget)%nat.

(** What the loop over the roots returns. *)
Definition detect_post (tasks : list Task) (r : outcome (option string)) : Prop :=
  (r = Returns (Some cycle_message) ∧ ∃ u, tc (found_edge tasks) u u)
  ∨ (r = Returns None ∧ ∀ u, ¬ tc (found_edge tasks) u u).

(** A way to see that a concrete graph has no cycle: a rank that every
    dependency lowers. *)
Definition ranked (tasks : list Task) (rank : string → nat) : Prop :=
  ∀ t d, t ∈ tasks → d ∈ dependencies t → d ≠ "" → (rank d < rank (name t))%nat.

Definition forest : list Task :=
  [ mkTask "A" 5 [] "resolve" ∅;
    mkTask "B" 3 ["A"] "resolve" ∅;
    mkTask "C" 2 [] "iperf3" ∅;
    mkTask "D" 1 ["C"; ""] "traceroute" ∅ ].

Definition forest_rank (n : string) : nat :=
  if String.eqb n "B" then 1 else if String.eqb n "D" then 1 else 0.

Definition self_dependent : list Task := [mkTask "A" 1 ["A"] "resolve" ∅].

Definition mutual : list Task :=
  [mkTask "A" 1 ["B"] "resolve" ∅; mkTask "B" 1 ["A"] "resolve" ∅].

Definition missing : list Task :=
  [mkTask "A" 1 [] "resolve" ∅; mkTask "B" 1 ["A"; "Z"] "resolve" ∅].

(** A dependency chain: each task lists the name of the next one. *)
Inductive chain (tasks : list Task) : list Task → Prop :=
  | chain_one t : t ∈ tasks → chain tasks [t]
  | chain_cons t u rest :
      t ∈ tasks → name u ∈ dependencies t → name u ≠ "" →
      chain tasks (u :: rest) → chain tasks (t :: u :: rest).

Definition chain_duration (c : list Task) : Z :=
  foldr (λ t total, duration t + total) 0 c.

(** The tasks are listed after the tasks they depend on. *)
Fixpoint dependency_ordered (seen : gset string) (tasks : list Task) : Prop :=
  match tasks with
  | [] => True
  | t :: rest =>
      (∀ d, d ∈ dependencies t → d ≠ "" → d ∈ seen)
      ∧ dependency_ordered ({[name t]} ∪ seen) rest
  end.

(** What [finish_times] holds for the tasks read so far. *)
Definition finish_ok (tasks : list Task) (ft : gmap string Z) : Prop :=
  ∀ n f, ft !! n = Some f →
    ∃ t, t ∈ tasks ∧ name t = n
         ∧ (∀ c, chain tasks (t :: c) → chain_duration (t :: c) ≤ f)
         ∧ (∃ c, chain tasks (t :: c) ∧ chain_duration (t :: c) = f).

Definition forward_reference : list Task :=
  [mkTask "B" 3 ["A"] "resolve" ∅; mkTask "A" 5 [] "resolve" ∅].

Definition elapsed (x : execution) : Z := end_time x - start_time x.

(** Every character is white space. *)
Fixpoint whitespace_only (s : string) : bool :=
  match s with
  | EmptyString => true
  | String c rest => isspace c && whitespace_only rest
  end.

Definition no_fqdn : Task := mkTask "A" 1 [] "resolve" ∅.

Definition silent : execution :=
  mkExecution (λ _ _, Completed 0 " " "") 0 1.

(** The task without the empty entries of its dependency list. *)
Definition without_empty (t : Task) : Task :=
  mkTask (name t) (duration t) (List.filter truthy (dependencies t))
    (task_type t) (parameters t).

(** The names that were submitted, and the names that reached a
    terminal state, most recent first. *)
Fixpoint started (tr : list event) : list string :=
  match tr with
  | [] => []
  | Starting n :: earlier => n :: started earlier
  | _ :: earlier => started earlier
  end.

Fixpoint terminated (tr : list event) : list string :=
  match tr with
  | [] => []
  | Finished n :: earlier => n :: terminated earlier
  | Skipped n _ :: earlier => n :: terminated earlier
  | _ :: earlier => terminated earlier
  end.

(** What may be printed after [earlier]. *)
Definition allowed (tasks : list Task) (e : event) (earlier : list event) : Prop :=
  match e with
  | Starting n =>
      (n ∉ started earlier) ∧ (n ∉ terminated earlier)
      ∧ ∀ t d, t ∈ tasks → name t = n → d ∈ dependencies t → d ≠ "" →
               d ∈ terminated earlier
  | Finished n => n ∈ started earlier ∧ n ∉ terminated earlier
  | Error n _ => ∃ rest, earlier = Finished n :: rest
  | Skipped n f =>
      (n ∉ started earlier) ∧ (n ∉ terminated earlier)
      ∧ (∃ o, Error f o ∈ earlier)
      ∧ ∃ t, t ∈ tasks ∧ name t = n ∧ f ∈ dependencies t
  end.

(** The life cycle of every task, read off the printed lines. *)
Fixpoint orderly (tasks : list Task) (tr : list event) : Prop :=
  match tr with
  | [] => True
  | e :: earlier => allowed tasks e earlier ∧ orderly tasks earlier
  end.

Record sched_inv (tasks : list Task) (st : SchedState) : Prop := {
  inv_orderly : orderly tasks (trace st);
  inv_completed : completed st = list_to_set (terminated (trace st));
  inv_running : running st = list_to_set (started (trace st)) ∖ completed st;
  inv_keys : NoDup (futures st).*1;
  inv_futures : list_to_set (futures st).*1 = running st;
  inv_future_task : ∀ n t, (n, t) ∈ futures st → t ∈ tasks ∧ name t = n;
  inv_outputs : dom (outputs st) = completed st;
  inv_skipped : ∀ n f, Skipped n f ∈ trace st →
                       outputs st !! n = Some (skipped_output f);
  inv_known : list_to_set (started (trace st)) ∪ completed st ⊆ task_names tasks
}.

(** The states of the loop: before and after the readiness scan and
    after each finished future has been handled. *)
Inductive reachable (tasks : list Task) : SchedState → Prop :=
  | reachable_initial : reachable tasks initial_state
  | reachable_scan st :
      reachable tasks st → reachable tasks (readiness_scan tasks st)
  | reachable_complete st finished x st' :
      reachable tasks st → finished ∈ (futures st).*1 →
      complete tasks finished x st = Returns st' → reachable tasks st'.

(** What [parse_input] checks of the names, lines 33-35. *)
Definition well_named (tasks : list Task) : Prop :=
  NoDup (name <$> tasks) ∧ ∀ t, t ∈ tasks → name t ≠ "".

(** The state after lines 196-201 for the future [finished], whose call
    returned [output] after [seconds]; [rest] is [futures] without it. *)
Definition finished_state (finished output : string) (seconds : Z)
    (rest : list (string * Task)) (st : SchedState) : SchedState :=
  mkSched ({[finished]} ∪ completed st) (running st ∖ {[finished]}) rest
    (<[finished := seconds]> (actual_durations st))
    (<[finished := output]> (outputs st))
    (Finished finished :: trace st).

(** The state after line 203. *)
Definition failed_state (finished output : string) (st : SchedState) : SchedState :=
  mkSched (completed st) (running st) (futures st) (actual_durations st)
    (outputs st) (Error finished output :: trace st).

Definition pipeline : list Task :=
  [ mkTask "A" 1 [] "resolve" {[ "fqdn" := "a.example" ]};
    mkTask "B" 1 ["A"] "resolve" {[ "fqdn" := "b.example" ]};
    mkTask "C" 1 ["B"] "resolve" {[ "fqdn" := "c.example" ]} ].

(** The process of this execution exits with status 1. *)
Definition failing : execution :=
  mkExecution (λ _ _, Completed 1 "" "connection timed out") 0 1.

(** [pipeline] once [A] has been submitted. *)
Definition pipeline_started : SchedState := readiness_scan pipeline initial_state.

(** [pipeline] once [A] has failed. *)
Definition pipeline_failed : SchedState :=
  skip_dependents "A" pipeline
    (failed_state "A" "connection timed out"
       (finished_state "A" "connection timed out" 1 [] pipeline_started)).

Definition fan : list Task :=
  [ mkTask "A" 1 [] "resolve" {[ "fqdn" := "a.example" ]};
    mkTask "B" 1 ["A"] "resolve" {[ "fqdn" := "b.example" ]};
    mkTask "C" 1 ["A"] "resolve" {[ "fqdn" := "c.example" ]};
    mkTask "D" 1 [] "resolve" {[ "fqdn" := "d.example" ]} ].

(** [build_command] finds the parameters of every task. *)
Definition executable (tasks : list Task) : Prop :=
  ∀ t, t ∈ tasks → ∃ command, build_command t = Returns command.

(** Every worker is seen finished at some later poll. *)
Definition fair (polls : nat → pool) : Prop :=
  ∀ n i, ∃ j, (i ≤ j)%nat ∧ is_Some (polls j n).

(** The process of this execution prints an address and exits with
    status 0. *)
Definition answering : execution :=
  mkExecution (λ _ _, Completed 0 "192.0.2.1" "") 0 1.

Definition pipeline_rank (n : string) : nat :=
  if String.eqb n "A" then 0 else if String.eqb n "B" then 1 else 2.

(** The built-in [int] on a string of code points below 256, with the
    default limit of 4300 digits: white space at both ends (the
    characters 9 to 13, 32, 133 and 160), a sign, decimal digits with
    single underscores between them. *)
Definition int_space (c : ascii) : bool :=
  let n := nat_of_ascii c in
  ((9 <=? n) && (n <=? 13) || (n =? 32) || (n =? 133) || (n =? 160))%nat.

Fixpoint skip_spaces (s : string) : string :=
  match s with
  | EmptyString => EmptyString
  | String c rest => if int_space c then skip_spaces rest else s
  end.

Fixpoint drop_spaces (s : string) : string :=
  match s with
  | EmptyString => EmptyString
  | String c rest =>
      match drop_spaces rest with
      | EmptyString => if int_space c then EmptyString else String c EmptyString
      | kept => String c kept
      end
  end.

Definition digit (c : ascii) : option Z :=
  let n := nat_of_ascii c in
  if ((48 <=? n) && (n <=? 57))%nat then Some (Z.of_nat n - 48) else None.

(** The value of the digits, and how many there are. *)
Fixpoint digits (s : string) (value : Z) (count : nat) (after_digit : bool)
    : option (Z * nat) :=
  match s with
  | EmptyString => if after_digit then Some (value, count) else None
  | String c rest =>
      if Ascii.eqb c "_" then
        if after_digit then digits rest value count false else None
      else
        match digit c with
        | Some d => digits rest (10 * value + d) (S count) true
        | None => None
        end
  end.

Definition max_str_digits : nat := 4300.

Definition decimal (s : string) : option Z :=
  let '(negative, numeral) :=
    match drop_spaces (skip_spaces s) with
    | String "-" rest => (true, rest)
    | String "+" rest => (false, rest)
    | numeral => (false, numeral)
    end in
  match digits numeral 0 0 false with
  | Some (value, count) =>
      if (count <=? max_str_digits)%nat
      then Some (if negative then - value else value)
      else None
  | None => None
  end.

(** What the loop over the lines keeps: no name is empty or used twice,
    the durations are positive and the kinds known. *)
Definition accepted (tasks : list Task) : Prop :=
  well_named tasks
  ∧ ∀ t, t ∈ tasks → 0 < duration t ∧ task_type t ∈ task_types.

Definition newline : string := String (ascii_of_nat 10) EmptyString.

(** A file of three tasks with blank lines, a margin and a stray
    separator. *)
Definition three_lines : reading :=
  mkReading
    [ "lookup,2,,resolve,fqdn=example.org" +:+ newline;
      newline;
      "  route,5,lookup,traceroute,tool=mtr;count=3;endpoint=example.org;" +:+ newline;
      "load, 10 ,lookup;route,iperf3,endpoint=example.org;port=5201;duration=10" ]
    None.

Definition three_tasks : list Task :=
  [ mkTask "lookup" 2 [] "resolve" {[ "fqdn" := "example.org" ]};
    mkTask "route" 5 ["lookup"] "traceroute"
      (<[ "tool" := "mtr" ]> (<[ "count" := "3" ]> {[ "endpoint" := "example.org" ]}));
    mkTask "load" 10 ["lookup"; "route"] "iperf3"
      (<[ "endpoint" := "example.org" ]>
         (<[ "port" := "5201" ]> {[ "duration" := "10" ]})) ].

(** [sep.join(pieces)] *)
Fixpoint join (sep : ascii) (pieces : list string) : string :=
  match pieces with
  | [] => EmptyString
  | [piece] => piece
  | piece :: rest => piece +:+ String sep (join sep rest)
  end.

(** A parameter as it is written in the last field of a line. *)
Definition entry (kv : string * string) : string := kv.1 +:+ String "=" kv.2.

(** The lookup of [dfs] finds every name that the task of [n] lists. *)
Definition resolved (tasks : list Task) (n : string) : Prop :=
  ∀ t d, find_task tasks n = Returns t → d ∈ dependencies t → d ≠ "" →
         ∃ u, find_task tasks d = Returns u.

(** The names that left the stack have been resolved. *)
Definition searched (tasks : list Task) (s : DfsState) : Prop :=
  rec_stack s ⊆ visited s
  ∧ ∀ n, n ∈ visited s → n ∉ rec_stack s → resolved tasks n.

(** Two tasks; the second one lists a name that no line has. *)
Definition stray : list Task :=
  [ mkTask "A" 1 [] "resolve" ∅; mkTask "B" 1 ["A"; "Z"] "resolve" ∅ ].

(** The time the tasks take one after the other. *)
Definition total_duration (tasks : list Task) : Z :=
  foldr (λ t total, duration t + total) 0 tasks.

(** The keys that [build_command] subscripts for a kind of task, in
    the order in which it reads them. *)
Definition required_parameters (kind : string) : list string :=
  if String.eqb kind "resolve" then ["fqdn"]
  else if String.eqb kind "traceroute" then ["count"; "endpoint"]
  else if String.eqb kind "iperf3" then ["endpoint"; "port"; "duration"]
  else [].

(** The first required key that the task has no parameter for. *)
Definition first_missing (task : Task) : option string :=
  List.find (λ key, bool_decide (parameters task !! key = None))
    (required_parameters (task_type task)).

(** Where the output stored for a task comes from: from the call of
    [execute_task] on the task, for an execution that the pool
    delivered, or from the failure of a task it lists. *)
Definition sourced (tasks : list Task) (polls : nat → pool) (st : SchedState)
    : Prop :=
  ∀ n output, outputs st !! n = Some output →
    (∃ t turn x success seconds,
       t ∈ tasks ∧ name t = n ∧ polls turn n = Some x
       ∧ execute_task t x = Returns (success, output, seconds))
    ∨ (∃ t failed,
         t ∈ tasks ∧ name t = n ∧ failed ∈ dependencies t
         ∧ (∃ o, Error failed o ∈ trace st)
         ∧ output = skipped_output failed).

(** Every execution that the pool delivers for a task is a success. *)
Definition all_succeed (tasks : list Task) (polls : nat → pool) : Prop :=
  ∀ t turn x, t ∈ tasks → polls turn (name t) = Some x →
    ∃ output seconds, execute_task t x = Returns (true, output, seconds).

(** Only [Starting] and [Finished] lines. *)
Definition quiet (st : SchedState) : Prop :=
  ∀ e, e ∈ trace st → ∃ n, e = Starting n ∨ e = Finished n.

(** The position of the first task of a name. *)
Fixpoint position (tasks : list Task) (n : string) : nat :=
  match tasks with
  | [] => 0
  | t :: rest => if String.eqb (name t) n then 0 else S (position rest n)
  end.

(** Every poll finds every worker finished. *)
Definition prompt (x : execution) : nat → pool := λ _ _, Some x.





(** A name made of [k] letters. *)
Fixpoint unary (k : nat) : string :=
  match k with
  | O => EmptyString
  | S k' => String "x" (unary k')
  end.

(** The task of [k] letters lists the task of [k - 1] letters; the task
    of one letter lists nothing. *)
Definition link (k : nat) : Task :=
  mkTask (unary k) 1
    (match k with
     | S (S k') => [unary (S k')]
     | _ => []
     end)
    "resolve" {[ "fqdn" := "example.org" ]}.

(** A chain of [n] tasks, each listed before the task it depends on. *)
Fixpoint descending (n : nat) : list Task :=
  match n with
  | O => []
  | S n' => link n :: descending n'
  end.


(** * Proofs *)

(** * The dependency graph *)

Lemma truthy_true s : truthy s = true ↔ s ≠ "".
Proof. destruct s; simpl; split; intros; congruence. Qed.

Lemma truthy_false s : truthy s = false ↔ s = "".
Proof. destruct s; simpl; split; intros; congruence. Qed.

Lemma elem_of_task_names tasks n :
  n ∈ task_names tasks ↔ ∃ t, t ∈ tasks ∧ name t = n.
Proof.
  unfold task_names. rewrite elem_of_list_to_set, list_elem_of_fmap.
  naive_solver.
Qed.

Lemma find_task_Returns tasks dep t :
  find_task tasks dep = Returns t → t ∈ tasks ∧ name t = dep.
Proof.
  unfold find_task. destruct (find _ tasks) as [t'|] eqn:Hf; [|done].
  intros [= ->]. apply find_some in Hf as [Hin Heq].
  split; [by apply list_elem_of_In | by apply String.eqb_eq].
Qed.

Lemma find_task_known tasks dep :
  dep ∈ task_names tasks → ∃ t, find_task tasks dep = Returns t.
Proof.
  intros (t & Hin & Hn)%elem_of_task_names. unfold find_task.
  destruct (find _ tasks) as [t'|] eqn:Hf; [eauto|].
  eapply find_none in Hf; [|by apply list_elem_of_In].
  apply String.eqb_neq in Hf. done.
Qed.

Lemma find_task_first pre t rest :
  (∀ t', t' ∈ pre → name t' ≠ name t) →
  find_task (pre ++ t :: rest) (name t) = Returns t.
Proof.
  intros Hpre. unfold find_task.
  induction pre as [|p pre IH]; simpl.
  - by rewrite String.eqb_refl.
  - destruct (String.eqb_spec (name p) (name t)) as [Heq|_].
    + exfalso. eapply Hpre; [|done]. left.
    + apply IH. intros t' Ht'. apply Hpre. by right.
Qed.

Lemma find_task_NoDup tasks t :
  NoDup (name <$> tasks) → t ∈ tasks → find_task tasks (name t) = Returns t.
Proof.
  intros Hnd (pre & rest & ->)%list_elem_of_split.
  apply find_task_first. intros t' Ht' Heq.
  rewrite fmap_app, fmap_cons in Hnd.
  apply NoDup_app in Hnd as (_ & Hnd & _).
  eapply Hnd; [by apply list_elem_of_fmap_2|]. rewrite Heq. left.
Qed.

Lemma found_edge_depends_on tasks u v :
  found_edge tasks u v → depends_on tasks u v.
Proof.
  intros (t & Hf & Hv & Hne). apply find_task_Returns in Hf as [??].
  by exists t.
Qed.

Lemma depends_on_found_edge tasks u v :
  NoDup (name <$> tasks) → depends_on tasks u v → found_edge tasks u v.
Proof.
  intros Hnd (t & Hin & <- & Hv & Hne). exists t.
  split; [by apply find_task_NoDup | done].
Qed.

(** * The existence check *)

Lemma first_unknown_Some names deps d :
  first_unknown names deps = Some d → d ∈ deps ∧ d ≠ "" ∧ d ∉ names.
Proof.
  induction deps as [|dep rest IH]; simpl; [done|].
  destruct (truthy dep) eqn:Ht; simpl.
  - case_bool_decide as Hin; simpl.
    + intros (? & ? & ?)%IH. split; [by right | done].
    + intros [= ->]. apply truthy_true in Ht. split; [left | done].
  - intros (? & ? & ?)%IH. split; [by right | done].
Qed.

Lemma first_unknown_None names deps :
  first_unknown names deps = None ↔ ∀ d, d ∈ deps → d ≠ "" → d ∈ names.
Proof.
  induction deps as [|dep rest IH]; simpl.
  - split; [|done]. intros _ d Hd. by apply elem_of_nil in Hd.
  - destruct (truthy dep) eqn:Ht; simpl.
    + case_bool_decide as Hin; simpl.
      * rewrite IH. split.
        -- intros H d [->|Hd]%elem_of_cons; auto.
        -- intros H d Hd. apply H. by right.
      * split; [done|]. intros H. exfalso. apply Hin, H; [left|].
        by apply truthy_true.
    + apply truthy_false in Ht as ->. rewrite IH. split.
      * intros H d [->|Hd]%elem_of_cons; [done | auto].
      * intros H d Hd. apply H. by right.
Qed.

Lemma check_dependencies_in_Some names tasks e :
  check_dependencies_in names tasks = Some e →
  ∃ t d, t ∈ tasks ∧ d ∈ dependencies t ∧ d ≠ "" ∧ (d ∉ names)
         ∧ e = unknown_dependency t d.
Proof.
  induction tasks as [|t rest IH]; simpl; [done|].
  destruct (first_unknown names (dependencies t)) as [d|] eqn:Hf.
  - intros [= <-]. apply first_unknown_Some in Hf as (? & ? & ?).
    exists t, d. split; [left | done].
  - intros (t' & d & ? & ?)%IH. exists t', d. split; [by right | done].
Qed.

Lemma check_dependencies_in_None names tasks :
  check_dependencies_in names tasks = None ↔
  ∀ t d, t ∈ tasks → d ∈ dependencies t → d ≠ "" → d ∈ names.
Proof.
  induction tasks as [|t rest IH]; simpl.
  - split; [|done]. intros _ t d Ht. by apply elem_of_nil in Ht.
  - destruct (first_unknown names (dependencies t)) as [d|] eqn:Hf.
    + split; [done|]. intros H. exfalso.
      apply first_unknown_Some in Hf as (? & ? & Hn). apply Hn.
      eapply H; [left | done..].
    + rewrite IH. rewrite first_unknown_None in Hf. split.
      * intros H t' d [->|Ht']%elem_of_cons; eauto.
      * intros H t' d Ht'. apply H. by right.
Qed.

Lemma check_dependencies_None tasks :
  check_dependencies tasks = None ↔ ¬ dangling tasks.
Proof.
  unfold check_dependencies. rewrite check_dependencies_in_None.
  unfold dangling. split.
  - intros H (t & d & ? & ? & ? & Hn). apply Hn. eauto.
  - intros H t d ???. destruct (decide (d ∈ task_names tasks)); [done|].
    exfalso. apply H. by exists t, d.
Qed.

Lemma check_dependencies_Some tasks e :
  check_dependencies tasks = Some e →
  ∃ t d, t ∈ tasks ∧ d ∈ dependencies t ∧ d ≠ "" ∧ (d ∉ task_names tasks)
         ∧ e = unknown_dependency t d.
Proof. apply check_dependencies_in_Some. Qed.

(** * The depth-first search *)

Section dfs.
Variable tasks : list Task.
Hypothesis known : ¬ dangling tasks.

Lemma explored_closed_rtc s u v :
  dfs_inv tasks s → u ∈ explored s → rtc (found_edge tasks) u v → v ∈ explored s.
Proof.
  intros Hinv Hu Hr. induction Hr as [|u w v Huw _ IH]; [done|].
  apply IH. by eapply inv_closed.
Qed.

Lemma tc_first_step u w :
  tc (found_edge tasks) u w → ∃ v, (found_edge tasks) u v ∧ rtc (found_edge tasks) v w.
Proof.
  intros [u' w' H|u' v w' H Ht].
  - exists w'. by split.
  - exists v. split; [done | by apply tc_rtc].
Qed.

Lemma edge_target_known u v : (found_edge tasks) u v → v ∈ (task_names tasks).
Proof.
  intros (t & Hf & Hv & Hne). apply find_task_Returns in Hf as [Hin _].
  destruct (decide (v ∈ (task_names tasks))) as [|Hn]; [done|].
  exfalso. apply known. by exists t, v.
Qed.

Lemma size_unvisited_mono (s s' : DfsState) :
  visited s ⊆ visited s' →
  (size ((task_names tasks) ∖ visited s') ≤ size ((task_names tasks) ∖ visited s))%nat.
Proof. intros H. apply subseteq_size. set_solver. Qed.

Lemma dfs_deps_post (budget : nat) call cur :
  (∀ t s, dfs_pre tasks budget t s → dfs_post tasks s (eq (name t)) (call t s)) →
  ∀ deps s,
    dfs_inv tasks s → cur ∈ rec_stack s →
    (∀ r, r ∈ rec_stack s → rtc (found_edge tasks) r cur) →
    (∀ d, d ∈ deps → d ≠ "" → (found_edge tasks) cur d) →
    (size ((task_names tasks) ∖ visited s) < budget)%nat →
    dfs_post tasks s (λ d, d ∈ deps ∧ d ≠ "") (dfs_deps tasks call deps s).
Proof.
  intros Hcall deps. induction deps as [|dep rest IH];
    intros s Hinv Hcur Hpath Hedge Hsize; simpl.
  - exists false, s. split; [done|]. split_and!; [done..|].
    intros d [Hd _]. by apply elem_of_nil in Hd.
  - assert (Hrest : ∀ d, d ∈ rest → d ≠ "" → (found_edge tasks) cur d).
    { intros d Hd. apply Hedge. by right. }
    destruct (truthy dep) eqn:Hdep.
    2: { apply truthy_false in Hdep as ->.
         destruct (IH s) as (found & s' & -> & Hpost); try done.
         exists found, s'. split; [done|]. destruct found; [done|].
         destruct Hpost as (? & ? & ? & Hm). split_and!; [done..|].
         intros d [[->|Hd]%elem_of_cons Hne]; [done | auto]. }
    apply truthy_true in Hdep.
    assert (Hcd : (found_edge tasks) cur dep) by (apply Hedge; [left | done]).
    destruct (find_task_known tasks dep) as [dep_task Hfind];
      [by eapply edge_target_known|].
    rewrite Hfind. simpl.
    pose proof (find_task_Returns _ _ _ Hfind) as [Hin Hname].
    case_bool_decide as Hvis.
    + case_bool_decide as Hstack.
      * exists true, s. split; [done|]. exists dep.
        eapply tc_rtc_l; [by apply Hpath | by apply tc_once].
      * destruct (IH s) as (found & s' & -> & Hpost); try done.
        exists found, s'. split; [done|]. destruct found; [done|].
        destruct Hpost as (? & Hst & Hv & Hm). split_and!; [done..|].
        intros d [[->|Hd]%elem_of_cons Hne]; [|auto].
        unfold explored. rewrite Hst. set_solver.
    + destruct (Hcall dep_task s) as (found & s1 & -> & Hpost).
      { split_and!; try done.
        - by rewrite Hname.
        - by rewrite Hname.
        - rewrite Hname. intros r Hr. eapply rtc_r; [by apply Hpath | done]. }
      simpl. destruct found.
      { exists true, s1. by split. }
      destruct Hpost as (Hinv1 & Hst1 & Hv1 & Hm1).
      destruct (IH s1) as (found & s' & -> & Hpost); try done.
      { by rewrite Hst1. }
      { intros r. rewrite Hst1. apply Hpath. }
      { pose proof (size_unvisited_mono s s1 Hv1). lia. }
      exists found, s'. split; [done|]. destruct found; [done|].
      destruct Hpost as (? & Hst & Hv & Hm).
      split_and!; [done | congruence | set_solver |].
      intros d [[->|Hd]%elem_of_cons Hne]; [|auto].
      assert (dep ∈ explored s1) as Hex by (by apply Hm1).
      unfold explored in *. rewrite Hst. set_solver.
Qed.

Lemma dfs_correct fuel t s :
  dfs_pre tasks fuel t s → dfs_post tasks s (eq (name t)) (dfs fuel tasks t s).
Proof.
  revert t s. induction fuel as [|fuel IH]; intros t s Hpre.
  { destruct Hpre as (_ & _ & _ & _ & ?). lia. }
  destruct Hpre as (Hfind & Hfresh & Hinv & Hpath & Hsize).
  pose proof (find_task_Returns _ _ _ Hfind) as [Hin _].
  assert (Hname : name t ∈ (task_names tasks)).
  { apply elem_of_task_names. eauto. }
  simpl.
  set (s1 := mkDfs ({[name t]} ∪ visited s) ({[name t]} ∪ rec_stack s)).
  assert (Hex1 : explored s1 = explored s).
  { unfold explored, s1. simpl. set_solver. }
  assert (Hinv1 : dfs_inv tasks s1).
  { destruct Hinv as [H1 H2 H3 H4]. split.
    - simpl. set_solver.
    - simpl. set_solver.
    - rewrite Hex1. done.
    - rewrite Hex1. done. }
  destruct (dfs_deps_post fuel (dfs fuel tasks) (name t) IH
              (dependencies t) s1) as (found & s2 & -> & Hpost).
  - done.
  - simpl. set_solver.
  - simpl. intros r [->%elem_of_singleton|Hr]%elem_of_union; [done|].
    by apply Hpath.
  - intros d Hd Hne. by exists t.
  - assert (size ((task_names tasks) ∖ visited s1) < size ((task_names tasks) ∖ visited s))%nat; [|lia].
    apply subset_size. simpl. set_solver.
  - simpl. destruct found.
    { exists true, s2. by split. }
    destruct Hpost as (Hinv2 & Hst2 & Hv2 & Hm2).
    unfold set_remove. rewrite bool_decide_eq_true_2 by (rewrite Hst2; simpl; set_solver).
    simpl. eexists false, _. split; [done|].
    assert (Hstack : rec_stack s2 ∖ {[name t]} = rec_stack s).
    { rewrite Hst2. simpl. destruct Hinv as [H1 _ _ _].
      apply set_eq. intros x. set_solver. }
    assert (Hexp : ∀ x, x ∈ explored (mkDfs (visited s2) (rec_stack s2 ∖ {[name t]}))
                        ↔ x ∈ explored s2 ∨ x = name t).
    { intros x. unfold explored. simpl. rewrite Hst2. simpl.
      destruct (decide (x = name t)) as [->|]; [|set_solver].
      split; [auto|]. intros _. destruct Hinv as [H1 _ _ _].
      apply elem_of_difference. split; [set_solver|].
      rewrite elem_of_difference. set_solver. }
    assert (Htdeps : ∀ v, (found_edge tasks) (name t) v → v ∈ explored s2).
    { intros v (t' & Hf' & Hv & Hne). rewrite Hfind in Hf'.
      injection Hf' as <-. by apply Hm2. }
    assert (Hnot : name t ∉ explored s2).
    { unfold explored. rewrite Hst2. simpl. set_solver. }
    split_and!.
    + split; simpl.
      * rewrite Hstack. destruct Hinv as [H1 _ _ _]. set_solver.
      * by destruct Hinv2.
      * intros u v Hu Huv. apply Hexp. left.
        apply Hexp in Hu as [Hu| ->].
        -- by eapply inv_closed.
        -- by apply Htdeps.
      * intros u Hu%Hexp Hcyc. destruct Hu as [Hu| ->].
        -- by eapply inv_acyclic.
        -- apply tc_first_step in Hcyc as (v & Htv & Hvt).
           apply Hnot. eapply explored_closed_rtc; [done| |done].
           by apply Htdeps.
    + done.
    + simpl. set_solver.
    + intros d <-. apply Hexp. by right.
Qed.
End dfs.

Lemma size_task_names tasks : (size (task_names tasks) ≤ length tasks)%nat.
Proof.
  unfold task_names. induction tasks as [|t rest IH].
  - rewrite fmap_nil, list_to_set_nil, size_empty. done.
  - rewrite fmap_cons, list_to_set_cons, size_union_alt, size_singleton. simpl.
    assert (size (list_to_set (name <$> rest) ∖ {[name t]} : gset string)
            ≤ size (list_to_set (name <$> rest) : gset string))%nat.
    { apply subseteq_size. set_solver. }
    lia.
Qed.

Lemma tc_found_depends tasks u v :
  tc (found_edge tasks) u v → tc (depends_on tasks) u v.
Proof.
  induction 1 as [x y H|x y z H _ IH].
  - apply tc_once. by apply found_edge_depends_on.
  - eapply tc_l; [by apply found_edge_depends_on | done].
Qed.

Lemma tc_depends_found tasks u v :
  NoDup (name <$> tasks) →
  tc (depends_on tasks) u v → tc (found_edge tasks) u v.
Proof.
  intros Hnd. induction 1 as [x y H|x y z H _ IH].
  - apply tc_once. by apply depends_on_found_edge.
  - eapply tc_l; [by apply depends_on_found_edge | done].
Qed.

Section detect.
Variable tasks : list Task.
Hypothesis known : ¬ dangling tasks.

Lemma detect_cycles_from_correct fuel pre roots s :
  tasks = pre ++ roots →
  (∀ t, t ∈ pre → name t ∈ visited s) →
  dfs_inv tasks s → rec_stack s = ∅ →
  (size (task_names tasks) < fuel)%nat →
  detect_post tasks (detect_cycles_from fuel tasks roots s).
Proof.
  revert pre s. induction roots as [|t rest IH];
    intros pre s Htasks Hpre Hinv Hstack Hfuel; simpl.
  - right. split; [done|]. intros u Hcyc.
    assert (u ∈ explored s) as Hu.
    { unfold explored. rewrite Hstack.
      destruct (tc_first_step tasks u u Hcyc) as (v & (t & Hf & _) & _).
      apply find_task_Returns in Hf as [Hin <-].
      rewrite app_nil_r in Htasks. subst pre.
      specialize (Hpre t Hin). set_solver. }
    by eapply inv_acyclic.
  - case_bool_decide as Hvis.
    + apply (IH (pre ++ [t])); try done.
      * by rewrite <- app_assoc.
      * intros t' [?| ->%list_elem_of_singleton]%elem_of_app; auto.
    + destruct (dfs_correct tasks known fuel t s) as (found & s' & -> & Hpost).
      { split_and!; try done.
        - rewrite Htasks. apply find_task_first.
          intros t' Ht' Heq. apply Hvis. rewrite <- Heq. auto.
        - intros r. rewrite Hstack. set_solver.
        - pose proof (subseteq_size (task_names tasks ∖ visited s)
                        (task_names tasks)). 
          assert (size (task_names tasks ∖ visited s)
                  ≤ size (task_names tasks))%nat; [|lia].
          apply subseteq_size. set_solver. }
      simpl. destruct found.
      { left. by split. }
      destruct Hpost as (Hinv' & Hst' & Hv' & Hm').
      apply (IH (pre ++ [t])); try done.
      * by rewrite <- app_assoc.
      * intros t' [?| ->%list_elem_of_singleton]%elem_of_app.
        -- apply Hv'. auto.
        -- assert (name t ∈ explored s') as Hex by (by apply Hm').
           unfold explored in Hex. set_solver.
      * congruence.
Qed.

Lemma detect_cycles_correct : detect_post tasks (detect_cycles tasks).
Proof.
  unfold detect_cycles. apply (detect_cycles_from_correct _ []).
  - done.
  - intros t Ht. by apply elem_of_nil in Ht.
  - split; simpl; try set_solver.
  - done.
  - pose proof (size_task_names tasks). lia.
Qed.
End detect.

(** Once the existence check has passed, [detect_cycles] returns: the
    lookup finds its task, [remove] finds its member, and the recursion
    stays within its budget. *)
Lemma detect_cycles_total tasks :
  check_dependencies tasks = None →
  detect_cycles tasks = Returns (Some cycle_message)
  ∨ detect_cycles tasks = Returns None.
Proof.
  intros Hk%check_dependencies_None.
  destruct (detect_cycles_correct tasks Hk) as [[-> _]|[-> _]]; auto.
Qed.

Lemma detect_cycles_cyclic tasks :
  NoDup (name <$> tasks) → ¬ dangling tasks → cyclic tasks →
  detect_cycles tasks = Returns (Some cycle_message).
Proof.
  intros Hnd Hk [u Hu].
  destruct (detect_cycles_correct tasks Hk) as [[-> _]|[_ Hac]]; [done|].
  exfalso. apply (Hac u). by apply tc_depends_found.
Qed.

Lemma detect_cycles_acyclic tasks :
  ¬ dangling tasks → ¬ cyclic tasks → detect_cycles tasks = Returns None.
Proof.
  intros Hk Hac.
  destruct (detect_cycles_correct tasks Hk) as [[_ [u Hu]]|[-> _]]; [|done].
  exfalso. apply Hac. exists u. by apply tc_found_depends.
Qed.

Lemma ranked_acyclic tasks rank : ranked tasks rank → ¬ cyclic tasks.
Proof.
  intros Hr [u Hu].
  assert (∀ x y, tc (depends_on tasks) x y → (rank y < rank x)%nat) as Hlt.
  { induction 1 as [x y (t & ? & <- & ? & ?)|x y z (t & ? & <- & ? & ?) _ IH].
    - by eapply Hr.
    - etrans; [apply IH | by eapply Hr]. }
  specialize (Hlt u u Hu). lia.
Qed.

Lemma forest_known : ¬ dangling forest.
Proof. by apply check_dependencies_None. Qed.

Lemma forest_acyclic : ¬ cyclic forest.
Proof.
  apply (ranked_acyclic _ forest_rank). intros t d Ht Hd Hne.
  unfold forest in Ht. set_unfold in Ht.
  destruct Ht as [->|[->|[->|[->|[]]]]]; simpl in Hd; set_unfold in Hd;
    try done; destruct Hd as [->|Hd]; try done; try (vm_compute; lia).
  destruct Hd as [->|[]]. done.
Qed.

Lemma dangling_reported tasks :
  dangling tasks →
  ∃ t d, t ∈ tasks ∧ d ∈ dependencies t ∧ d ≠ "" ∧ (d ∉ task_names tasks)
         ∧ check_dependencies tasks = Some (unknown_dependency t d).
Proof.
  intros Hd. destruct (check_dependencies tasks) as [e|] eqn:Hc.
  - apply check_dependencies_Some in Hc as (t & d & ? & ? & ? & ? & ->).
    by exists t, d.
  - by apply check_dependencies_None in Hc.
Qed.

Lemma validate_mode_unknown tasks e :
  check_dependencies tasks = Some e → validate_mode tasks = Returns (Invalid e).
Proof. intros H. unfold validate_mode. by rewrite H. Qed.

Lemma run_mode_unknown tasks e fuel polls :
  check_dependencies tasks = Some e →
  run_mode fuel tasks polls = Returns (NotRun e).
Proof. intros H. unfold run_mode. by rewrite H. Qed.

Lemma validate_mode_cycle tasks :
  check_dependencies tasks = None →
  detect_cycles tasks = Returns (Some cycle_message) →
  validate_mode tasks = Returns (Invalid cycle_message).
Proof. intros H1 H2. unfold validate_mode. by rewrite H1, H2. Qed.

Lemma self_dependent_cyclic : cyclic self_dependent.
Proof.
  exists "A". apply tc_once. eexists. split; [left|]. by split_and!; [|left|].
Qed.

Lemma mutual_cyclic : cyclic mutual.
Proof.
  exists "A". apply tc_l with "B"; [|apply tc_once].
  - eexists. split; [left|]. by split_and!; [|left|].
  - eexists. split; [right; left|]. by split_and!; [|left|].
Qed.

(** * The expected runtime *)

Lemma max_dep_finish_spec (ft : gmap string Z) deps acc :
  (∀ d, d ∈ deps → d ≠ "" → is_Some (ft !! d)) →
  ∃ m, max_dep_finish ft deps acc = Returns m
       ∧ acc ≤ m
       ∧ (∀ d f, d ∈ deps → d ≠ "" → ft !! d = Some f → f ≤ m)
       ∧ (m = acc ∨ ∃ d, d ∈ deps ∧ d ≠ "" ∧ ft !! d = Some m).
Proof.
  revert acc. induction deps as [|dep rest IH]; intros acc Hdom; simpl.
  - exists acc. split_and!; [done | lia | | by left].
    intros d f Hd. by apply elem_of_nil in Hd.
  - assert (Hrest : ∀ d, d ∈ rest → d ≠ "" → is_Some (ft !! d)).
    { intros d Hd. apply Hdom. by right. }
    destruct (truthy dep) eqn:Hdep.
    + apply truthy_true in Hdep.
      destruct (Hdom dep) as [f Hf]; [left | done |]. rewrite Hf.
      destruct (IH (Z.max acc f) Hrest) as (m & -> & Hle & Hub & Hatt).
      exists m. split_and!; [done | lia | |].
      * intros d f' [->|Hd]%elem_of_cons Hne Hf'; [|by eapply Hub].
        assert (f' = f) by congruence. lia.
      * destruct Hatt as [->|(d & ? & ? & ?)].
        -- destruct (Z.max_spec acc f) as [[_ ->]|[_ ->]].
           ++ right. exists dep. split; [left | done].
           ++ by left.
        -- right. exists d. split; [by right | done].
    + apply truthy_false in Hdep as ->.
      destruct (IH acc Hrest) as (m & -> & Hle & Hub & Hatt).
      exists m. split_and!; [done..| |].
      * intros d f [->|Hd]%elem_of_cons Hne Hf; [done | by eapply Hub].
      * destruct Hatt as [->|(d & ? & ? & ?)]; [by left|].
        right. exists d. split; [by right | done].
Qed.

Lemma foldr_max_upper v vs w : w ∈ v :: vs → w ≤ foldr Z.max v vs.
Proof.
  induction vs as [|x vs IH]; simpl.
  - intros ->%list_elem_of_singleton. lia.
  - intros Hw. assert (w = x ∨ w ∈ v :: vs) as [->|Hw'].
    { apply elem_of_cons in Hw as [->|[->|Hw]%elem_of_cons];
        [right; left | by left | right; by right]. }
    + lia.
    + specialize (IH Hw'). lia.
Qed.

Lemma foldr_max_attained v vs : foldr Z.max v vs ∈ v :: vs.
Proof.
  induction vs as [|x vs IH]; simpl; [left|].
  destruct (Z.max_spec x (foldr Z.max v vs)) as [[_ ->]|[_ ->]].
  - apply elem_of_cons in IH as [->|IH]; [left | right; by right].
  - right. left.
Qed.

Lemma max_values_spec (values : list Z) :
  (∀ v, v ∈ values → v ≤ max_values values)
  ∧ (values = [] ∧ max_values values = 0 ∨ max_values values ∈ values).
Proof.
  destruct values as [|v vs]; simpl.
  - split; [|by left]. intros v Hv. by apply elem_of_nil in Hv.
  - split; [apply foldr_max_upper | right; apply foldr_max_attained].
Qed.

Section ordered.
Variable tasks : list Task.
Hypothesis unique : NoDup (name <$> tasks).

Lemma same_name t u : t ∈ tasks → u ∈ tasks → name t = name u → t = u.
Proof.
  intros Ht Hu Heq.
  pose proof (find_task_NoDup tasks t unique Ht) as H1.
  pose proof (find_task_NoDup tasks u unique Hu) as H2.
  rewrite Heq in H1. congruence.
Qed.

Lemma finish_times_from_spec pre rest ft :
  tasks = pre ++ rest →
  dom ft = task_names pre →
  finish_ok tasks ft →
  dependency_ordered (task_names pre) rest →
  ∃ ft', finish_times_from rest ft = Returns ft'
         ∧ dom ft' = task_names tasks ∧ finish_ok tasks ft'.
Proof.
  revert pre ft. induction rest as [|t rest IH];
    intros pre ft Htasks Hdom Hok Hord; simpl.
  - exists ft. rewrite app_nil_r in Htasks. by subst pre.
  - destruct Hord as [Hdeps Hord].
    assert (Hin : t ∈ tasks).
    { rewrite Htasks. apply elem_of_app. right. left. }
    destruct (max_dep_finish_spec ft (dependencies t) 0)
      as (start & -> & Hle & Hub & Hatt).
    { intros d Hd Hne. apply elem_of_dom. rewrite Hdom. by apply Hdeps. }
    simpl. apply (IH (pre ++ [t])).
    + by rewrite <- app_assoc.
    + rewrite dom_insert_L, Hdom. unfold task_names.
      rewrite fmap_app, list_to_set_app_L. simpl. set_solver.
    + clear Htasks. intros n f. destruct (decide (n = name t)) as [->|Hne].
      * rewrite lookup_insert_eq. intros [= <-]. exists t.
        split_and!; [done..| |].
        -- intros c Hc. inversion Hc as [|? u c' _ Hu Hune Hc']; subst.
           { simpl. lia. }
           assert (is_Some (ft !! name u)) as [fu Hfu].
           { apply elem_of_dom. rewrite Hdom. by apply Hdeps. }
           destruct (Hok _ _ Hfu) as (u' & Hu' & Hnu & Hmax & _).
           assert (u' = u) as ->.
           { apply same_name; [done| |done].
             inversion Hc'; subst; done. }
           specialize (Hmax _ Hc'). specialize (Hub _ _ Hu Hune Hfu).
           change (chain_duration (t :: u :: c'))
             with (duration t + chain_duration (u :: c')). lia.
        -- destruct Hatt as [->|(d & Hd & Hdne & Hfd)].
           ++ exists []. split; [by constructor | simpl; lia].
           ++ destruct (Hok _ _ Hfd) as (u & Hu & <- & _ & c & Hc & Hdur).
              exists (u :: c). split; [by constructor|].
              change (chain_duration (t :: u :: c))
                with (duration t + chain_duration (u :: c)). lia.
      * rewrite lookup_insert_ne by done. apply Hok.
    + replace (task_names (pre ++ [t])) with ({[name t]} ∪ task_names pre);
        [done|].
      unfold task_names. rewrite fmap_app, list_to_set_app_L. simpl.
      set_solver.
Qed.

(** For a list in dependency order [calculate_expected_runtime]
    returns the duration of a longest dependency chain. *)
Lemma expected_runtime_longest_chain :
  dependency_ordered ∅ tasks →
  ∃ m, calculate_expected_runtime tasks = Returns m
       ∧ (∀ c, chain tasks c → chain_duration c ≤ m)
       ∧ (tasks ≠ [] → ∃ c, chain tasks c ∧ chain_duration c = m)
       ∧ (tasks = [] → m = 0).
Proof.
  intros Hord. unfold calculate_expected_runtime.
  destruct (finish_times_from_spec [] tasks ∅) as (ft & -> & Hdom & Hok);
    [done | by rewrite dom_empty_L | by intros n f; rewrite lookup_empty | done |].
  simpl. eexists. split; [done|].
  destruct (max_values_spec (snd <$> map_to_list ft)) as [Hub Hatt].
  split_and!.
  - intros c Hc.
    assert (∃ t c', c = t :: c' ∧ t ∈ tasks) as (t & c' & -> & Ht).
    { inversion Hc; subst; eauto. }
    assert (is_Some (ft !! name t)) as [f Hf].
    { apply elem_of_dom. rewrite Hdom. apply elem_of_task_names. eauto. }
    destruct (Hok _ _ Hf) as (t' & Ht' & Hn & Hmax & _).
    assert (t' = t) as -> by (by apply same_name).
    etrans; [by apply Hmax|]. apply Hub.
    apply list_elem_of_fmap. exists (name t, f). split; [done|].
    by apply elem_of_map_to_list.
  - intros Hne. destruct Hatt as [[Hnil _]|Hin].
    + exfalso. apply fmap_nil_inv, map_to_list_empty_iff in Hnil.
      subst ft. rewrite dom_empty_L in Hdom.
      destruct tasks as [|t ?]; [done|].
      assert (name t ∈ task_names (t :: l)) as Hx; [|set_solver].
      apply elem_of_task_names. exists t. split; [left | done].
    + apply list_elem_of_fmap in Hin as ([n f] & Hf & Hin). simpl in Hf.
      apply elem_of_map_to_list in Hin.
      destruct (Hok _ _ Hin) as (t & _ & _ & _ & c & Hc & Hdur).
      exists (t :: c). split; [done | congruence].
  - intros Hnil. destruct Hatt as [[_ ->]|Hin]; [done|].
    apply list_elem_of_fmap in Hin as ([n f] & _ & Hin).
    apply elem_of_map_to_list in Hin.
    assert (n ∈ dom ft) as Hn by (apply elem_of_dom; eauto).
    rewrite Hdom, Hnil in Hn. set_solver.
Qed.
End ordered.

(** C1. A graph without cycle whose task is listed before the task it
    depends on passes both checks; [calculate_expected_runtime] then
    reads a finish time that is not yet stored and raises [KeyError],
    and so does [validate_mode]. *)
Theorem expected_runtime_forward_reference :
  check_dependencies forward_reference = None
  ∧ detect_cycles forward_reference = Returns None
  ∧ calculate_expected_runtime forward_reference = Raises (KeyError "A")
  ∧ validate_mode forward_reference = Raises (KeyError "A").
Proof. by vm_compute. Qed.

Example chain_runtime :
  calculate_expected_runtime
    [mkTask "A" 5 [] "resolve" ∅; mkTask "B" 3 ["A"] "resolve" ∅;
     mkTask "C" 2 ["B"] "resolve" ∅] = Returns 10.
Proof. by vm_compute. Qed.

Example empty_runtime : calculate_expected_runtime [] = Returns 0.
Proof. by vm_compute. Qed.

(** * execute_task *)

Lemma lstrip_whitespace s : whitespace_only s = true → lstrip s = "".
Proof.
  induction s as [|c s IH]; simpl; [done|].
  intros [Hc Hs]%andb_true_iff. rewrite Hc. auto.
Qed.

Lemma rstrip_empty s : rstrip s = "" → whitespace_only s = true.
Proof.
  induction s as [|c s IH]; simpl; [done|].
  destruct (rstrip s) eqn:Hr; [|done].
  destruct (isspace c); [auto | done].
Qed.

Lemma lstrip_empty s : lstrip s = "" → whitespace_only s = true.
Proof.
  induction s as [|c s IH]; simpl; [done|].
  destruct (isspace c); [auto | done].
Qed.

Lemma strip_empty s : strip s = "" ↔ whitespace_only s = true.
Proof.
  unfold strip. split.
  - intros H%rstrip_empty.
    induction s as [|c s IH]; simpl in *; [done|].
    destruct (isspace c) eqn:Hc; simpl; [auto|].
    simpl in H. rewrite Hc in H. done.
  - intros H. by rewrite lstrip_whitespace.
Qed.

Lemma execute_task_command task x command :
  build_command task = Returns command →
  execute_task task x =
    Returns
      (match subprocess_run x command (duration task + 10) with
       | Completed returncode stdout stderr =>
           if String.eqb (task_type task) "resolve" && (returncode =? 0)
              && negb (truthy (strip (if returncode =? 0 then stdout else stderr)))
           then (false, no_dns_records)
           else (returncode =? 0, if returncode =? 0 then stdout else stderr)
       | TimeoutExpired => (false, "Task " +:+ name task +:+ " timed out")
       | OtherException message =>
           (false, "Task " +:+ name task +:+ " error: " +:+ message)
       end, elapsed x).
Proof.
  intros Hc. unfold execute_task. rewrite Hc. simpl.
  destruct (subprocess_run x command (duration task + 10)); try done.
  by destruct (_ && _).
Qed.

(** Once the command is built, every failure of the process comes back
    as a triple whose first component is [False]. *)
Lemma execute_task_contained task x command :
  build_command task = Returns command →
  ∃ success output,
    execute_task task x = Returns (success, output, elapsed x)
    ∧ match subprocess_run x command (duration task + 10) with
      | Completed returncode _ stderr =>
          returncode ≠ 0 → success = false ∧ output = stderr
      | TimeoutExpired =>
          success = false ∧ output = "Task " +:+ name task +:+ " timed out"
      | OtherException message =>
          success = false
          ∧ output = "Task " +:+ name task +:+ " error: " +:+ message
      end.
Proof.
  intros Hc. rewrite (execute_task_command _ _ _ Hc).
  destruct (subprocess_run x command (duration task + 10)) as [rc out err| |m].
  - destruct (rc =? 0) eqn:Hrc.
    + destruct (_ && _); eexists _, _; (split; [done|]); lia.
    + rewrite andb_false_r. simpl. eexists _, _. by split.
  - eexists _, _. by split.
  - eexists _, _. by split.
Qed.

(** C8. For a resolve task without the parameter [fqdn], a task that
    [parse_input] accepts, [build_command] raises [KeyError] before the
    [try] block is entered: [execute_task] raises instead of returning
    a triple, whatever the process would have done. *)
Theorem execute_task_raises x :
  check_dependencies [no_fqdn] = None
  ∧ detect_cycles [no_fqdn] = Returns None
  ∧ execute_task no_fqdn x = Raises (KeyError "fqdn").
Proof. by vm_compute. Qed.

(** C9. A resolve task whose process exits with status 0 and prints
    white space only fails with the message [No DNS records found] in
    place of its output; with another output it succeeds with that
    output; a task of another kind whose process exits with status 0
    succeeds with its output, empty or not. *)
Theorem resolve_empty_output_fails task x command stdout stderr :
  build_command task = Returns command →
  subprocess_run x command (duration task + 10) = Completed 0 stdout stderr →
  (task_type task = "resolve" → whitespace_only stdout = true →
     execute_task task x = Returns (false, "No DNS records found", elapsed x))
  ∧ (task_type task = "resolve" → whitespace_only stdout = false →
       execute_task task x = Returns (true, stdout, elapsed x))
  ∧ (task_type task ≠ "resolve" →
       execute_task task x = Returns (true, stdout, elapsed x)).
Proof.
  intros Hc Hrun. rewrite (execute_task_command _ _ _ Hc), Hrun. simpl.
  split_and!.
  - intros -> Hw%strip_empty. rewrite Hw. done.
  - intros -> Hw. simpl. destruct (strip stdout) eqn:Hs; [|done].
    apply strip_empty in Hs. congruence.
  - intros Hne%String.eqb_neq. by rewrite Hne.
Qed.

Lemma resolve_empty_output_fails_witness :
  execute_task (mkTask "A" 1 [] "resolve" {[ "fqdn" := "example.org" ]}) silent
    = Returns (false, "No DNS records found", 1)
  ∧ execute_task
      (mkTask "B" 1 [] "iperf3"
         {[ "endpoint" := "h"; "port" := "1"; "duration" := "1" ]}) silent
    = Returns (true, " ", 1).
Proof.
  split.
  - eapply (resolve_empty_output_fails _ silent "dig +short example.org" " " "");
      reflexivity.
  - eapply (resolve_empty_output_fails _ silent "iperf3 -c h -p 1 -t 1" " " "");
      [reflexivity | reflexivity | done].
Defined.

(** * Empty entries of a dependency list *)

Lemma without_empty_names tasks :
  task_names (without_empty <$> tasks) = task_names tasks.
Proof.
  unfold task_names. f_equal. rewrite <- list_fmap_compose.
  by apply list_fmap_ext.
Qed.

Lemma first_unknown_filter names deps :
  first_unknown names (List.filter truthy deps) = first_unknown names deps.
Proof.
  induction deps as [|d deps IH]; simpl; [done|].
  destruct (truthy d) eqn:Hd; simpl; [|done]. by rewrite Hd, IH.
Qed.

Lemma check_dependencies_without_empty tasks :
  check_dependencies (without_empty <$> tasks) = check_dependencies tasks.
Proof.
  unfold check_dependencies. rewrite without_empty_names.
  generalize (task_names tasks). intros names.
  induction tasks as [|t tasks IH]; csimpl; [done|].
  rewrite first_unknown_filter, IH. done.
Qed.

Lemma find_task_without_empty tasks dep :
  find_task (without_empty <$> tasks) dep =
    match find_task tasks dep with
    | Returns t => Returns (without_empty t)
    | Raises e => Raises e
    | OutOfFuel => OutOfFuel
    end.
Proof.
  unfold find_task. induction tasks as [|t tasks IH]; csimpl; [done|].
  destruct (String.eqb (name t) dep); [done|]. apply IH.
Qed.

Lemma dfs_deps_without_empty tasks call call' deps s :
  (∀ t s, call' (without_empty t) s = call t s) →
  dfs_deps (without_empty <$> tasks) call' (List.filter truthy deps) s
  = dfs_deps tasks call deps s.
Proof.
  intros Hcall. revert s. induction deps as [|d deps IH]; intros s; simpl; [done|].
  destruct (truthy d) eqn:Hd; simpl; [|done]. rewrite Hd.
  rewrite find_task_without_empty.
  destruct (find_task tasks d) as [t| |]; simpl; [|done..].
  rewrite Hcall. repeat case_bool_decide; try done.
  destruct (call t s) as [[[] s']| |]; simpl; done.
Qed.

Lemma dfs_without_empty fuel tasks t s :
  dfs fuel (without_empty <$> tasks) (without_empty t) s = dfs fuel tasks t s.
Proof.
  revert t s. induction fuel as [|fuel IH]; intros t s; simpl; [done|].
  by rewrite (dfs_deps_without_empty _ (dfs fuel tasks)).
Qed.

Lemma detect_cycles_without_empty tasks :
  detect_cycles (without_empty <$> tasks) = detect_cycles tasks.
Proof.
  unfold detect_cycles. rewrite length_fmap.
  generalize (S (length tasks)) (mkDfs ∅ ∅). intros fuel.
  generalize tasks at 2 4. intros roots.
  induction roots as [|t roots IH]; intros s; csimpl; [done|].
  rewrite IH. case_bool_decide; [done|].
  rewrite dfs_without_empty.
  destruct (dfs fuel tasks t s) as [[[] s']| |]; simpl; done.
Qed.

Lemma max_dep_finish_filter ft deps acc :
  max_dep_finish ft (List.filter truthy deps) acc = max_dep_finish ft deps acc.
Proof.
  revert acc. induction deps as [|d deps IH]; intros acc; simpl; [done|].
  destruct (truthy d) eqn:Hd; simpl; [|done]. rewrite Hd.
  destruct (ft !! d); [apply IH | done].
Qed.

Lemma calculate_expected_runtime_without_empty tasks :
  calculate_expected_runtime (without_empty <$> tasks)
  = calculate_expected_runtime tasks.
Proof.
  unfold calculate_expected_runtime. f_equal.
  generalize (∅ : gmap string Z).
  induction tasks as [|t tasks IH]; intros ft; csimpl; [done|].
  rewrite max_dep_finish_filter.
  destruct (max_dep_finish ft (dependencies t) 0); simpl; [apply IH | done..].
Qed.

Lemma filter_truthy_idemp deps :
  List.filter truthy (List.filter truthy deps) = List.filter truthy deps.
Proof.
  induction deps as [|d deps IH]; simpl; [done|].
  destruct (truthy d) eqn:Hd; simpl; [|done]. by rewrite Hd, IH.
Qed.

Lemma ready_without_empty done t :
  ready done (without_empty t) = ready done t.
Proof. unfold ready. simpl. by rewrite filter_truthy_idemp. Qed.

Lemma filter_truthy_all_empty deps :
  (∀ d, d ∈ deps → d = "") → List.filter truthy deps = [].
Proof.
  induction deps as [|d deps IH]; simpl; [done|]. intros H.
  rewrite (H d) by left. simpl. apply IH. intros d' Hd'. apply H. by right.
Qed.

(** C10. The existence check, [detect_cycles],
    [calculate_expected_runtime] and the readiness test give the same
    result on a graph and on the graph without the empty entries of the
    dependency lists; a task all of whose entries are empty is, without
    them, a task with no dependency, and is ready in every state. *)
Theorem empty_dependencies_ignored tasks :
  check_dependencies (without_empty <$> tasks) = check_dependencies tasks
  ∧ detect_cycles (without_empty <$> tasks) = detect_cycles tasks
  ∧ calculate_expected_runtime (without_empty <$> tasks)
    = calculate_expected_runtime tasks
  ∧ (∀ done t, ready done (without_empty t) = ready done t)
  ∧ (∀ t, (∀ d, d ∈ dependencies t → d = "") →
       dependencies (without_empty t) = [] ∧ ∀ done, ready done t = true).
Proof.
  split_and!.
  - apply check_dependencies_without_empty.
  - apply detect_cycles_without_empty.
  - apply calculate_expected_runtime_without_empty.
  - apply ready_without_empty.
  - intros t Ht. split.
    + by apply filter_truthy_all_empty.
    + intros done. unfold ready. by rewrite filter_truthy_all_empty.
Qed.

Lemma empty_dependencies_ignored_witness :
  dependencies (without_empty (mkTask "A" 1 [""; ""] "resolve" ∅)) = []
  ∧ ∀ done, ready done (mkTask "A" 1 [""; ""] "resolve" ∅) = true.
Proof.
  destruct (empty_dependencies_ignored []) as (_ & _ & _ & _ & H).
  apply H. simpl. intros d Hd. set_unfold in Hd. naive_solver.
Defined.

Example parse_dependencies_empty : parse_dependencies "" = [].
Proof. reflexivity. Qed.

Example parse_dependencies_stray : parse_dependencies "A;" = ["A"; ""].
Proof. reflexivity. Qed.

Example parse_dependencies_only_separator : parse_dependencies ";" = [""; ""].
Proof. reflexivity. Qed.

(** * The dispatch loop *)

(** ** Traces *)


Lemma terminated_app tr1 tr2 :
  terminated (tr1 ++ tr2) = terminated tr1 ++ terminated tr2.
Proof.
  induction tr1 as [|[] tr1 IH]; simpl; by rewrite ?IH.
Qed.

Lemma elem_of_started n tr : n ∈ started tr ↔ Starting n ∈ tr.
Proof.
  induction tr as [|e tr IH]; simpl.
  - by rewrite !elem_of_nil.
  - destruct e; rewrite ?elem_of_cons, IH; naive_solver.
Qed.

Lemma elem_of_terminated n tr :
  n ∈ terminated tr ↔ Finished n ∈ tr ∨ ∃ f, Skipped n f ∈ tr.
Proof.
  induction tr as [|e tr IH]; simpl.
  - rewrite !elem_of_nil. split; [done|]. intros [[]|[f Hf]].
    by apply elem_of_nil in Hf.
  - destruct e; rewrite ?elem_of_cons, IH; setoid_rewrite elem_of_cons;
      naive_solver.
Qed.

Lemma orderly_split tasks later e earlier :
  orderly tasks (later ++ e :: earlier) →
  allowed tasks e earlier ∧ orderly tasks earlier.
Proof. induction later as [|e' later IH]; simpl; naive_solver. Qed.

Lemma orderly_started_NoDup tasks tr : orderly tasks tr → NoDup (started tr).
Proof.
  induction tr as [|e tr IH]; simpl; [constructor|].
  intros [Ha Ho]. destruct e; auto. destruct Ha as (? & _).
  constructor; auto.
Qed.

Lemma orderly_terminated_NoDup tasks tr :
  orderly tasks tr → NoDup (terminated tr).
Proof.
  induction tr as [|e tr IH]; simpl; [constructor|].
  intros [Ha Ho]. destruct e; auto.
  - destruct Ha as (_ & ?). constructor; auto.
  - destruct Ha as (_ & ? & _). constructor; auto.
Qed.

(** A skipped task is not submitted, neither before nor after. *)
Lemma orderly_skipped_not_started tasks tr n f :
  orderly tasks tr → Skipped n f ∈ tr → n ∉ started tr.
Proof.
  induction tr as [|e tr IH]; [by rewrite elem_of_nil|].
  intros [Ha Ho] [<-|Hin]%elem_of_cons; simpl in *.
  - by destruct Ha as (? & _).
  - destruct e; auto. destruct Ha as (? & Hnt & _).
    apply not_elem_of_cons. split; [|auto].
    intros ->. apply Hnt, elem_of_terminated. eauto.
Qed.



(** ** Dictionaries and the readiness test *)

Lemma dict_set_fresh {V} k (v : V) d :
  k ∉ d.*1 → dict_set k v d = d ++ [(k, v)].
Proof.
  induction d as [|[k' v'] d IH]; simpl; [done|].
  intros [Hne Hk]%not_elem_of_cons.
  destruct (String.eqb_spec k' k) as [->|_]; [done|]. by rewrite IH.
Qed.

Lemma dict_pop_present {V} k (d : list (string * V)) :
  NoDup d.*1 → k ∈ d.*1 →
  ∃ v d1 d2, d = d1 ++ (k, v) :: d2 ∧ dict_pop k d = Returns (v, d1 ++ d2).
Proof.
  induction d as [|[k' v'] d IH]; simpl; [by rewrite elem_of_nil|].
  intros [Hk' Hnd]%NoDup_cons Hk.
  destruct (String.eqb_spec k' k) as [->|Hne].
  - by exists v', [], d.
  - apply elem_of_cons in Hk as [->|Hk]; [done|].
    destruct (IH Hnd Hk) as (v & d1 & d2 & -> & ->).
    by exists v, ((k', v') :: d1), d2.
Qed.

Lemma ready_true done t :
  ready done t = true ↔ ∀ d, d ∈ dependencies t → d ≠ "" → d ∈ done.
Proof.
  unfold ready. rewrite forallb_forall. split.
  - intros H d Hd Hne. specialize (H d).
    rewrite bool_decide_eq_true in H. apply H.
    apply filter_In. split; [by apply list_elem_of_In | by apply truthy_true].
  - intros H d [Hd Ht]%filter_In. apply bool_decide_eq_true.
    apply H; [by apply list_elem_of_In | by apply truthy_true].
Qed.

Lemma sched_inv_initial tasks : sched_inv tasks initial_state.
Proof.
  split; simpl; try done; try constructor; try set_solver.
Qed.

Section invariant.
Variable tasks : list Task.
Hypothesis named : well_named tasks.

Lemma started_deps_completed st t d :
  sched_inv tasks st → t ∈ tasks → name t ∈ started (trace st) →
  d ∈ dependencies t → d ≠ "" → d ∈ completed st.
Proof.
  intros Hinv Ht Hs Hd Hne.
  apply elem_of_started, list_elem_of_split in Hs as (later & earlier & Htr).
  pose proof (inv_orderly _ _ Hinv) as Ho. rewrite Htr in Ho.
  apply orderly_split in Ho as [(_ & _ & Hdeps) _].
  rewrite (inv_completed _ _ Hinv), Htr, terminated_app.
  apply elem_of_list_to_set, elem_of_app. right. simpl. by eapply Hdeps.
Qed.

Lemma not_started st n :
  sched_inv tasks st → n ∉ completed st → n ∉ running st →
  n ∉ started (trace st).
Proof.
  intros Hinv Hc Hr Hs. apply Hr. rewrite (inv_running _ _ Hinv).
  apply elem_of_difference. split; [by apply elem_of_list_to_set | done].
Qed.

Lemma submit_inv st t :
  sched_inv tasks st → t ∈ tasks →
  name t ∉ completed st → name t ∉ running st →
  ready (completed st) t = true →
  sched_inv tasks (submit t st).
Proof.
  intros Hinv Ht Hc Hr Hready.
  pose proof (not_started _ _ Hinv Hc Hr) as Hs.
  destruct named as [Hnd _].
  assert (Hfresh : name t ∉ (futures st).*1).
  { intros Hin. apply Hr. rewrite <- (inv_futures _ _ Hinv).
    by apply elem_of_list_to_set. }
  destruct Hinv as [Ho Hcomp Hrun Hkeys Hfut Hft Hout Hskip Hknown].
  unfold submit. split; simpl.
  - split; [|done]. split_and!; [done | |].
    + rewrite Hcomp in Hc. by rewrite elem_of_list_to_set in Hc.
    + intros t' d Ht' Heq Hd Hne.
      assert (t' = t) as -> by (by apply (same_name tasks Hnd)).
      rewrite ready_true in Hready. specialize (Hready d Hd Hne).
      rewrite Hcomp in Hready. by rewrite elem_of_list_to_set in Hready.
  - done.
  - rewrite Hrun. set_solver.
  - rewrite dict_set_fresh by done. rewrite fmap_app. simpl.
    apply NoDup_app. split_and!; [done | | apply NoDup_singleton].
    intros k Hk ->%list_elem_of_singleton. done.
  - rewrite dict_set_fresh by done. rewrite fmap_app, list_to_set_app_L.
    simpl. rewrite Hfut. set_solver.
  - rewrite dict_set_fresh by done.
    intros n t' [Hin|Hin%list_elem_of_singleton]%elem_of_app; [eauto|].
    by injection Hin as -> ->.
  - done.
  - intros n f [Hin|Hin]%elem_of_cons; [done | by apply Hskip].
  - assert (name t ∈ task_names tasks).
    { apply elem_of_task_names. eauto. }
    set_solver.
Qed.

Lemma readiness_scan_inv todo st :
  (∀ t, t ∈ todo → t ∈ tasks) →
  sched_inv tasks st → sched_inv tasks (readiness_scan todo st).
Proof.
  revert st. induction todo as [|t todo IH]; intros st Htodo Hinv; simpl;
    [done|].
  assert (Htodo' : ∀ t', t' ∈ todo → t' ∈ tasks).
  { intros t' Ht'. apply Htodo. by right. }
  destruct (negb _ && negb _ && ready _ _) eqn:Hcond; [|by apply IH].
  apply andb_true_iff in Hcond as [[Hc Hr]%andb_true_iff Hready].
  apply negb_true_iff, bool_decide_eq_false in Hc, Hr.
  apply IH; [done|]. apply submit_inv; try done. apply Htodo. left.
Qed.

Lemma skip_inv st t f :
  sched_inv tasks st → t ∈ tasks → f ∈ dependencies t →
  name t ∉ completed st → name t ∉ started (trace st) →
  (∃ o, Error f o ∈ trace st) →
  sched_inv tasks (skip t f st).
Proof.
  intros Hinv Ht Hf Hc Hs Herr.
  destruct Hinv as [Ho Hcomp Hrun Hkeys Hfut Hft Hout Hskip Hknown].
  unfold skip. split; simpl.
  - split; [|done]. split_and!; [done | | done | by exists t].
    rewrite Hcomp in Hc. by rewrite elem_of_list_to_set in Hc.
  - rewrite Hcomp. done.
  - rewrite Hrun. apply set_eq. intros x.
    rewrite !elem_of_difference, !elem_of_union, !elem_of_list_to_set,
      elem_of_singleton.
    split; [|naive_solver]. intros [Hx Hnc]. split; [done|].
    intros [->|?]; done.
  - done.
  - done.
  - done.
  - rewrite dom_insert_L, Hout. done.
  - intros n f' [Hin|Hin]%elem_of_cons.
    + injection Hin as -> ->. by rewrite lookup_insert_eq.
    + rewrite lookup_insert_ne; [by apply Hskip|].
      intros <-. apply Hc. rewrite Hcomp.
      apply elem_of_list_to_set, elem_of_terminated. eauto.
  - assert (name t ∈ task_names tasks).
    { apply elem_of_task_names. eauto. }
    set_solver.
Qed.

Lemma skip_dependents_trace f todo st :
  started (trace (skip_dependents f todo st)) = started (trace st)
  ∧ (∀ e, e ∈ trace st → e ∈ trace (skip_dependents f todo st)).
Proof.
  revert st. induction todo as [|t todo IH]; intros st; simpl; [done|].
  destruct (_ && _); [|apply IH].
  destruct (IH (skip t f st)) as [-> Hsub]. split; [done|].
  intros e He. apply Hsub. by right.
Qed.

Lemma skip_dependents_inv f todo st :
  (∀ t, t ∈ todo → t ∈ tasks) →
  sched_inv tasks st →
  (∃ o, Error f o ∈ trace st) →
  (∀ t, t ∈ tasks → f ∈ dependencies t → name t ∉ started (trace st)) →
  sched_inv tasks (skip_dependents f todo st).
Proof.
  revert st. induction todo as [|t todo IH];
    intros st Htodo Hinv Herr Hns; simpl; [done|].
  assert (Htodo' : ∀ t', t' ∈ todo → t' ∈ tasks).
  { intros t' Ht'. apply Htodo. by right. }
  destruct (_ && _) eqn:Hcond; [|by apply IH].
  apply andb_true_iff in Hcond as [Hf Hc].
  apply bool_decide_eq_true in Hf.
  apply negb_true_iff, bool_decide_eq_false in Hc.
  assert (Ht : t ∈ tasks) by (apply Htodo; left).
  apply IH; [done | | |].
  - apply skip_inv; auto.
  - destruct Herr as [o Ho]. exists o. by right.
  - done.
Qed.
End invariant.

(** [complete], case by case. *)
Lemma complete_unfold tasks finished x st :
  NoDup (futures st).*1 → finished ∈ (futures st).*1 →
  finished ∈ running st →
  ∃ task d1 d2,
    futures st = d1 ++ (finished, task) :: d2
    ∧ complete tasks finished x st =
      match execute_task task x with
      | Returns (success, output, seconds) =>
          let st1 := finished_state finished output seconds (d1 ++ d2) st in
          if success then Returns st1
          else Returns (skip_dependents finished tasks
                          (failed_state finished output st1))
      | Raises e => Raises e
      | OutOfFuel => OutOfFuel
      end.
Proof.
  intros Hnd Hin Hrun.
  destruct (dict_pop_present finished (futures st) Hnd Hin)
    as (task & d1 & d2 & Hf & Hpop).
  exists task, d1, d2. split; [done|].
  unfold complete. rewrite Hpop. simpl.
  destruct (execute_task task x) as [[[success output] seconds]| |]; simpl;
    [|done..].
  unfold set_remove. rewrite bool_decide_eq_true_2 by done. simpl.
  by destruct success.
Qed.


Lemma skip_dependents_frame f todo st :
  running (skip_dependents f todo st) = running st
  ∧ futures (skip_dependents f todo st) = futures st
  ∧ completed st ⊆ completed (skip_dependents f todo st)
  ∧ ∀ n, (∀ t, t ∈ todo → name t = n → f ∉ dependencies t) →
         (n ∈ completed (skip_dependents f todo st) ↔ n ∈ completed st)
         ∧ outputs (skip_dependents f todo st) !! n = outputs st !! n
         ∧ ∀ g, Skipped n g ∈ trace (skip_dependents f todo st) ↔
                Skipped n g ∈ trace st.
Proof.
  revert st. induction todo as [|t todo IH]; intros st; simpl.
  { split_and!; try done. }
  destruct (IH st) as (Hr1 & Hf1 & Hc1 & Hn1).
  destruct (IH (skip t f st)) as (Hr2 & Hf2 & Hc2 & Hn2).
  destruct (_ && _) eqn:Hcond.
  - apply andb_true_iff in Hcond as [Hf%bool_decide_eq_true _].
    split_and!; try done.
    + etrans; [|apply Hc2]. simpl. set_solver.
    + intros n Hn.
      assert (n ≠ name t) as Hne.
      { intros ->. eapply Hn; [left | done..]. }
      destruct (Hn2 n) as (Hc & Ho & Hs).
      { intros t' Ht'. apply Hn. by right. }
      split_and!.
      * rewrite Hc. simpl. set_solver.
      * rewrite Ho. simpl. by rewrite lookup_insert_ne.
      * intros g. rewrite Hs. simpl. rewrite elem_of_cons.
        split; [|auto]. intros [[= ? ?]|?]; [congruence | done].
  - split_and!; try done. intros n Hn. apply Hn1.
    intros t' Ht'. apply Hn. by right.
Qed.

Section invariant.
Variable tasks : list Task.
Hypothesis named : well_named tasks.

Lemma running_key st n :
  sched_inv tasks st → n ∈ (futures st).*1 →
  n ∈ running st ∧ (n ∉ completed st) ∧ n ∈ started (trace st) ∧ n ≠ ""
  ∧ ∃ t, (n, t) ∈ futures st ∧ t ∈ tasks ∧ name t = n.
Proof.
  intros Hinv Hin.
  assert (n ∈ running st) as Hr.
  { rewrite <- (inv_futures _ _ Hinv). by apply elem_of_list_to_set. }
  pose proof Hr as Hr'. rewrite (inv_running _ _ Hinv) in Hr'.
  apply elem_of_difference in Hr' as [Hs%elem_of_list_to_set Hc].
  apply list_elem_of_fmap in Hin as ([k t] & -> & Hin). simpl in *.
  destruct (inv_future_task _ _ Hinv _ _ Hin) as [Ht Hn].
  split_and!; try done.
  - rewrite <- Hn. by apply named.
  - by exists t.
Qed.

(** A task that lists a running task is not submitted. *)
Lemma dependent_not_started st finished t :
  sched_inv tasks st → finished ∈ (futures st).*1 →
  t ∈ tasks → finished ∈ dependencies t → name t ∉ started (trace st).
Proof.
  intros Hinv Hin Ht Hf Hs.
  destruct (running_key _ _ Hinv Hin) as (_ & Hc & _ & Hne & _).
  apply Hc. by eapply started_deps_completed.
Qed.

Lemma finished_state_inv st finished task d1 d2 output seconds :
  sched_inv tasks st →
  futures st = d1 ++ (finished, task) :: d2 →
  sched_inv tasks (finished_state finished output seconds (d1 ++ d2) st).
Proof.
  intros Hinv Hf.
  assert (finished ∈ (futures st).*1) as Hin.
  { rewrite Hf, fmap_app. apply elem_of_app. right. left. }
  destruct (running_key _ _ Hinv Hin) as (Hr & Hc & Hs & _ & _).
  destruct Hinv as [Ho Hcomp Hrun Hkeys Hfut Hft Hout Hskip Hknown].
  rewrite Hf, fmap_app in Hkeys. simpl in Hkeys.
  apply NoDup_app in Hkeys as (Hk1 & Hk12 & [Hk2 Hk3]%NoDup_cons).
  unfold finished_state. split; simpl.
  - split; [|done]. split; [done|].
    rewrite Hcomp in Hc. by rewrite elem_of_list_to_set in Hc.
  - by rewrite Hcomp.
  - rewrite Hrun. set_solver.
  - rewrite fmap_app. apply NoDup_app. split_and!; [done | | done].
    intros k Hk1' Hk2'. eapply Hk12; [done|]. by right.
  - rewrite <- Hfut, Hf, !fmap_app, !list_to_set_app_L. simpl.
    apply set_eq. intros k.
    rewrite !elem_of_difference, !elem_of_union, !elem_of_list_to_set,
      elem_of_singleton.
    split.
    + intros [Hk|Hk]; (split; [auto|]); intros ->; [|done].
      eapply Hk12; [done | left].
    + intros [[Hk|[->|Hk]] Hne]; auto. done.
  - intros n t Hin'. apply Hft. rewrite Hf.
    apply elem_of_app in Hin' as [?|?]; apply elem_of_app; auto.
    right. by right.
  - by rewrite dom_insert_L, Hout.
  - intros n f [Hin'|Hin']%elem_of_cons; [done|].
    rewrite lookup_insert_ne; [by apply Hskip|].
    intros <-. apply Hc. rewrite Hcomp.
    apply elem_of_list_to_set, elem_of_terminated. eauto.
  - assert (finished ∈ task_names tasks); [|set_solver].
    apply Hknown. apply elem_of_union. left. by apply elem_of_list_to_set.
Qed.

Lemma failed_state_inv st finished output :
  sched_inv tasks st →
  (∃ rest, trace st = Finished finished :: rest) →
  sched_inv tasks (failed_state finished output st).
Proof.
  intros [Ho Hcomp Hrun Hkeys Hfut Hft Hout Hskip Hknown] Hhead.
  unfold failed_state. split; simpl; try done.
  intros n f [Hin|Hin]%elem_of_cons; [done | by apply Hskip].
Qed.

Lemma complete_inv st finished x st' :
  sched_inv tasks st → finished ∈ (futures st).*1 →
  complete tasks finished x st = Returns st' →
  sched_inv tasks st'.
Proof.
  intros Hinv Hin Hc.
  destruct (running_key _ _ Hinv Hin) as (Hr & _).
  destruct (complete_unfold tasks finished x st (inv_keys _ _ Hinv) Hin Hr)
    as (task & d1 & d2 & Hf & Heq).
  rewrite Heq in Hc. clear Heq.
  destruct (execute_task task x) as [[[success output] seconds]| |];
    [|done..].
  pose proof (finished_state_inv st finished task d1 d2 output seconds
                Hinv Hf) as Hinv1.
  simpl in Hc. destruct success; injection Hc as <-; [done|].
  apply skip_dependents_inv; [done | done | | |].
  - by apply failed_state_inv; [|eexists].
  - exists output. left.
  - simpl. intros t Ht Hdep. by eapply dependent_not_started.
Qed.

Lemma reachable_inv st : reachable tasks st → sched_inv tasks st.
Proof.
  induction 1 as [|st _ IH|st finished x st' _ IH Hin Hc].
  - apply sched_inv_initial.
  - by apply readiness_scan_inv.
  - by eapply complete_inv.
Qed.
End invariant.

(** ** The readiness scan *)

Lemma readiness_scan_frame todo st :
  completed (readiness_scan todo st) = completed st
  ∧ outputs (readiness_scan todo st) = outputs st
  ∧ running st ⊆ running (readiness_scan todo st)
  ∧ ∀ e, e ∈ trace st → e ∈ trace (readiness_scan todo st).
Proof.
  revert st. induction todo as [|t todo IH]; intros st; simpl; [done|].
  destruct (_ && _); [|apply IH].
  destruct (IH (submit t st)) as (-> & -> & Hr & Htr). simpl.
  split_and!; [done | done | set_solver |].
  intros e He. apply Htr. by right.
Qed.

(** The scan submits every task that is pending and ready. *)
Lemma readiness_scan_submits todo st t :
  t ∈ todo → name t ∉ completed st → name t ∉ running st →
  ready (completed st) t = true →
  Starting (name t) ∈ trace (readiness_scan todo st)
  ∧ name t ∈ running (readiness_scan todo st).
Proof.
  revert st. induction todo as [|t' todo IH]; intros st Ht Hc Hr Hready; simpl.
  { by apply elem_of_nil in Ht. }
  assert (Hsub : ∀ st0, name t ∈ running st0 → Starting (name t) ∈ trace st0 →
            Starting (name t) ∈ trace (readiness_scan todo st0)
            ∧ name t ∈ running (readiness_scan todo st0)).
  { intros st0 H1 H2.
    destruct (readiness_scan_frame todo st0) as (_ & _ & Hr0 & Htr0). auto. }
  apply elem_of_cons in Ht as [<-|Ht].
  - rewrite !bool_decide_eq_false_2, Hready by done. simpl.
    apply Hsub; simpl; [set_solver | left].
  - destruct (_ && _) eqn:Hcond; [|by apply IH].
    destruct (decide (name t = name t')) as [Heq|Hne].
    + apply Hsub; simpl; rewrite Heq; [set_solver | left].
    + apply IH; try done. simpl. set_solver.
Qed.

(** The scan submits only tasks that are pending and ready. *)
Lemma readiness_scan_only_ready todo st n :
  n ∈ running (readiness_scan todo st) → n ∉ running st →
  ∃ t, t ∈ todo ∧ name t = n ∧ (n ∉ completed st)
       ∧ ready (completed st) t = true.
Proof.
  revert st. induction todo as [|t todo IH]; intros st Hin Hout; simpl in *.
  { done. }
  destruct (_ && _) eqn:Hcond.
  - apply andb_true_iff in Hcond as [[Hc Hr]%andb_true_iff Hready].
    apply negb_true_iff, bool_decide_eq_false in Hc, Hr.
    destruct (decide (n = name t)) as [->|Hne].
    + exists t. split; [left | done].
    + destruct (IH (submit t st) Hin) as (t' & ? & ? & ? & ?).
      { simpl. set_solver. }
      exists t'. split; [by right | done].
  - destruct (IH st Hin Hout) as (t' & ? & ?).
    exists t'. split; [by right | done].
Qed.

(** ** The loop stays within the reachable states *)

Lemma done_futures_keys p fs n x :
  (n, x) ∈ done_futures p fs → n ∈ fs.*1.
Proof.
  induction fs as [|[k t] fs IH]; simpl; [by rewrite elem_of_nil|].
  destruct (p k) as [y|].
  - intros [[= -> ->]|Hin]%elem_of_cons; [left | right; auto].
  - intros Hin. right. auto.
Qed.

Lemma done_futures_NoDup p fs : NoDup fs.*1 → NoDup (done_futures p fs).*1.
Proof.
  induction fs as [|[k t] fs IH]; simpl; [constructor|].
  intros [Hk Hnd]%NoDup_cons. destruct (p k) as [x|]; simpl; [|auto].
  constructor; [|auto].
  intros ([k' x'] & -> & Hin)%list_elem_of_fmap. simpl in Hk.
  apply Hk. by eapply done_futures_keys.
Qed.

Lemma complete_keys tasks st finished x st' :
  sched_inv tasks st → well_named tasks → finished ∈ (futures st).*1 →
  complete tasks finished x st = Returns st' →
  ∀ k, k ∈ (futures st).*1 → k ≠ finished → k ∈ (futures st').*1.
Proof.
  intros Hinv Hwn Hin Hc k Hk Hne.
  destruct (running_key tasks Hwn _ _ Hinv Hin) as (Hr & _).
  destruct (complete_unfold tasks finished x st (inv_keys _ _ Hinv) Hin Hr)
    as (task & d1 & d2 & Hf & Heq).
  rewrite Heq in Hc.
  destruct (execute_task task x) as [[[success output] seconds]| |]; [|done..].
  assert (k ∈ (d1 ++ d2).*1) as Hk'.
  { rewrite Hf in Hk. rewrite fmap_app in *. simpl in Hk. set_solver. }
  simpl in Hc. destruct success; injection Hc as <-; [done|].
  destruct (skip_dependents_frame finished tasks
              (failed_state finished output
                 (finished_state finished output seconds (d1 ++ d2) st)))
    as (_ & -> & _). done.
Qed.

Lemma completion_scan_reachable tasks done st st' :
  well_named tasks → reachable tasks st →
  NoDup done.*1 → (∀ n, n ∈ done.*1 → n ∈ (futures st).*1) →
  completion_scan tasks done st = Returns st' → reachable tasks st'.
Proof.
  intros Hwn. revert st. induction done as [|[n x] done IH];
    intros st Hreach Hnd Hkeys Hc; simpl in *.
  { by injection Hc as <-. }
  apply NoDup_cons in Hnd as [Hn Hnd].
  destruct (complete tasks n x st) as [st1| |] eqn:Hcomp; [|done..].
  simpl in Hc.
  assert (n ∈ (futures st).*1) as Hin by (apply Hkeys; left).
  apply (IH st1); try done.
  - by eapply reachable_complete.
  - intros k Hk. eapply complete_keys; try done.
    + by apply reachable_inv.
    + apply Hkeys. by right.
    + by intros ->.
Qed.

Lemma iteration_reachable tasks p st st' :
  well_named tasks → reachable tasks st →
  iteration tasks p st = Returns st' → reachable tasks st'.
Proof.
  intros Hwn Hreach Hit. unfold iteration in Hit.
  eapply completion_scan_reachable; [done | | | | done].
  - by apply reachable_scan.
  - apply done_futures_NoDup. eapply inv_keys, reachable_inv; [done|].
    by apply reachable_scan.
  - intros n ([k x] & -> & Hin)%list_elem_of_fmap.
    by eapply done_futures_keys.
Qed.

Lemma dispatch_loop_reachable tasks fuel polls turn st st' :
  well_named tasks → reachable tasks st →
  dispatch_loop fuel tasks polls turn st = Returns st' →
  reachable tasks st' ∧ unfinished tasks st' = false.
Proof.
  intros Hwn. revert turn st. induction fuel as [|fuel IH];
    intros turn st Hreach Hloop; simpl in Hloop.
  - destruct (unfinished tasks st) eqn:Hu; [done|]. by injection Hloop as <-.
  - destruct (unfinished tasks st) eqn:Hu; [|by injection Hloop as <-].
    destruct (iteration tasks (polls turn) st) as [st1| |] eqn:Hit; [|done..].
    simpl in Hloop. eapply IH; [|done]. by eapply iteration_reachable.
Qed.

Lemma well_named_check tasks :
  bool_decide (NoDup (name <$> tasks)) && forallb (λ t, truthy (name t)) tasks
  = true →
  well_named tasks.
Proof.
  intros [Hnd%bool_decide_eq_true Hne]%andb_true_iff. split; [done|].
  intros t Ht. apply truthy_true. rewrite forallb_forall in Hne.
  by apply Hne, list_elem_of_In.
Qed.

(** C2. In every reachable state, each line [Starting n] of the trace
    comes after a terminal line ([Finished] or [Skipped]) of every
    non-empty dependency of the task [n]; and a task that a readiness
    scan submits has all its non-empty dependencies in [completed]. *)
Theorem started_after_dependencies tasks st :
  well_named tasks → reachable tasks st →
  (∀ later n earlier t d,
     trace st = later ++ Starting n :: earlier →
     t ∈ tasks → name t = n → d ∈ dependencies t → d ≠ "" →
     d ∈ terminated earlier)
  ∧ (∀ t, t ∈ tasks → name t ∉ running st →
       name t ∈ running (readiness_scan tasks st) →
       ∀ d, d ∈ dependencies t → d ≠ "" → d ∈ completed st).
Proof.
  intros Hwn Hreach. pose proof (reachable_inv tasks Hwn st Hreach) as Hinv.
  split.
  - intros later n earlier t d Htr Ht Hn Hd Hne.
    pose proof (inv_orderly _ _ Hinv) as Ho. rewrite Htr in Ho.
    apply orderly_split in Ho as [(_ & _ & Hdeps) _]. by eapply Hdeps.
  - intros t Ht Hnr Hr.
    destruct (readiness_scan_only_ready tasks st (name t) Hr Hnr)
      as (t' & Ht' & Heq & _ & Hready).
    assert (t' = t) as ->.
    { destruct Hwn as [Hnd _]. by apply (same_name tasks Hnd). }
    by apply ready_true.
Qed.

Lemma pipeline_named : well_named pipeline.
Proof. by apply well_named_check. Qed.

Lemma pipeline_started_reachable : reachable pipeline pipeline_started.
Proof. apply reachable_scan, reachable_initial. Qed.

Lemma pipeline_complete :
  complete pipeline "A" failing pipeline_started = Returns pipeline_failed.
Proof. by vm_compute. Qed.

Lemma pipeline_failed_reachable : reachable pipeline pipeline_failed.
Proof.
  eapply reachable_complete;
    [apply pipeline_started_reachable | | apply pipeline_complete].
  vm_compute. left.
Qed.

Lemma started_after_dependencies_witness :
  "B" ∈ terminated (trace pipeline_failed).
Proof.
  destruct (started_after_dependencies pipeline
              (readiness_scan pipeline pipeline_failed)) as [H _].
  - exact pipeline_named.
  - apply reachable_scan, pipeline_failed_reachable.
  - apply (H [] "C" (trace pipeline_failed)
             (mkTask "C" 1 ["B"] "resolve" {[ "fqdn" := "c.example" ]}) "B").
    + by vm_compute.
    + right. right. left.
    + reflexivity.
    + left.
    + done.
Defined.


Example pipeline_failed_trace :
  trace pipeline_failed =
    [Skipped "B" "A"; Error "A" "connection timed out"; Finished "A";
     Starting "A"]
  ∧ trace (readiness_scan pipeline pipeline_failed) =
    Starting "C" :: trace pipeline_failed.
Proof. by vm_compute. Qed.




(** C6. The worker of the resolve task without [fqdn] raises
    [KeyError]; [result()] raises it again in the loop, which ends with
    the task submitted and never terminal: [run_mode] raises instead of
    returning a final state. *)
Theorem run_mode_aborts x fuel :
  check_dependencies [no_fqdn] = None
  ∧ detect_cycles [no_fqdn] = Returns None
  ∧ trace (readiness_scan [no_fqdn] initial_state) = [Starting "A"]
  ∧ dispatch_loop (S fuel) [no_fqdn] (λ _ _, Some x) 0 initial_state
    = Raises (KeyError "fqdn")
  ∧ run_mode (S fuel) [no_fqdn] (λ _ _, Some x) = Raises (KeyError "fqdn").
Proof. split_and!; reflexivity. Qed.

Lemma size_task_names_NoDup tasks :
  NoDup (name <$> tasks) → size (task_names tasks) = length tasks.
Proof.
  intros Hnd. unfold task_names. by rewrite size_list_to_set, length_fmap.
Qed.

(** When the loop condition is false every task is in [completed]. *)
Lemma finished_all_completed tasks st :
  well_named tasks → sched_inv tasks st → unfinished tasks st = false →
  completed st = task_names tasks.
Proof.
  intros [Hnd _] Hinv Hu. unfold unfinished in Hu.
  apply Nat.ltb_ge in Hu. rewrite <- (size_task_names_NoDup _ Hnd) in Hu.
  apply set_subseteq_size_eq; [|done].
  pose proof (inv_known _ _ Hinv). set_solver.
Qed.

(** What holds of every state of the loop, whatever the workers do. *)
Lemma dispatch_safe tasks st :
  well_named tasks → reachable tasks st →
  NoDup (started (trace st))
  ∧ NoDup (terminated (trace st))
  ∧ (∀ n, n ∈ completed st ↔ n ∈ terminated (trace st))
  ∧ (∀ n, n ∈ completed st ↔ is_Some (outputs st !! n))
  ∧ (∀ n, n ∈ running st ↔ n ∈ started (trace st) ∧ n ∉ terminated (trace st))
  ∧ (unfinished tasks st = false → ∀ t, t ∈ tasks → name t ∈ completed st).
Proof.
  intros Hwn Hreach. pose proof (reachable_inv tasks Hwn st Hreach) as Hinv.
  pose proof (inv_orderly _ _ Hinv) as Ho.
  assert (Hct : ∀ n, n ∈ completed st ↔ n ∈ terminated (trace st)).
  { intros n. rewrite (inv_completed _ _ Hinv). apply elem_of_list_to_set. }
  split_and!.
  - by eapply orderly_started_NoDup.
  - by eapply orderly_terminated_NoDup.
  - done.
  - intros n. rewrite <- (inv_outputs _ _ Hinv). by rewrite elem_of_dom.
  - intros n. rewrite (inv_running _ _ Hinv), elem_of_difference, Hct.
    by rewrite elem_of_list_to_set.
  - intros Hu t Ht. rewrite (finished_all_completed tasks st) by done.
    apply elem_of_task_names. eauto.
Qed.

(** ** The loop ends when the workers report back *)

Lemma depends_on_sn tasks n : ¬ cyclic tasks → sn (depends_on tasks) n.
Proof.
  intros Hac. apply tc_finite_sn.
  - intros x Hx. apply Hac. by exists x.
  - exists (mjoin (dependencies <$> tasks)). intros y Hy.
    assert (∃ z, depends_on tasks z y) as (z & t & Ht & _ & Hd & _).
    { clear Hac. induction Hy as [x y H|x y z _ _ IH]; eauto. }
    apply list_elem_of_join. exists (dependencies t). split; [done|].
    by apply list_elem_of_fmap_2.
Qed.

Lemma forallb_false {A} (f : A → bool) l :
  forallb f l = false → ∃ x, x ∈ l ∧ f x = false.
Proof.
  induction l as [|a l IH]; simpl; [done|].
  destruct (f a) eqn:Hfa; simpl.
  - intros (x & ? & ?)%IH. exists x. split; [by right | done].
  - intros _. exists a. split; [left | done].
Qed.

Lemma ready_false done t :
  ready done t = false → ∃ d, d ∈ dependencies t ∧ d ≠ "" ∧ d ∉ done.
Proof.
  unfold ready. intros (d & Hd & Hf)%forallb_false.
  apply list_elem_of_In, filter_In in Hd as [Hd Ht].
  exists d. split_and!.
  - by apply list_elem_of_In.
  - by apply truthy_true.
  - by apply bool_decide_eq_false in Hf.
Qed.

(** After a scan no pending task is ready. *)
Lemma pending_after_scan tasks st t :
  t ∈ tasks →
  name t ∉ completed (readiness_scan tasks st) →
  name t ∉ running (readiness_scan tasks st) →
  ready (completed st) t = false.
Proof.
  intros Ht Hc Hr. destruct (ready (completed st) t) eqn:Hready; [|done].
  destruct (readiness_scan_frame tasks st) as (Hcs & _ & Hrs & _).
  destruct (readiness_scan_submits tasks st t) as [_ Hin]; try done.
  - by rewrite <- Hcs.
  - intros Hin. by apply Hr, Hrs.
Qed.

(** After a scan a task is terminal, or some task is running. *)
Lemma scan_runs_something tasks st n :
  ¬ dangling tasks → ¬ cyclic tasks →
  n ∈ task_names tasks →
  n ∈ completed (readiness_scan tasks st)
  ∨ ∃ m, m ∈ running (readiness_scan tasks st).
Proof.
  intros Hk Hac. induction (depends_on_sn tasks n Hac) as [n _ IH].
  intros (t & Ht & <-)%elem_of_task_names.
  destruct (decide (name t ∈ completed (readiness_scan tasks st))) as [|Hc];
    [by left|].
  destruct (decide (name t ∈ running (readiness_scan tasks st))) as [|Hr];
    [right; eauto|].
  destruct (ready_false _ _ (pending_after_scan tasks st t Ht Hc Hr))
    as (d & Hd & Hne & Hnd).
  assert (d ∈ task_names tasks) as Hdn.
  { destruct (decide (d ∈ task_names tasks)) as [|Hn]; [done|].
    exfalso. apply Hk. by exists t, d. }
  destruct (IH d) as [Hdc|?]; [by exists t | done | | by right].
  destruct (readiness_scan_frame tasks st) as (Hcs & _). by rewrite Hcs in Hdc.
Qed.

Lemma execute_task_returns task x :
  (∃ command, build_command task = Returns command) →
  ∃ success output, execute_task task x = Returns (success, output, elapsed x).
Proof.
  intros [command Hc]. rewrite (execute_task_command _ _ _ Hc).
  match goal with |- ∃ _ _, Returns (?p, _) = _ => destruct p as [s o] end.
  by exists s, o.
Qed.

Section liveness.
Variable tasks : list Task.
Hypothesis named : well_named tasks.
Hypothesis runs : executable tasks.

Lemma complete_returns st finished x :
  sched_inv tasks st → finished ∈ (futures st).*1 →
  ∃ st', complete tasks finished x st = Returns st'
         ∧ finished ∈ completed st' ∧ completed st ⊆ completed st'.
Proof.
  intros Hinv Hin.
  destruct (running_key tasks named _ _ Hinv Hin) as (Hr & _).
  destruct (complete_unfold tasks finished x st (inv_keys _ _ Hinv) Hin Hr)
    as (task & d1 & d2 & Hf & ->).
  assert (task ∈ tasks) as Ht.
  { eapply (inv_future_task _ _ Hinv finished). rewrite Hf.
    apply elem_of_app. right. left. }
  destruct (execute_task_returns task x (runs _ Ht))
    as (success & output & ->).
  destruct success; simpl; eexists; (split; [done|]).
  - simpl. set_solver.
  - destruct (skip_dependents_frame finished tasks
                (failed_state finished output
                   (finished_state finished output (elapsed x) (d1 ++ d2) st)))
      as (_ & _ & Hsub & _).
    simpl in Hsub. set_solver.
Qed.

Lemma completion_scan_returns done st :
  sched_inv tasks st →
  NoDup done.*1 → (∀ n, n ∈ done.*1 → n ∈ (futures st).*1) →
  ∃ st', completion_scan tasks done st = Returns st'
         ∧ completed st ⊆ completed st'
         ∧ ∀ n, n ∈ done.*1 → n ∈ completed st'.
Proof.
  revert st. induction done as [|[n x] done IH];
    intros st Hinv Hnd Hkeys; simpl in *.
  { exists st. split_and!; [done..|]. intros n Hn. by apply elem_of_nil in Hn. }
  apply NoDup_cons in Hnd as [Hn Hnd].
  assert (n ∈ (futures st).*1) as Hin by (apply Hkeys; left).
  destruct (complete_returns st n x Hinv Hin) as (st1 & Hc & Hn1 & Hsub1).
  rewrite Hc. simpl.
  destruct (IH st1) as (st' & -> & Hsub & Hall); [| done | |].
  - by eapply complete_inv.
  - intros k Hk. eapply complete_keys; try done.
    + apply Hkeys. by right.
    + by intros ->.
  - exists st'. split_and!; [done | set_solver |].
    intros k [->|Hk]%elem_of_cons; auto.
Qed.

Lemma done_futures_found p fs n x :
  n ∈ fs.*1 → p n = Some x → (n, x) ∈ done_futures p fs.
Proof.
  intros Hin Hp. induction fs as [|[k t] fs IH]; simpl in *.
  { by apply elem_of_nil in Hin. }
  destruct (decide (k = n)) as [->|Hne].
  - rewrite Hp. left.
  - apply elem_of_cons in Hin as [?|Hin]; [done|].
    destruct (p k); [right|]; auto.
Qed.

(** One turn of the loop returns; no terminal task is lost, and a
    running task whose worker has finished becomes terminal. *)
Lemma iteration_returns p st :
  reachable tasks st →
  ∃ st', iteration tasks p st = Returns st'
         ∧ completed st ⊆ completed st'
         ∧ (∀ n, n ∈ running (readiness_scan tasks st) → is_Some (p n) →
                 n ∈ completed st')
         ∧ (done_futures p (futures (readiness_scan tasks st)) = [] →
            st' = readiness_scan tasks st).
Proof.
  intros Hreach. unfold iteration.
  assert (sched_inv tasks (readiness_scan tasks st)) as Hinv.
  { apply reachable_inv; [done|]. by apply reachable_scan. }
  destruct (readiness_scan_frame tasks st) as (Hcs & _).
  destruct (completion_scan_returns
              (done_futures p (futures (readiness_scan tasks st)))
              (readiness_scan tasks st)) as (st' & Hc & Hsub & Hall).
  - done.
  - apply done_futures_NoDup, (inv_keys _ _ Hinv).
  - intros n ([k x] & -> & Hin)%list_elem_of_fmap.
    by eapply done_futures_keys.
  - exists st'. split_and!; [done | by rewrite <- Hcs | |].
    + intros n Hn [x Hx]. apply Hall.
      apply list_elem_of_fmap. exists (n, x). split; [done|].
      apply done_futures_found; [|done].
      rewrite <- (inv_futures _ _ Hinv) in Hn.
      by apply elem_of_list_to_set in Hn.
    + intros Hnil. rewrite Hnil in Hc. simpl in Hc. by injection Hc.
Qed.

Hypothesis known : ¬ dangling tasks.
Hypothesis acyclic : ¬ cyclic tasks.
Variable polls : nat → pool.
Hypothesis fairness : fair polls.

(** While the loop condition holds, a scan leaves a task running. *)
Lemma unfinished_runs st :
  sched_inv tasks st → unfinished tasks st = true →
  ∃ m, m ∈ running (readiness_scan tasks st).
Proof.
  intros Hinv Hu. unfold unfinished in Hu. apply Nat.ltb_lt in Hu.
  destruct named as [Hnd _].
  rewrite <- (size_task_names_NoDup _ Hnd) in Hu.
  assert (∃ n, n ∈ task_names tasks ∖ completed st) as [n Hn].
  { apply size_pos_elem_of.
    pose proof (size_union_alt (completed st) (task_names tasks)) as Hsz.
    assert (size (task_names tasks) ≤ size (completed st ∪ task_names tasks))%nat.
    { apply subseteq_size. set_solver. }
    lia. }
  apply elem_of_difference in Hn as [Hn Hc].
  destruct (scan_runs_something tasks st n known acyclic Hn) as [Hc'|?];
    [|done].
  destruct (readiness_scan_frame tasks st) as (Hcs & _).
  by rewrite Hcs in Hc'.
Qed.

(** The turns that wait for the worker of [n]: [budget] bounds the
    number of tasks that are not terminal. *)
Lemma dispatch_loop_waits budget n :
  (∀ turn st, reachable tasks st →
     (length tasks - size (completed st) ≤ budget)%nat →
     ∃ fuel st', dispatch_loop fuel tasks polls turn st = Returns st') →
  ∀ wait turn st,
    reachable tasks st → unfinished tasks st = true →
    (length tasks - size (completed st) ≤ S budget)%nat →
    n ∈ running (readiness_scan tasks st) →
    is_Some (polls (turn + wait)%nat n) →
    ∃ fuel st', dispatch_loop fuel tasks polls turn st = Returns st'.
Proof.
  intros Hless wait. induction wait as [|wait IH];
    intros turn st Hreach Hu Hsize Hn Hdone.
  - destruct (iteration_returns (polls turn) st Hreach)
      as (st1 & Hit & Hsub & Hfin & _).
    rewrite Nat.add_0_r in Hdone.
    assert (n ∈ completed st1) as Hn1 by auto.
    assert (n ∉ completed st) as Hn0.
    { destruct (readiness_scan_frame tasks st) as (Hcs & _).
      rewrite <- Hcs.
      assert (sched_inv tasks (readiness_scan tasks st)) as Hinv.
      { apply reachable_inv; [done|]. by apply reachable_scan. }
      rewrite (inv_running _ _ Hinv) in Hn. set_solver. }
    assert (size (completed st) < size (completed st1))%nat as Hlt.
    { apply subset_size. set_solver. }
    destruct (Hless (S turn) st1) as (fuel & st' & Hloop).
    + by eapply iteration_reachable.
    + unfold unfinished in Hu. apply Nat.ltb_lt in Hu. lia.
    + exists (S fuel), st'. simpl. by rewrite Hu, Hit.
  - destruct (iteration_returns (polls turn) st Hreach)
      as (st1 & Hit & Hsub & Hfin & Hidle).
    destruct (done_futures (polls turn) (futures (readiness_scan tasks st)))
      as [|[m x] rest] eqn:Hd.
    + rewrite (Hidle eq_refl) in Hit.
      destruct (readiness_scan_frame tasks st) as (Hcs & _).
      destruct (IH (S turn) (readiness_scan tasks st)) as (fuel & st' & Hloop).
      * by apply reachable_scan.
      * unfold unfinished in *. by rewrite Hcs.
      * by rewrite Hcs.
      * destruct (readiness_scan_frame tasks (readiness_scan tasks st))
          as (_ & _ & Hrs & _). by apply Hrs.
      * by replace (S turn + wait)%nat with (turn + S wait)%nat by lia.
      * exists (S fuel), st'. simpl. by rewrite Hu, Hit.
    + assert ((m, x) ∈ done_futures (polls turn)
                (futures (readiness_scan tasks st))) as Hm.
      { rewrite Hd. left. }
      assert (sched_inv tasks (readiness_scan tasks st)) as Hinv.
      { apply reachable_inv; [done|]. by apply reachable_scan. }
      pose proof (done_futures_keys _ _ _ _ Hm) as Hkey.
      destruct (running_key tasks named _ _ Hinv Hkey) as (Hmr & Hmc & _).
      assert (m ∈ completed st1) as Hm1.
      { apply Hfin; [done|]. clear -Hm.
        induction (futures (readiness_scan tasks st)) as [|[k t] fs IHfs];
          simpl in Hm; [by apply elem_of_nil in Hm|].
        destruct (polls turn k) as [y|] eqn:Hp; [|auto].
        apply elem_of_cons in Hm as [[= -> ->]|Hm]; [by rewrite Hp | auto]. }
      destruct (readiness_scan_frame tasks st) as (Hcs & _).
      rewrite Hcs in Hmc.
      assert (size (completed st) < size (completed st1))%nat as Hlt.
      { apply subset_size. set_solver. }
      destruct (Hless (S turn) st1) as (fuel & st' & Hloop).
      * by eapply iteration_reachable.
      * unfold unfinished in Hu. apply Nat.ltb_lt in Hu. lia.
      * exists (S fuel), st'. simpl. by rewrite Hu, Hit.
Qed.

Lemma dispatch_loop_returns budget turn st :
  reachable tasks st →
  (length tasks - size (completed st) ≤ budget)%nat →
  ∃ fuel st', dispatch_loop fuel tasks polls turn st = Returns st'.
Proof.
  revert turn st. induction budget as [|budget IH]; intros turn st Hreach Hsize.
  - exists 0%nat, st. simpl.
    replace (unfinished tasks st) with false; [done|].
    symmetry. apply Nat.ltb_ge. lia.
  - destruct (unfinished tasks st) eqn:Hu.
    2: { exists 0%nat, st. simpl. by rewrite Hu. }
    destruct (unfinished_runs st) as [n Hn]; [by apply reachable_inv | done |].
    destruct (fairness n turn) as (j & Hj & Hdone).
    apply (dispatch_loop_waits budget n IH (j - turn)%nat); try done.
    by replace (turn + (j - turn))%nat with j by lia.
Qed.

(** With fair workers whose commands can be built, the loop on a
    validated graph returns, every task is then terminal exactly once
    and has an output, and no task was submitted twice. *)
Lemma dispatch_loop_terminates :
  ∃ fuel final,
    dispatch_loop fuel tasks polls 0 initial_state = Returns final
    ∧ reachable tasks final
    ∧ NoDup (started (trace final)) ∧ NoDup (terminated (trace final))
    ∧ ∀ t, t ∈ tasks →
           name t ∈ terminated (trace final)
           ∧ is_Some (outputs final !! name t)
           ∧ (name t ∉ running final).
Proof.
  destruct (dispatch_loop_returns (length tasks) 0 initial_state)
    as (fuel & final & Hloop); [apply reachable_initial | lia |].
  exists fuel, final.
  destruct (dispatch_loop_reachable tasks fuel polls 0 initial_state final)
    as [Hreach Hu]; [done | apply reachable_initial | done |].
  destruct (dispatch_safe tasks final named Hreach)
    as (Hs & Ht & Hct & Hout & Hrun & Hall).
  split_and!; try done.
  intros t Hin. specialize (Hall Hu t Hin). split_and!.
  - by apply Hct.
  - by apply Hout.
  - rewrite Hrun. intros [_ Hnt]. by apply Hnt, Hct.
Qed.
End liveness.

(** ** Runs of the loop on small graphs *)

Lemma pipeline_acyclic : ¬ cyclic pipeline.
Proof.
  apply (ranked_acyclic _ pipeline_rank). intros t d Ht Hd Hne.
  unfold pipeline in Ht. set_unfold in Ht.
  destruct Ht as [->|[->|[->|[]]]]; simpl in Hd; set_unfold in Hd;
    try done; destruct Hd as [->|[]]; vm_compute; lia.
Qed.

Lemma pipeline_executable : executable pipeline.
Proof.
  intros t Ht. unfold pipeline in Ht. set_unfold in Ht.
  destruct Ht as [->|[->|[->|[]]]]; eexists; reflexivity.
Qed.

Example pipeline_terminates :
  ∃ fuel final,
    dispatch_loop fuel pipeline (λ _ _, Some failing) 0 initial_state
    = Returns final
    ∧ reachable pipeline final
    ∧ NoDup (started (trace final)) ∧ NoDup (terminated (trace final))
    ∧ ∀ t, t ∈ pipeline →
           name t ∈ terminated (trace final)
           ∧ is_Some (outputs final !! name t)
           ∧ (name t ∉ running final).
Proof.
  apply dispatch_loop_terminates.
  - exact pipeline_named.
  - exact pipeline_executable.
  - by apply check_dependencies_None.
  - exact pipeline_acyclic.
  - intros n i. exists i. split; [lia | by eexists].
Qed.

(** A succeeds: B and C start after its [Finished] line and succeed. *)
Example diamond_succeeds :
  let tasks :=
    [ mkTask "A" 1 [] "resolve" {[ "fqdn" := "a.example" ]};
      mkTask "B" 1 ["A"] "resolve" {[ "fqdn" := "b.example" ]};
      mkTask "C" 1 ["A"] "resolve" {[ "fqdn" := "c.example" ]} ] in
  calculate_expected_runtime tasks = Returns 2
  ∧ (trace <$> match dispatch_loop 3 tasks (λ _ _, Some answering) 0 initial_state with
               | Returns final => Some final
               | _ => None
               end)
    = Some [Finished "C"; Finished "B"; Starting "C"; Starting "B";
            Finished "A"; Starting "A"].
Proof. by vm_compute. Qed.

(** A fails: B and C are skipped and never submitted. *)
Example diamond_fails :
  let tasks :=
    [ mkTask "A" 1 [] "resolve" {[ "fqdn" := "a.example" ]};
      mkTask "B" 1 ["A"] "resolve" {[ "fqdn" := "b.example" ]};
      mkTask "C" 1 ["A"] "resolve" {[ "fqdn" := "c.example" ]} ] in
  match dispatch_loop 3 tasks (λ _ _, Some failing) 0 initial_state with
  | Returns final =>
      trace final =
        [Skipped "C" "A"; Skipped "B" "A"; Error "A" "connection timed out";
         Finished "A"; Starting "A"]
      ∧ outputs final !! "B" = Some "Skipped due to failure in A"
      ∧ outputs final !! "C" = Some "Skipped due to failure in A"
  | _ => False
  end.
Proof. by vm_compute. Qed.

(** A fails, B is skipped, C, which lists only B, is executed. *)
Example pipeline_runs_past_skip :
  match dispatch_loop 3 pipeline (λ _ _, Some failing) 0 initial_state with
  | Returns final =>
      trace final =
        [Error "C" "connection timed out"; Finished "C"; Starting "C";
         Skipped "B" "A"; Error "A" "connection timed out"; Finished "A";
         Starting "A"]
  | _ => False
  end.
Proof. by vm_compute. Qed.

Example empty_graph_run :
  run_mode 0 [] (λ _ _, None) = Returns (Ran 0 initial_state).
Proof. by vm_compute. Qed.

(** * Reading the task file *)

(** ** The pieces of a line *)

Lemma split_once_contains sep s :
  contains sep s = true →
  ∃ key value, split_once sep s = [key; value]
               ∧ s = key +:+ String sep value ∧ contains sep key = false.
Proof.
  induction s as [|c s IH]; simpl; [done|].
  destruct (Ascii.eqb_spec c sep) as [->|Hne]; simpl.
  - intros _. by exists "", s.
  - intros (key & value & -> & -> & Hk)%IH.
    exists (String c key), value. simpl.
    split_and!; [done | done |].
    destruct (Ascii.eqb_spec c sep); [done | by simpl].
Qed.

(** The assignment [key, value = param.split('=', 1)] never fails: the
    loop over the parameters ends with the dictionary or at the
    [return] of line 57. *)
Lemma parse_parameters_cases params parameters :
  (∃ m, parse_parameters params parameters = Done m)
  ∨ parse_parameters params parameters = line_error.
Proof.
  revert parameters. induction params as [|param rest IH]; intros m; simpl.
  - left. by exists m.
  - destruct (truthy param); [|apply IH].
    destruct (contains "=" param) eqn:Hc; simpl; [|by right].
    apply split_once_contains in Hc as (key & value & -> & _ & _). apply IH.
Qed.

Section lines.
Variable int : string → option Z.

(** A line that is read gives a task with a new, non-empty name, a
    positive duration and one of the three kinds. *)
Lemma parse_line_task names line t :
  parse_line int names line = Done (Some t) →
  name t ≠ "" ∧ (name t ∉ names) ∧ 0 < duration t ∧ task_type t ∈ task_types.
Proof.
  unfold parse_line. destruct (truthy (strip line)); simpl; [|done].
  destruct (split "," (strip line)) as [|n [|d [|deps [|ty [|ps [|]]]]]]; try done.
  destruct (truthy n) eqn:Hn; simpl; [|done].
  case_bool_decide as Hin; [done|].
  destruct (int d) as [z|]; [|done].
  destruct (z <=? 0) eqn:Hz; [done|].
  case_bool_decide as Hty; simpl; [|done].
  destruct (parse_parameters _ _); [|done].
  intros [= <-]. simpl. split_and!; try done.
  - by apply truthy_true.
  - by apply Z.leb_gt.
Qed.

Lemma parse_line_cases names line :
  (∃ o, parse_line int names line = Done o)
  ∨ parse_line int names line = line_error.
Proof.
  unfold parse_line. destruct (truthy (strip line)); simpl; [|by eauto].
  destruct (split "," (strip line)) as [|n [|d [|deps [|ty [|ps [|]]]]]];
    try by right.
  destruct (_ || _); [by right|].
  destruct (int d) as [z|]; [|by right].
  destruct (z <=? 0); [by right|].
  destruct (negb _); [by right|].
  destruct (parse_parameters_cases (split ";" ps) ∅) as [[m ->] | ->];
    [by eauto | by right].
Qed.

Lemma read_lines_cases todo tasks names :
  (∃ read, read_lines int todo tasks names = Done read)
  ∨ read_lines int todo tasks names = line_error.
Proof.
  revert tasks names. induction todo as [|line rest IH]; intros tasks names; simpl.
  - by eauto.
  - destruct (parse_line_cases names line) as [[[t|] ->] | ->];
      [apply IH | apply IH | by right].
Qed.

Lemma read_lines_accepted todo tasks names tasks' names' :
  accepted tasks → names = task_names tasks →
  read_lines int todo tasks names = Done (tasks', names') →
  accepted tasks' ∧ names' = task_names tasks'.
Proof.
  revert tasks names. induction todo as [|line rest IH]; intros tasks names; simpl.
  - intros Hacc -> [= <- <-]. done.
  - intros Hacc ->.
    destruct (parse_line int (task_names tasks) line) as [[t|]|] eqn:Hline;
      [| by apply IH | done].
    apply parse_line_task in Hline as (Hne & Hnew & Hd & Hty).
    apply IH.
    + destruct Hacc as [[Hnd Hnames] Hall]. split; [split|].
      * rewrite fmap_app. apply NoDup_app. split_and!; [done | | apply NoDup_singleton].
        intros n Hn [->|[]%elem_of_nil]%elem_of_cons.
        apply Hnew. unfold task_names. by apply elem_of_list_to_set.
      * intros t' [Ht'|[->|[]%elem_of_nil]%elem_of_cons]%elem_of_app; auto.
      * intros t' [Ht'|[->|[]%elem_of_nil]%elem_of_cons]%elem_of_app; auto.
    + unfold task_names. rewrite fmap_app, list_to_set_app_L. simpl.
      set_solver.
Qed.
End lines.

(** ** What [parse_input] returns *)

Lemma three_lines_parsed :
  parse_input decimal "tasks.txt" three_lines = (Some three_tasks, None).
Proof. by vm_compute. Qed.

Lemma accepted_nil : accepted [].
Proof.
  split; [split|].
  - constructor.
  - intros t Ht. by apply elem_of_nil in Ht.
  - intros t Ht. by apply elem_of_nil in Ht.
Qed.

Lemma parse_input_Some int file_path file tasks error :
  parse_input int file_path file = (Some tasks, error) →
  error = None ∧ failure file = None
  ∧ read_lines int (lines file) [] ∅ = Done (tasks, task_names tasks)
  ∧ accepted tasks ∧ check_dependencies tasks = None.
Proof.
  unfold parse_input, read_file.
  destruct (read_lines int (lines file) [] ∅) as [[tasks' names]|e] eqn:Hread.
  - destruct (failure file) as [[|m]|]; [done | done |].
    destruct (check_dependencies_in names tasks') as [e|] eqn:Hcheck; [done|].
    intros [= -> <-].
    apply read_lines_accepted in Hread as [Hacc ->];
      [| apply accepted_nil | by rewrite <- (list_to_set_nil (C:=gset string))].
    done.
  - by destruct e.
Qed.

(** X2. [parse_input] returns the tasks, or one of four errors: the same
    message for every line it rejects, whatever the line and the
    reason (the message names no line), the unknown dependency of a
    task, the missing file, or what the reading raised. *)
Theorem parse_input_outcomes int file_path file :
  (∃ tasks, parse_input int file_path file = (Some tasks, None))
  ∨ parse_input int file_path file
    = (None, Some "Error parsing file: name 'line_num' is not defined")
  ∨ (∃ n d, d ≠ ""
       ∧ parse_input int file_path file
         = (None, Some ("Task " +:+ n +:+ ": Unknown dependency '" +:+ d +:+ "'")))
  ∨ (failure file = Some FileNotFoundError
     ∧ parse_input int file_path file
       = (None, Some ("File " +:+ file_path +:+ " not found")))
  ∨ (∃ str, failure file = Some (AnyException str)
       ∧ parse_input int file_path file
         = (None, Some ("Error parsing file: " +:+ str))).
Proof.
  unfold parse_input, read_file.
  destruct (read_lines_cases int (lines file) [] ∅) as [[[tasks names] ->] | ->].
  - destruct (failure file) as [[|str]|].
    + right; right; right; left. done.
    + right; right; right; right. by exists str.
    + destruct (check_dependencies_in names tasks) as [e|] eqn:Hcheck.
      * apply check_dependencies_in_Some in Hcheck as (t & d & _ & _ & Hd & _ & ->).
        right; right; left. by exists (name t), d.
      * left. by exists tasks.
  - right; left. done.
Qed.

(** ** Blank lines and margins *)

Lemma rstrip_idemp s : rstrip (rstrip s) = rstrip s.
Proof.
  induction s as [|c s IH]; simpl; [done|].
  destruct (rstrip s) as [|k kept] eqn:Hr.
  - destruct (isspace c) eqn:Hc; simpl; [done | by rewrite Hc].
  - change (rstrip (String c (String k kept))) with
      (match rstrip (String k kept) with
       | EmptyString => if isspace c then EmptyString else String c EmptyString
       | kept' => String c kept'
       end).
    by rewrite IH.
Qed.

Lemma lstrip_head s :
  lstrip s = "" ∨ ∃ c rest, lstrip s = String c rest ∧ isspace c = false.
Proof.
  induction s as [|c s IH]; simpl; [by left|].
  destruct (isspace c) eqn:Hc; [done|]. right. by exists c, s.
Qed.

Lemma rstrip_head c rest :
  isspace c = false → rstrip (String c rest) = String c (rstrip rest).
Proof. intros Hc. simpl. rewrite Hc. by destruct (rstrip rest). Qed.

Lemma strip_idemp s : strip (strip s) = strip s.
Proof.
  unfold strip. destruct (lstrip_head s) as [-> | (c & rest & -> & Hc)]; [done|].
  rewrite (rstrip_head _ _ Hc). simpl. rewrite Hc.
  rewrite (rstrip_head _ _ Hc). by rewrite rstrip_idemp.
Qed.

Section margins.
Variable int : string → option Z.

Lemma parse_line_strip names line :
  parse_line int names (strip line) = parse_line int names line.
Proof. unfold parse_line. by rewrite strip_idemp. Qed.

Lemma parse_line_blank names line :
  whitespace_only line = true → parse_line int names line = Done None.
Proof. intros Hw%strip_empty. unfold parse_line. by rewrite Hw. Qed.

Lemma parse_line_not_blank names line :
  whitespace_only line = false → parse_line int names line ≠ Done None.
Proof.
  intros Hw. unfold parse_line.
  destruct (strip line) as [|c s] eqn:Hs.
  { apply strip_empty in Hs. congruence. }
  simpl. repeat case_match; done.
Qed.

Lemma read_lines_margins todo tasks names :
  read_lines int
    (strip <$> List.filter (λ line, negb (whitespace_only line)) todo) tasks names
  = read_lines int todo tasks names.
Proof.
  revert tasks names. induction todo as [|line rest IH]; intros tasks names;
    simpl; [done|].
  destruct (whitespace_only line) eqn:Hw; simpl.
  - by rewrite (parse_line_blank _ _ Hw).
  - rewrite parse_line_strip.
    destruct (parse_line int names line) as [[t|]|]; by rewrite ?IH.
Qed.

Lemma read_lines_length todo tasks names tasks' names' :
  read_lines int todo tasks names = Done (tasks', names') →
  length tasks' =
  (length tasks
   + length (List.filter (λ line, negb (whitespace_only line)) todo))%nat.
Proof.
  revert tasks names. induction todo as [|line rest IH]; intros tasks names; simpl.
  - intros [= <- <-]. lia.
  - destruct (parse_line int names line) as [[t|]|] eqn:Hline; [| |done].
    + intros ->%IH. rewrite length_app. simpl.
      destruct (whitespace_only line) eqn:Hw; simpl; [|lia].
      by rewrite (parse_line_blank _ _ Hw) in Hline.
    + intros ->%IH.
      destruct (whitespace_only line) eqn:Hw; simpl; [done|].
      by apply parse_line_not_blank with (names := names) in Hw.
Qed.
End margins.

(** X3. Blank lines and white space at both ends of a line do not count:
    a file, and the file without its blank lines and with every line
    stripped, give the same result. *)
Theorem blank_lines_and_margins_ignored int file_path todo failure :
  parse_input int file_path
    (mkReading (strip <$> List.filter (λ line, negb (whitespace_only line)) todo)
       failure)
  = parse_input int file_path (mkReading todo failure).
Proof.
  unfold parse_input, read_file. simpl. by rewrite read_lines_margins.
Qed.

(** X1. A file that [parse_input] returns as a list of tasks has one task
    for each line that is not blank, no empty and no repeated name,
    positive durations, one of the three kinds for every task and no
    dependency on a name that is not in the file. *)
Theorem parse_input_accepts int file_path file tasks error :
  parse_input int file_path file = (Some tasks, error) →
  error = None
  ∧ length tasks
    = length (List.filter (λ line, negb (whitespace_only line)) (lines file))
  ∧ NoDup (name <$> tasks)
  ∧ (∀ t, t ∈ tasks →
       name t ≠ "" ∧ 0 < duration t
       ∧ task_type t ∈ ["resolve"; "traceroute"; "iperf3"]
       ∧ ∀ d, d ∈ dependencies t → d ≠ "" → ∃ u, u ∈ tasks ∧ name u = d)
  ∧ check_dependencies tasks = None.
Proof.
  intros (-> & _ & Hread & [[Hnd Hne] Hall] & Hcheck)%parse_input_Some.
  split_and!; try done.
  - by apply read_lines_length in Hread.
  - intros t Ht. destruct (Hall t Ht) as [Hd Hty]. split_and!; auto.
    intros d Hd' Hdne. apply elem_of_task_names.
    eapply check_dependencies_in_None in Hcheck; eauto.
Qed.

Lemma parse_input_accepts_witness :
  length three_tasks = 3%nat
  ∧ NoDup (name <$> three_tasks) ∧ check_dependencies three_tasks = None.
Proof.
  destruct (parse_input_accepts decimal "tasks.txt" three_lines three_tasks None)
    as (_ & Hlen & Hnd & _ & Hcheck); [by vm_compute|].
  split_and!; [exact Hlen | exact Hnd | exact Hcheck].
Defined.

(** ** The parameters of a line *)

Lemma contains_app c s1 s2 :
  contains c (s1 +:+ s2) = contains c s1 || contains c s2.
Proof.
  induction s1 as [|d s1 IH]; simpl; [done|]. by rewrite IH, orb_assoc.
Qed.

Lemma split_free sep s : contains sep s = false → split sep s = [s].
Proof.
  induction s as [|c s IH]; simpl; [done|].
  intros [Hc Hs]%orb_false_iff. rewrite Hc, (IH Hs). done.
Qed.

Lemma split_app sep s rest :
  contains sep s = false →
  split sep (s +:+ String sep rest) = s :: split sep rest.
Proof.
  induction s as [|c s IH]; simpl.
  - intros _. by rewrite Ascii.eqb_refl.
  - intros [Hc Hs]%orb_false_iff. rewrite Hc, (IH Hs). done.
Qed.

Lemma split_join sep pieces :
  pieces ≠ [] → Forall (λ piece, contains sep piece = false) pieces →
  split sep (join sep pieces) = pieces.
Proof.
  induction pieces as [|piece rest IH]; [done|]. intros _ Hall.
  apply Forall_cons in Hall as [Hp Hrest].
  destruct rest as [|next rest]; [by apply split_free|].
  change (join sep (piece :: next :: rest))
    with (piece +:+ String sep (join sep (next :: rest))).
  rewrite (split_app _ _ _ Hp). f_equal. by apply IH.
Qed.

Lemma split_once_entry key value :
  contains "=" key = false → split_once "=" (entry (key, value)) = [key; value].
Proof.
  unfold entry. simpl. induction key as [|c key IH]; simpl; [done|].
  intros [Hc Hk]%orb_false_iff. rewrite Hc, (IH Hk). done.
Qed.

Lemma contains_entry kv : contains "=" (entry kv) = true.
Proof.
  unfold entry. rewrite contains_app. simpl. apply orb_true_r.
Qed.

Lemma truthy_entry kv : truthy (entry kv) = true.
Proof. unfold entry. by destruct (kv.1). Qed.

Lemma parse_parameters_entries kvs parameters :
  Forall (λ kv, contains "=" kv.1 = false) kvs →
  parse_parameters (entry <$> kvs) parameters
  = Done (list_to_map (reverse kvs) ∪ parameters).
Proof.
  revert parameters. induction kvs as [|[key value] kvs IH]; intros m Hall.
  - simpl. by rewrite (left_id_L ∅ (∪)).
  - apply Forall_cons in Hall as [Hk Hall]. simpl in Hk. csimpl.
    rewrite truthy_entry, contains_entry, (split_once_entry _ _ Hk). simpl.
    rewrite (IH _ Hall), reverse_cons, list_to_map_app. simpl.
    rewrite insert_empty, insert_union_singleton_l.
    by rewrite (assoc_L (∪)).
Qed.

Lemma parse_parameters_empty_entry params parameters :
  parse_parameters ("" :: params) parameters = parse_parameters params parameters.
Proof. done. Qed.

Lemma parameters_fields kvs :
  Forall (λ kv, contains "=" kv.1 = false ∧ contains ";" kv.1 = false
                ∧ contains ";" kv.2 = false) kvs →
  parse_parameters (split ";" (join ";" (entry <$> kvs))) ∅
  = Done (list_to_map (reverse kvs)).
Proof.
  intros Hall. destruct kvs as [|kv kvs]; [done|].
  rewrite split_join.
  - rewrite parse_parameters_entries, (right_id_L ∅ (∪)); [done|].
    eapply Forall_impl; [exact Hall|]. by intros ? (? & _).
  - done.
  - apply Forall_fmap. eapply Forall_impl; [exact Hall|].
    intros [k v] (_ & Hk & Hv). simpl in *. unfold entry. simpl.
    rewrite contains_app, Hk. simpl. done.
Qed.

(** X4. Parameters written as [key=value] entries separated by semicolons
    are read back as the dictionary of these pairs, the last entry of a
    key winning; the value may hold [=] signs. *)
Theorem parameters_round_trip kvs :
  Forall (λ kv, contains "=" kv.1 = false ∧ contains ";" kv.1 = false
                ∧ contains ";" kv.2 = false) kvs →
  parse_parameters (split ";" (join ";" (entry <$> kvs))) ∅
  = Done (list_to_map (reverse kvs)).
Proof. apply parameters_fields. Qed.

Lemma parameters_round_trip_witness :
  parse_parameters (split ";" "tool=mtr;filter=a=b;tool=traceroute") ∅
  = Done (<[ "tool" := "traceroute" ]> {[ "filter" := "a=b" ]}).
Proof.
  refine (parameters_round_trip
            [("tool", "mtr"); ("filter", "a=b"); ("tool", "traceroute")] _).
  repeat constructor.
Defined.

(** * [detect_cycles] without the existence check *)

Section search.
Variable tasks : list Task.

Lemma dfs_deps_searched call deps :
  (∀ t s s', find_task tasks (name t) = Returns t → name t ∉ visited s →
             searched tasks s → call t s = Returns (false, s') →
             searched tasks s' ∧ rec_stack s' = rec_stack s
             ∧ visited s ⊆ visited s') →
  ∀ s s', searched tasks s →
          dfs_deps tasks call deps s = Returns (false, s') →
          searched tasks s' ∧ rec_stack s' = rec_stack s
          ∧ visited s ⊆ visited s'
          ∧ ∀ d, d ∈ deps → d ≠ "" → ∃ u, find_task tasks d = Returns u.
Proof.
  intros Hcall. induction deps as [|dep rest IH]; intros s s' Hs; simpl.
  - intros [= <-]. split_and!; try done.
    intros d Hd. by apply elem_of_nil in Hd.
  - destruct (truthy dep) eqn:Hdep.
    2: { apply truthy_false in Hdep as ->. intros Hrest.
         destruct (IH _ _ Hs Hrest) as (? & ? & ? & Hfound).
         split_and!; try done.
         intros d [->|Hd]%elem_of_cons Hne; [done | auto]. }
    destruct (find_task tasks dep) as [dep_task| |] eqn:Hfind; simpl; try done.
    pose proof (find_task_Returns _ _ _ Hfind) as [_ Hname].
    case_bool_decide as Hvis.
    + case_bool_decide as Hstack; [done|]. intros Hrest.
      destruct (IH _ _ Hs Hrest) as (? & ? & ? & Hfound).
      split_and!; try done.
      intros d [->|Hd]%elem_of_cons Hne; [by eauto | auto].
    + destruct (call dep_task s) as [[[] s1]| |] eqn:Hc; simpl; try done.
      intros Hrest.
      destruct (Hcall dep_task s s1) as (Hs1 & Hst1 & Hv1); try done.
      { by rewrite Hname. }
      { by rewrite Hname. }
      destruct (IH _ _ Hs1 Hrest) as (? & ? & ? & Hfound).
      split_and!; [done | congruence | set_solver |].
      intros d [->|Hd]%elem_of_cons Hne; [by eauto | auto].
Qed.

Lemma dfs_searched fuel t s s' :
  find_task tasks (name t) = Returns t → name t ∉ visited s →
  searched tasks s → dfs fuel tasks t s = Returns (false, s') →
  searched tasks s' ∧ rec_stack s' = rec_stack s
  ∧ {[name t]} ∪ visited s ⊆ visited s'.
Proof.
  revert t s s'. induction fuel as [|fuel IH]; intros t s s' Hfind Hfresh Hs;
    simpl; [done|].
  set (s1 := mkDfs ({[name t]} ∪ visited s) ({[name t]} ∪ rec_stack s)).
  destruct (dfs_deps tasks (dfs fuel tasks) (dependencies t) s1)
    as [[[] s2]| |] eqn:Hdeps; simpl; try done.
  destruct (dfs_deps_searched (dfs fuel tasks) (dependencies t)) with s1 s2
    as (Hs2 & Hst2 & Hv2 & Hfound); try done.
  { intros t' s0 s0' ? ? ? Hd.
    destruct (IH t' s0 s0') as (? & ? & ?); try done.
    split_and!; [done | done | set_solver]. }
  { destruct Hs as [Hsub Hres]. split; simpl; [set_solver|].
    intros n Hn Hnot. apply Hres; set_solver. }
  unfold set_remove. case_bool_decide as Hin; simpl; [|done].
  intros [= <-]. simpl. destruct Hs as [Hsub Hres].
  assert (Hstack : rec_stack s2 ∖ {[name t]} = rec_stack s).
  { rewrite Hst2. simpl. set_solver. }
  rewrite Hstack. split_and!; [split; simpl | done | simpl in *; set_solver].
  - simpl in Hv2. set_solver.
  - intros n Hn Hnot. destruct (decide (n = name t)) as [->|Hne].
    + intros t' d Ht'. rewrite Hfind in Ht'. injection Ht' as <-. apply Hfound.
    + destruct Hs2 as [_ Hres2]. apply Hres2; [done|].
      rewrite Hst2. simpl. set_solver.
Qed.

Lemma detect_cycles_from_searched fuel roots s :
  (∀ t, t ∈ roots → find_task tasks (name t) = Returns t) →
  searched tasks s → rec_stack s = ∅ →
  detect_cycles_from fuel tasks roots s = Returns None →
  ∀ t, t ∈ roots → resolved tasks (name t).
Proof.
  revert s. induction roots as [|root rest IH]; intros s Hroots Hs Hstack; simpl.
  - intros _ t Ht. by apply elem_of_nil in Ht.
  - assert (Hrest : ∀ t, t ∈ rest → find_task tasks (name t) = Returns t).
    { intros t Ht. apply Hroots. by right. }
    case_bool_decide as Hvis.
    + intros Hnone t [->|Ht]%elem_of_cons; [|by eapply IH].
      destruct Hs as [_ Hres]. apply Hres; [done|]. rewrite Hstack. set_solver.
    + destruct (dfs fuel tasks root s) as [[[] s']| |] eqn:Hdfs; simpl; try done.
      destruct (dfs_searched fuel root s s') as (Hs' & Hst' & Hv'); try done.
      { apply Hroots. left. }
      intros Hnone t [->|Ht]%elem_of_cons.
      * destruct Hs' as [_ Hres]. apply Hres; [set_solver|].
        rewrite Hst', Hstack. set_solver.
      * eapply IH; try done. congruence.
Qed.
End search.

Lemma detect_cycles_resolved tasks t :
  NoDup (name <$> tasks) → detect_cycles tasks = Returns None →
  t ∈ tasks → resolved tasks (name t).
Proof.
  intros Hnd Hnone.
  apply (detect_cycles_from_searched tasks (S (length tasks)) tasks (mkDfs ∅ ∅));
    try done.
  intros t' Ht'. by apply find_task_NoDup.
Qed.

(** On this list the search meets the unknown name: the lookup raises
    [StopIteration], where the existence check reports the name. *)
Example detect_cycles_stray :
  detect_cycles stray = Raises StopIteration
  ∧ check_dependencies stray = Some "Task B: Unknown dependency 'Z'".
Proof. by vm_compute. Qed.

(** ** The order of the lines *)

Lemma cyclic_Permutation tasks tasks' :
  tasks ≡ₚ tasks' → cyclic tasks → cyclic tasks'.
Proof.
  intros Hp [u Hu]. exists u.
  assert (Hstep : ∀ x y, depends_on tasks x y → depends_on tasks' x y).
  { intros x y (t & Ht & ?). exists t. by rewrite <- Hp. }
  assert (Htc : ∀ x y, tc (depends_on tasks) x y → tc (depends_on tasks') x y).
  { intros x y Hxy. induction Hxy as [x y H|x y z H _ IH].
    - apply tc_once. auto.
    - eapply tc_l; eauto. }
  auto.
Qed.

Lemma dangling_Permutation tasks tasks' :
  tasks ≡ₚ tasks' → dangling tasks → dangling tasks'.
Proof.
  intros Hp (t & d & Ht & Hd & Hne & Hn). exists t, d.
  split_and!; try done; [by rewrite <- Hp|].
  intros Hin. apply Hn. apply elem_of_task_names in Hin as (u & Hu & <-).
  apply elem_of_task_names. exists u. by rewrite Hp.
Qed.

Lemma detect_cycles_Permutation tasks tasks' :
  tasks ≡ₚ tasks' → NoDup (name <$> tasks) → check_dependencies tasks = None →
  detect_cycles tasks' = detect_cycles tasks.
Proof.
  intros Hp Hnd Hk%check_dependencies_None.
  assert (Hnd' : NoDup (name <$> tasks')) by (by rewrite <- Hp).
  assert (Hk' : ¬ dangling tasks').
  { intros Hd. apply Hk. by eapply dangling_Permutation. }
  destruct (detect_cycles_correct tasks Hk) as [[-> [u Hu]] | [-> Hac]].
  - apply detect_cycles_cyclic; try done.
    apply (cyclic_Permutation tasks); [done|]. exists u. by apply tc_found_depends.
  - apply detect_cycles_acyclic; [done|].
    intros Hc. apply (cyclic_Permutation tasks' tasks) in Hc as [u Hu]; [|done].
    apply (Hac u). by apply tc_depends_found.
Qed.

(** * When [calculate_expected_runtime] returns *)

Lemma max_dep_finish_cases ft deps acc :
  ((∀ d, d ∈ deps → d ≠ "" → is_Some (ft !! d))
   ∧ ∃ m, max_dep_finish ft deps acc = Returns m
          ∧ acc ≤ m ∧ (m = acc ∨ ∃ d, ft !! d = Some m))
  ∨ ∃ d, d ∈ deps ∧ d ≠ "" ∧ ft !! d = None
         ∧ max_dep_finish ft deps acc = Raises (KeyError d).
Proof.
  revert acc. induction deps as [|dep rest IH]; intros acc; simpl.
  - left. split; [by intros d Hd; apply elem_of_nil in Hd|].
    exists acc. split_and!; [done | lia | by left].
  - destruct (truthy dep) eqn:Hdep.
    + apply truthy_true in Hdep. destruct (ft !! dep) as [f|] eqn:Hf.
      * destruct (IH (Z.max acc f)) as [[Hall (m & -> & Hle & Hm)] | (d & ? & ? & ? & ->)].
        -- left. split.
           { intros d [->|Hd]%elem_of_cons Hne; [by rewrite Hf | auto]. }
           exists m. split_and!; [done | lia |].
           destruct Hm as [->|?]; [|by right].
           destruct (Z.max_spec acc f) as [[_ ->]|[_ ->]]; [right; eauto | by left].
        -- right. exists d. split_and!; try done. by right.
      * right. exists dep. split_and!; try done. left.
    + apply truthy_false in Hdep as ->.
      destruct (IH acc) as [[Hall (m & -> & Hle & Hm)] | (d & ? & ? & ? & ->)].
      * left. split.
        { intros d [->|Hd]%elem_of_cons Hne; [done | auto]. }
        by exists m.
      * right. exists d. split_and!; try done. by right.
Qed.

Lemma task_names_snoc pre t :
  task_names (pre ++ [t]) = {[name t]} ∪ task_names pre.
Proof.
  unfold task_names. rewrite fmap_app, list_to_set_app_L. simpl. set_solver.
Qed.

Lemma dependency_ordered_app seen pre rest :
  dependency_ordered seen (pre ++ rest)
  ↔ dependency_ordered seen pre
    ∧ dependency_ordered (task_names pre ∪ seen) rest.
Proof.
  revert seen. induction pre as [|t pre IH]; intros seen; simpl.
  - unfold task_names. simpl. rewrite (left_id_L ∅ (∪)). naive_solver.
  - rewrite IH. unfold task_names. rewrite fmap_cons, list_to_set_cons.
    replace (list_to_set (name <$> pre) ∪ ({[name t]} ∪ seen))
      with ({[name t]} ∪ list_to_set (name <$> pre) ∪ seen : gset string)
      by set_solver.
    naive_solver.
Qed.

(** The loop over the tasks, from the dictionary [ft] of the tasks
    [pre] read so far. *)
Lemma finish_times_from_cases pre rest ft :
  dom ft = task_names pre →
  (dependency_ordered (task_names pre) rest
   ∧ ∃ ft', finish_times_from rest ft = Returns ft')
  ∨ ∃ mid t post d,
      rest = mid ++ t :: post ∧ d ∈ dependencies t ∧ d ≠ ""
      ∧ (d ∉ task_names (pre ++ mid))
      ∧ dependency_ordered (task_names pre) mid
      ∧ finish_times_from rest ft = Raises (KeyError d).
Proof.
  revert pre ft. induction rest as [|t rest IH]; intros pre ft Hdom; simpl.
  - left. split; [done | by eauto].
  - destruct (max_dep_finish_cases ft (dependencies t) 0)
      as [[Hall (start & -> & _)] | (d & Hd & Hne & Hnone & ->)]; simpl.
    + destruct (IH (pre ++ [t]) (<[name t := start + duration t]> ft))
        as [[Hord [ft' ->]] | (mid & u & post & d & -> & Hd & Hne & Hnot & Hord & ->)].
      { rewrite dom_insert_L, Hdom, task_names_snoc. done. }
      * left. split; [|by eauto]. split.
        -- intros d Hd Hne. rewrite <- Hdom. apply elem_of_dom. auto.
        -- by rewrite task_names_snoc in Hord.
      * right. exists (t :: mid), u, post, d. split_and!; try done.
        -- by rewrite <- app_assoc in Hnot.
        -- simpl. split.
           ++ intros d' Hd' Hne'. rewrite <- Hdom. apply elem_of_dom. auto.
           ++ by rewrite task_names_snoc in Hord.
    + right. exists [], t, rest, d. split_and!; try done.
      rewrite app_nil_r, <- Hdom. by apply not_elem_of_dom.
Qed.

Lemma calculate_expected_runtime_cases tasks :
  (dependency_ordered ∅ tasks
   ∧ ∃ m, calculate_expected_runtime tasks = Returns m)
  ∨ ∃ pre t post d,
      tasks = pre ++ t :: post ∧ dependency_ordered ∅ pre
      ∧ d ∈ dependencies t ∧ d ≠ "" ∧ (d ∉ task_names pre)
      ∧ ¬ dependency_ordered ∅ tasks
      ∧ calculate_expected_runtime tasks = Raises (KeyError d).
Proof.
  unfold calculate_expected_runtime.
  destruct (finish_times_from_cases [] tasks ∅)
    as [[Hord [ft' ->]] | (pre & t & post & d & -> & Hd & Hne & Hnot & Hord & ->)].
  - by rewrite dom_empty_L.
  - left. split; [done | by eauto].
  - right. exists pre, t, post, d. split_and!; try done.
    intros [_ [Hdeps _]]%dependency_ordered_app.
    apply Hnot. specialize (Hdeps d Hd Hne).
    change (task_names []) with (∅ : gset string) in Hdeps. set_solver.
Qed.

(** X9. [calculate_expected_runtime] returns exactly for the lists in which
    every task comes after the tasks it lists; for any other list it
    raises [KeyError] with a name that the first task out of order
    lists and that no earlier line has. *)
Theorem expected_runtime_returns_or_raises tasks :
  (dependency_ordered ∅ tasks
   ∧ ∃ m, calculate_expected_runtime tasks = Returns m)
  ∨ ∃ pre t post d,
      tasks = pre ++ t :: post ∧ dependency_ordered ∅ pre
      ∧ d ∈ dependencies t ∧ d ≠ "" ∧ (d ∉ task_names pre)
      ∧ ¬ dependency_ordered ∅ tasks
      ∧ calculate_expected_runtime tasks = Raises (KeyError d).
Proof. apply calculate_expected_runtime_cases. Qed.

(** ** Bounds *)

Lemma finish_times_from_bound rest ft ft' bound :
  (∀ t, t ∈ rest → 0 ≤ duration t) → 0 ≤ bound →
  (∀ n f, ft !! n = Some f → 0 ≤ f ≤ bound) →
  finish_times_from rest ft = Returns ft' →
  ∀ n f, ft' !! n = Some f → 0 ≤ f ≤ bound + total_duration rest.
Proof.
  revert ft bound. induction rest as [|t rest IH]; intros ft bound Hpos Hb Hft; simpl.
  - intros [= <-] n f Hf. specialize (Hft _ _ Hf). lia.
  - assert (0 ≤ duration t) as Hdt by (apply Hpos; left).
    destruct (max_dep_finish_cases ft (dependencies t) 0)
      as [[_ (start & -> & Hle & Hstart)] | (d & _ & _ & _ & ->)]; simpl; [|done].
    assert (start ≤ bound) as Hsb.
    { destruct Hstart as [->|[d Hd]]; [done|]. apply Hft in Hd. lia. }
    intros Hrest n f Hf.
    apply (IH _ (bound + duration t)) with (n := n) (f := f) in Hrest;
      [lia | | lia | | done].
    + intros u Hu. apply Hpos. by right.
    + intros n' f'. destruct (decide (n' = name t)) as [->|Hne].
      * rewrite lookup_insert_eq. intros [= <-]. lia.
      * rewrite lookup_insert_ne by done. intros H'%Hft. lia.
Qed.

Lemma total_duration_nonneg tasks :
  (∀ t, t ∈ tasks → 0 ≤ duration t) → 0 ≤ total_duration tasks.
Proof.
  induction tasks as [|t tasks IH]; simpl; [done|]. intros Hpos.
  assert (0 ≤ duration t) by (apply Hpos; left).
  assert (0 ≤ total_duration tasks); [|lia].
  apply IH. intros u Hu. apply Hpos. by right.
Qed.

(** X10. The expected runtime lies between the longest duration and the sum
    of the durations. *)
Theorem expected_runtime_bounds tasks m :
  NoDup (name <$> tasks) → (∀ t, t ∈ tasks → 0 ≤ duration t) →
  calculate_expected_runtime tasks = Returns m →
  (∀ t, t ∈ tasks → duration t ≤ m) ∧ 0 ≤ m ≤ total_duration tasks.
Proof.
  intros Hnd Hpos Hm. split.
  - destruct (calculate_expected_runtime_cases tasks)
      as [[Hord _] | (? & ? & ? & ? & _ & _ & _ & _ & _ & _ & Hr)];
      [|congruence].
    destruct (expected_runtime_longest_chain tasks Hnd Hord)
      as (m' & Hm' & Hub & _).
    assert (m' = m) as -> by congruence.
    intros t Ht. specialize (Hub [t] (chain_one _ _ Ht)). simpl in Hub. lia.
  - unfold calculate_expected_runtime in Hm.
    destruct (finish_times_from tasks ∅) as [ft| |] eqn:Hft; simpl in Hm; try done.
    injection Hm as <-.
    assert (Hb : ∀ n f, ft !! n = Some f → 0 ≤ f ≤ 0 + total_duration tasks).
    { by apply (finish_times_from_bound tasks ∅). }
    destruct (max_values_spec (snd <$> map_to_list ft)) as [_ [[_ ->] | Hin]].
    + split; [done | by apply total_duration_nonneg].
    + apply list_elem_of_fmap in Hin as ([n f] & -> & Hin). simpl.
      apply elem_of_map_to_list in Hin.
      apply Hb in Hin. lia.
Qed.

Lemma expected_runtime_bounds_witness :
  (∀ t, t ∈ three_tasks → duration t ≤ 17) ∧ 0 ≤ 17 ≤ 17.
Proof.
  apply (expected_runtime_bounds three_tasks 17).
  - apply (bool_decide_unpack _). by vm_compute.
  - intros t Ht. repeat (apply elem_of_cons in Ht as [->|Ht]; [by vm_compute|]).
    by apply elem_of_nil in Ht.
  - by vm_compute.
Defined.

(** X8. For tasks with distinct names, each listed after the tasks it
    depends on, [calculate_expected_runtime] returns the duration of a
    longest dependency chain, and 0 for the empty list. *)
Theorem expected_runtime_critical_path tasks :
  NoDup (name <$> tasks) → dependency_ordered ∅ tasks →
  ∃ m, calculate_expected_runtime tasks = Returns m
       ∧ (∀ c, chain tasks c → chain_duration c ≤ m)
       ∧ (tasks ≠ [] → ∃ c, chain tasks c ∧ chain_duration c = m)
       ∧ (tasks = [] → m = 0).
Proof. apply expected_runtime_longest_chain. Qed.

Lemma expected_runtime_critical_path_witness :
  ∃ m, calculate_expected_runtime three_tasks = Returns m
       ∧ (∀ c, chain three_tasks c → chain_duration c ≤ m)
       ∧ (three_tasks ≠ [] → ∃ c, chain three_tasks c ∧ chain_duration c = m)
       ∧ (three_tasks = [] → m = 0).
Proof.
  apply expected_runtime_critical_path.
  - apply (bool_decide_unpack _). by vm_compute.
  - simpl. split_and!; try done; intros d Hd Hne;
      repeat (apply elem_of_cons in Hd as [->|Hd]; [set_solver|]);
      by apply elem_of_nil in Hd.
Defined.

(** * The command of a task *)

Lemma append_not_empty c s1 s2 : String c s1 +:+ s2 ≠ "".
Proof. done. Qed.

Lemma build_command_first_missing task :
  task_type task ∈ task_types →
  match first_missing task with
  | Some key => build_command task = Raises (KeyError key)
  | None => ∃ command, build_command task = Returns command ∧ command ≠ ""
  end.
Proof.
  unfold task_types, first_missing, required_parameters, build_command, parameter.
  intros Hty.
  repeat (apply elem_of_cons in Hty as [->|Hty]); [| | |by apply elem_of_nil in Hty];
    simpl;
    repeat match goal with
           | |- context [parameters task !! ?key] =>
               destruct (parameters task !! key)
           end;
    simpl; repeat case_bool_decide; simpl; try done; by eexists.
Qed.

(** X11. For a task of one of the three kinds, [build_command] raises
    [KeyError] for the first required parameter that is missing, and
    returns a command that is not empty when none is; parameters that
    are not required are not looked at, but for [tool]. *)
Theorem build_command_required task :
  task_type task ∈ task_types →
  match first_missing task with
  | Some key => build_command task = Raises (KeyError key)
  | None => ∃ command, build_command task = Returns command ∧ command ≠ ""
  end.
Proof. apply build_command_first_missing. Qed.

Lemma build_command_required_witness :
  ∃ command,
    build_command (mkTask "route" 5 [] "traceroute"
                     (<[ "count" := "3" ]> {[ "endpoint" := "example.org" ]}))
    = Returns command ∧ command ≠ "".
Proof.
  refine (build_command_required
            (mkTask "route" 5 [] "traceroute"
               (<[ "count" := "3" ]> {[ "endpoint" := "example.org" ]})) _).
  apply (bool_decide_unpack _). by vm_compute.
Defined.

Example build_command_missing_port :
  build_command (mkTask "load" 10 [] "iperf3" {[ "endpoint" := "example.org" ]})
  = Raises (KeyError "port").
Proof. by vm_compute. Qed.

(** * The verdict of [execute_task] *)

(** X12. Once the command is built, [execute_task] returns. It reports a
    success exactly when the process ends with status 0 within the
    task's duration plus ten seconds and, for a resolve task, prints
    more than white space; the output is then what the process
    printed. A failure carries the error output of the process, the
    time-out or error message naming the task, or the message for an
    empty answer. *)
Theorem execute_task_verdict task x command :
  build_command task = Returns command →
  ∃ success output,
    execute_task task x = Returns (success, output, end_time x - start_time x)
    ∧ (success = true ↔
       ∃ stderr,
         subprocess_run x command (duration task + 10) = Completed 0 output stderr
         ∧ (task_type task = "resolve" → whitespace_only output = false))
    ∧ (success = false →
       (∃ returncode stdout,
          returncode ≠ 0
          ∧ subprocess_run x command (duration task + 10)
            = Completed returncode stdout output)
       ∨ (subprocess_run x command (duration task + 10) = TimeoutExpired
          ∧ output = "Task " +:+ name task +:+ " timed out")
       ∨ (∃ message,
            subprocess_run x command (duration task + 10) = OtherException message
            ∧ output = "Task " +:+ name task +:+ " error: " +:+ message)
       ∨ (∃ stdout stderr,
            subprocess_run x command (duration task + 10) = Completed 0 stdout stderr
            ∧ task_type task = "resolve" ∧ whitespace_only stdout = true
            ∧ output = "No DNS records found")).
Proof.
  intros Hc. rewrite (execute_task_command _ _ _ Hc).
  destruct (subprocess_run x command (duration task + 10)) as [rc out err| |m].
  - destruct (rc =? 0) eqn:Hrc.
    + apply Z.eqb_eq in Hrc as ->.
      destruct (String.eqb_spec (task_type task) "resolve") as [Hty|Hty]; simpl.
      * destruct (strip out) as [|c s] eqn:Hs; simpl.
        -- apply strip_empty in Hs.
           exists false, no_dns_records. split_and!; [done | |].
           ++ split; [done|]. intros (err' & [= Hout _] & _).
              rewrite Hout in Hs. by vm_compute in Hs.
           ++ intros _. right; right; right. by exists out, err.
        -- assert (whitespace_only out = false) as Hw.
           { destruct (whitespace_only out) eqn:Hw; [|done].
             apply strip_empty in Hw. congruence. }
           exists true, out. split_and!; [done | | done].
           split; [|done]. intros _. by exists err.
      * exists true, out. split_and!; [done | | done].
        split; [|done]. intros _. by exists err.
    + apply Z.eqb_neq in Hrc. rewrite andb_false_r. simpl.
      exists false, err. split_and!; [done | |].
      * split; [done|]. by intros (err' & [= -> _ _] & _).
      * intros _. left. by exists rc, out.
  - eexists false, _. split_and!; [done | |].
    + split; [done|]. by intros (? & ? & _).
    + intros _. right; left. done.
  - eexists false, _. split_and!; [done | |].
    + split; [done|]. by intros (? & ? & _).
    + intros _. right; right; left. by exists m.
Qed.

Lemma execute_task_verdict_witness :
  ∃ success output,
    execute_task (mkTask "lookup" 2 [] "resolve" {[ "fqdn" := "example.org" ]}) answering
    = Returns (success, output, end_time answering - start_time answering).
Proof.
  destruct (execute_task_verdict
              (mkTask "lookup" 2 [] "resolve" {[ "fqdn" := "example.org" ]})
              answering "dig +short example.org")
    as (success & output & Hrun & _); [by vm_compute|].
  by exists success, output.
Defined.

(** * Runs of the dispatch loop *)

Lemma done_futures_pool p fs n x : (n, x) ∈ done_futures p fs → p n = Some x.
Proof.
  induction fs as [|[k t] fs IH]; simpl; [by rewrite elem_of_nil|].
  destruct (p k) as [y|] eqn:Hk; [|done].
  intros [[= -> ->]|Hin]%elem_of_cons; auto.
Qed.

(** ** What every turn of the loop keeps *)

Section loop_invariant.
Variable tasks : list Task.
Variable polls : nat → pool.
Variable keeps : SchedState → Prop.
Hypothesis named : well_named tasks.
Hypothesis scan_keeps :
  ∀ st, reachable tasks st → keeps st → keeps (readiness_scan tasks st).
Hypothesis complete_keeps :
  ∀ turn st finished task x st',
    reachable tasks st → keeps st →
    (finished, task) ∈ futures st → polls turn finished = Some x →
    complete tasks finished x st = Returns st' → keeps st'.

Lemma completion_scan_keeps turn done st st' :
  reachable tasks st → keeps st → NoDup done.*1 →
  (∀ n x, (n, x) ∈ done → n ∈ (futures st).*1 ∧ polls turn n = Some x) →
  completion_scan tasks done st = Returns st' → keeps st'.
Proof.
  revert st. induction done as [|[n x] done IH];
    intros st Hreach Hkeeps Hnd Hdone Hc; simpl in *.
  { by injection Hc as <-. }
  apply NoDup_cons in Hnd as [Hn Hnd].
  destruct (complete tasks n x st) as [st1| |] eqn:Hcomp; [|done..].
  simpl in Hc.
  destruct (Hdone n x) as [Hin Hpoll]; [left|].
  pose proof Hin as ([k task] & Hk & Hfut)%list_elem_of_fmap.
  simpl in Hk. subst k.
  apply (IH st1); try done.
  - by eapply reachable_complete.
  - by eapply complete_keeps.
  - intros k y Hky. destruct (Hdone k y) as [Hkin Hkpoll]; [by right|].
    split; [|done].
    assert (k ≠ n) as Hne.
    { intros ->. apply Hn. apply list_elem_of_fmap. by exists (n, y). }
    apply (complete_keys tasks st n x st1); try done.
    by apply reachable_inv.
Qed.

Lemma iteration_keeps turn st st' :
  reachable tasks st → keeps st →
  iteration tasks (polls turn) st = Returns st' → keeps st'.
Proof.
  intros Hreach Hkeeps Hit. unfold iteration in Hit.
  eapply completion_scan_keeps; [| | | |done].
  - by apply reachable_scan.
  - by apply scan_keeps.
  - apply done_futures_NoDup. eapply inv_keys, reachable_inv; [done|].
    by apply reachable_scan.
  - intros n x Hin. split; [|by eapply done_futures_pool].
    eapply done_futures_keys. done.
Qed.

Lemma dispatch_loop_keeps fuel turn st st' :
  reachable tasks st → keeps st →
  dispatch_loop fuel tasks polls turn st = Returns st' → keeps st'.
Proof.
  revert turn st. induction fuel as [|fuel IH];
    intros turn st Hreach Hkeeps Hloop; simpl in Hloop.
  - destruct (unfinished tasks st); [done|]. by injection Hloop as <-.
  - destruct (unfinished tasks st); [|by injection Hloop as <-].
    destruct (iteration tasks (polls turn) st) as [st1| |] eqn:Hit; [|done..].
    simpl in Hloop. eapply IH; [| |done].
    + by eapply iteration_reachable.
    + by eapply iteration_keeps.
Qed.
End loop_invariant.

(** ** Where the outputs come from *)

Lemma readiness_scan_events todo st e :
  e ∈ trace (readiness_scan todo st) → e ∈ trace st ∨ ∃ n, e = Starting n.
Proof.
  revert st. induction todo as [|t todo IH]; intros st; simpl; [by left|].
  destruct (_ && _); [|apply IH].
  intros [[->|He]%elem_of_cons|He]%IH; eauto.
Qed.

Lemma skip_dependents_outputs f todo st n o :
  outputs (skip_dependents f todo st) !! n = Some o →
  outputs st !! n = Some o
  ∨ (o = skipped_output f ∧ ∃ t, t ∈ todo ∧ name t = n ∧ f ∈ dependencies t).
Proof.
  revert st. induction todo as [|t todo IH]; intros st; simpl; [by left|].
  destruct (_ && _) eqn:Hcond.
  - apply andb_true_iff in Hcond as [Hf%bool_decide_eq_true _].
    intros [Ho|(-> & u & Hu & Hn & Hd)]%IH.
    + simpl in Ho. destruct (decide (n = name t)) as [->|Hne].
      * rewrite lookup_insert_eq in Ho. injection Ho as <-.
        right. split; [done|]. exists t. split_and!; [left | done | done].
      * rewrite lookup_insert_ne in Ho by done. by left.
    + right. split; [done|]. exists u. split_and!; [by right | done | done].
  - intros [Ho|(-> & u & Hu & Hn & Hd)]%IH; [by left|].
    right. split; [done|]. exists u. split_and!; [by right | done | done].
Qed.

Section outputs.
Variable tasks : list Task.
Variable polls : nat → pool.
Hypothesis named : well_named tasks.

Lemma sourced_later st st' :
  sourced tasks polls st → outputs st' = outputs st →
  (∀ e, e ∈ trace st → e ∈ trace st') → sourced tasks polls st'.
Proof.
  intros Hs Ho Htr n output. rewrite Ho.
  intros [?|(t & f & ? & ? & ? & [o Hf] & ?)]%Hs; [by left|].
  right. exists t, f. split_and!; try done. exists o. auto.
Qed.

Lemma complete_sourced turn st finished x st' :
  reachable tasks st → sourced tasks polls st →
  finished ∈ (futures st).*1 → polls turn finished = Some x →
  complete tasks finished x st = Returns st' → sourced tasks polls st'.
Proof.
  intros Hreach Hs Hin Hpoll Hc.
  pose proof (reachable_inv tasks named st Hreach) as Hinv.
  destruct (running_key tasks named _ _ Hinv Hin) as (Hr & _).
  destruct (complete_unfold tasks finished x st (inv_keys _ _ Hinv) Hin Hr)
    as (task & d1 & d2 & Hf & Heq).
  rewrite Heq in Hc. clear Heq.
  assert (task ∈ tasks ∧ name task = finished) as [Ht Hn].
  { apply (inv_future_task _ _ Hinv). rewrite Hf.
    apply elem_of_app. right. left. }
  destruct (execute_task task x) as [[[success output] seconds]| |] eqn:Hx;
    [|done..].
  set (st1 := finished_state finished output seconds (d1 ++ d2) st) in *.
  assert (Hs1 : sourced tasks polls st1).
  { intros n o. simpl. destruct (decide (n = finished)) as [->|Hne].
    - rewrite lookup_insert_eq. intros [= <-]. left.
      by exists task, turn, x, success, seconds.
    - rewrite lookup_insert_ne by done.
      intros [?|(t & f & ? & ? & ? & [o' Hf'] & ?)]%Hs; [by left|].
      right. exists t, f. split_and!; try done. exists o'. by right. }
  destruct success; simpl in Hc; injection Hc as <-; [done|].
  intros n o [Ho|(-> & t & Ht' & Hn' & Hd)]%skip_dependents_outputs.
  - simpl in Ho. apply Hs1 in Ho as [?|(t & f & ? & ? & ? & [o' Hf'] & ?)];
      [by left|].
    right. exists t, f. split_and!; try done. exists o'.
    apply skip_dependents_trace. by right.
  - right. exists t, finished. split_and!; try done. exists output.
    apply skip_dependents_trace. left.
Qed.

Lemma dispatch_loop_sourced fuel final :
  dispatch_loop fuel tasks polls 0 initial_state = Returns final →
  sourced tasks polls final.
Proof.
  apply (dispatch_loop_keeps tasks polls (sourced tasks polls) named).
  - intros st Hreach Hs.
    destruct (readiness_scan_frame tasks st) as (_ & Ho & _ & Htr).
    by eapply sourced_later.
  - intros turn st finished task x st' Hreach Hs Hin Hpoll Hc.
    eapply complete_sourced; try done.
    apply list_elem_of_fmap. by exists (finished, task).
  - apply reachable_initial.
  - intros n o. simpl. by rewrite lookup_empty.
Qed.

Lemma complete_quiet turn st finished x st' :
  all_succeed tasks polls →
  reachable tasks st → quiet st →
  finished ∈ (futures st).*1 → polls turn finished = Some x →
  complete tasks finished x st = Returns st' → quiet st'.
Proof.
  intros Hall Hreach Hq Hin Hpoll Hc.
  pose proof (reachable_inv tasks named st Hreach) as Hinv.
  destruct (running_key tasks named _ _ Hinv Hin) as (Hr & _).
  destruct (complete_unfold tasks finished x st (inv_keys _ _ Hinv) Hin Hr)
    as (task & d1 & d2 & Hf & Heq).
  rewrite Heq in Hc. clear Heq.
  assert (task ∈ tasks ∧ name task = finished) as [Ht Hn].
  { apply (inv_future_task _ _ Hinv). rewrite Hf.
    apply elem_of_app. right. left. }
  destruct (Hall task turn x Ht) as (output & seconds & Hx); [by rewrite Hn|].
  rewrite Hx in Hc. simpl in Hc. injection Hc as <-.
  intros e [->|He]%elem_of_cons; [by eauto | by apply Hq].
Qed.

Lemma dispatch_loop_quiet fuel final :
  all_succeed tasks polls →
  dispatch_loop fuel tasks polls 0 initial_state = Returns final → quiet final.
Proof.
  intros Hall. apply (dispatch_loop_keeps tasks polls quiet named).
  - intros st Hreach Hq e [He|[n ->]]%readiness_scan_events; [by apply Hq|].
    by eauto.
  - intros turn st finished task x st' Hreach Hq Hin Hpoll Hc.
    eapply complete_quiet; try done.
    apply list_elem_of_fmap. by exists (finished, task).
  - apply reachable_initial.
  - intros e He. by apply elem_of_nil in He.
Qed.
End outputs.

(** ** The end of the loop *)

Lemma loop_exit tasks polls fuel final :
  well_named tasks →
  dispatch_loop fuel tasks polls 0 initial_state = Returns final →
  reachable tasks final ∧ sched_inv tasks final
  ∧ ∀ t, t ∈ tasks → name t ∈ completed final.
Proof.
  intros Hwn Hloop.
  destruct (dispatch_loop_reachable tasks fuel polls 0 initial_state final)
    as [Hreach Hu]; [done | apply reachable_initial | done |].
  split_and!; [done | by apply reachable_inv |].
  destruct (dispatch_safe tasks final Hwn Hreach) as (_ & _ & _ & _ & _ & Hall).
  by apply Hall.
Qed.

(** X13. When the loop has ended, every task has reached one terminal state
    and only one: the names of the [Finished] and [Skipped] lines are
    the names of the tasks, each once; no task was started twice, a
    started task has its [Finished] line, and nothing is running. *)
Theorem each_task_ends_once tasks polls fuel final :
  well_named tasks →
  dispatch_loop fuel tasks polls 0 initial_state = Returns final →
  terminated (trace final) ≡ₚ name <$> tasks
  ∧ NoDup (started (trace final))
  ∧ (∀ n, n ∈ started (trace final) → Finished n ∈ trace final)
  ∧ running final = ∅ ∧ futures final = [].
Proof.
  intros Hwn Hloop.
  destruct (loop_exit tasks polls fuel final Hwn Hloop) as (Hreach & Hinv & Hall).
  destruct (dispatch_safe tasks final Hwn Hreach)
    as (Hs & Ht & Hct & _ & Hrun & _).
  assert (Hcomp : completed final = task_names tasks).
  { apply set_eq. intros n. split.
    - intros Hn. apply (inv_known _ _ Hinv). set_solver.
    - intros (t & Hin & <-)%elem_of_task_names. auto. }
  assert (Hempty : running final = ∅).
  { rewrite (inv_running _ _ Hinv). apply set_eq. intros n.
    rewrite elem_of_difference, elem_of_list_to_set. split; [|set_solver].
    intros [Hn Hnc]. exfalso. apply Hnc. rewrite Hcomp.
    apply (inv_known _ _ Hinv). apply elem_of_union. left.
    by apply elem_of_list_to_set. }
  split_and!; try done.
  - apply NoDup_Permutation; [done | by destruct Hwn |].
    intros n. rewrite <- Hct, Hcomp. unfold task_names.
    by rewrite elem_of_list_to_set.
  - intros n Hn.
    assert (n ∈ terminated (trace final)) as [Hf|[f Hf]]%elem_of_terminated;
      [|done|].
    + apply Hct. rewrite Hcomp. apply (inv_known _ _ Hinv).
      apply elem_of_union. left. by apply elem_of_list_to_set.
    + exfalso. by eapply orderly_skipped_not_started; [apply (inv_orderly _ _ Hinv)|..].
  - pose proof (inv_futures _ _ Hinv) as Hf. rewrite Hempty in Hf.
    destruct (futures final) as [|[k t] rest]; [done|].
    exfalso. simpl in Hf. set_solver.
Qed.

Lemma each_task_ends_once_witness :
  match dispatch_loop 3 pipeline (λ _ _, Some failing) 0 initial_state with
  | Returns final => terminated (trace final) ≡ₚ name <$> pipeline
  | _ => False
  end.
Proof.
  destruct (dispatch_loop 3 pipeline (λ _ _, Some failing) 0 initial_state)
    as [final| |] eqn:Hloop; [|by vm_compute in Hloop..].
  destruct (each_task_ends_once pipeline (λ _ _, Some failing) 3 final)
    as [H _]; [exact pipeline_named | exact Hloop | exact H].
Defined.

Lemma quiet_run tasks polls fuel final :
  well_named tasks → all_succeed tasks polls →
  dispatch_loop fuel tasks polls 0 initial_state = Returns final →
  (∀ e, e ∈ trace final → ∃ n, e = Starting n ∨ e = Finished n)
  ∧ (∀ t, t ∈ tasks →
       Starting (name t) ∈ trace final ∧ Finished (name t) ∈ trace final)
  ∧ length (trace final) = (2 * length tasks)%nat.
Proof.
  intros Hwn Hall Hloop.
  pose proof (dispatch_loop_quiet tasks polls Hwn fuel final Hall Hloop) as Hq.
  destruct (loop_exit tasks polls fuel final Hwn Hloop) as (Hreach & Hinv & Hdone).
  destruct (dispatch_safe tasks final Hwn Hreach) as (Hs & Ht & Hct & _).
  assert (Hfin : ∀ t, t ∈ tasks → Finished (name t) ∈ trace final).
  { intros t Hin.
    assert (name t ∈ terminated (trace final)) as [Hf|[f Hf]]%elem_of_terminated;
      [by apply Hct, Hdone | done |].
    apply Hq in Hf as [n [?|?]]; done. }
  assert (Hst : ∀ t, t ∈ tasks → Starting (name t) ∈ trace final).
  { intros t Hin. specialize (Hfin t Hin).
    apply list_elem_of_split in Hfin as (later & earlier & Htr).
    pose proof (inv_orderly _ _ Hinv) as Ho. rewrite Htr in Ho.
    apply orderly_split in Ho as [[Hstarted _] _].
    rewrite Htr. apply elem_of_app. right. right. by apply elem_of_started. }
  split_and!; [done | by auto |].
  assert (Hlen : ∀ tr, (∀ e, e ∈ tr → ∃ n, e = Starting n ∨ e = Finished n) →
                       length tr = (length (started tr) + length (terminated tr))%nat).
  { induction tr as [|e tr IH]; [done|]. intros Htr.
    destruct (Htr e) as [n [->| ->]]; [left | |]; simpl; rewrite IH; try lia;
      intros e' He'; apply Htr; by right. }
  rewrite (Hlen _ Hq).
  assert (Hknown : ∀ n, n ∈ started (trace final) ∨ n ∈ completed final →
                        n ∈ name <$> tasks).
  { intros n Hn.
    assert (n ∈ task_names tasks) as (t & Hin & <-)%elem_of_task_names.
    { apply (inv_known _ _ Hinv). by rewrite elem_of_union, elem_of_list_to_set. }
    by apply list_elem_of_fmap_2. }
  assert (started (trace final) ≡ₚ name <$> tasks) as ->.
  { apply NoDup_Permutation; [done | by destruct Hwn |]. intros n. split.
    - intros Hn. apply Hknown. by left.
    - intros (t & -> & Hin)%list_elem_of_fmap. by apply elem_of_started, Hst. }
  assert (terminated (trace final) ≡ₚ name <$> tasks) as ->.
  { apply NoDup_Permutation; [done | by destruct Hwn |]. intros n. split.
    - intros Hn. apply Hknown. right. by apply Hct.
    - intros (t & -> & Hin)%list_elem_of_fmap. by apply Hct, Hdone. }
  rewrite length_fmap. lia.
Qed.

Lemma all_succeed_executable tasks polls :
  fair polls → all_succeed tasks polls → executable tasks.
Proof.
  intros Hfair Hall t Ht. destruct (Hfair (name t) 0%nat) as (turn & _ & [x Hx]).
  destruct (Hall t turn x Ht Hx) as (output & seconds & Hrun).
  unfold execute_task in Hrun.
  destruct (build_command t) as [command| |]; [by exists command | done..].
Qed.

(** X14. When no execution fails, nothing is skipped and no error is
    printed: whenever the loop ends, the lines are a [Starting] and a
    [Finished] line for every task, two for each task; and the loop
    does end when no task lists an unknown name, the graph has no cycle
    and every worker finishes at some time. *)
Theorem run_without_failure tasks polls :
  well_named tasks → all_succeed tasks polls →
  (¬ dangling tasks → ¬ cyclic tasks → fair polls →
     ∃ fuel final,
       dispatch_loop fuel tasks polls 0 initial_state = Returns final)
  ∧ (∀ fuel final,
       dispatch_loop fuel tasks polls 0 initial_state = Returns final →
       (∀ e, e ∈ trace final → ∃ n, e = Starting n ∨ e = Finished n)
       ∧ (∀ t, t ∈ tasks →
            Starting (name t) ∈ trace final ∧ Finished (name t) ∈ trace final)
       ∧ length (trace final) = (2 * length tasks)%nat).
Proof.
  intros Hwn Hall. split.
  - intros Hk Hac Hfair.
    pose proof (all_succeed_executable tasks polls Hfair Hall) as Hexec.
    destruct (dispatch_loop_terminates tasks Hwn Hexec Hk Hac polls Hfair)
      as (fuel & final & Hloop & _).
    by exists fuel, final.
  - intros fuel final Hloop. by apply (quiet_run tasks polls fuel final).
Qed.

Lemma run_without_failure_witness :
  (∃ fuel final,
     dispatch_loop fuel pipeline (λ _ _, Some answering) 0 initial_state
     = Returns final)
  ∧ match dispatch_loop 3 pipeline (λ _ _, Some answering) 0 initial_state with
    | Returns final => length (trace final) = 6%nat
    | _ => False
    end.
Proof.
  destruct (run_without_failure pipeline (λ _ _, Some answering))
    as [Hends Hquiet].
  - exact pipeline_named.
  - intros t turn x Ht [= <-].
    unfold pipeline in Ht.
    repeat (apply elem_of_cons in Ht as [->|Ht]; [by eexists _, _|]).
    by apply elem_of_nil in Ht.
  - split.
    + apply Hends.
      * by apply check_dependencies_None.
      * exact pipeline_acyclic.
      * intros n i. exists i. split; [lia | by eexists].
    + destruct (dispatch_loop 3 pipeline (λ _ _, Some answering) 0 initial_state)
        as [final| |] eqn:Hloop; [|by vm_compute in Hloop..].
      by destruct (Hquiet 3%nat final Hloop) as (_ & _ & H).
Defined.

(** X15. The report at the end has a line for every task, in the order of
    the file, with the output stored for the task: the placeholder of
    line 214 is never shown. The output is what [execute_task] returned
    for the task, or the message that names a failed task it lists. *)
Theorem report_shows_every_output tasks polls fuel final :
  well_named tasks →
  dispatch_loop fuel tasks polls 0 initial_state = Returns final →
  Forall2
    (λ t line,
       ∃ output,
         outputs final !! name t = Some output
         ∧ line = "Task " +:+ name t +:+ ": " +:+ output
         ∧ ((∃ turn x success seconds,
               polls turn (name t) = Some x
               ∧ execute_task t x = Returns (success, output, seconds))
            ∨ (∃ failed o,
                 failed ∈ dependencies t ∧ Error failed o ∈ trace final
                 ∧ output = "Skipped due to failure in " +:+ failed)))
    tasks (task_outputs tasks final).
Proof.
  intros Hwn Hloop. unfold task_outputs.
  apply Forall2_fmap_r, Forall_Forall2_diag, Forall_forall. intros t Hin.
  destruct (loop_exit tasks polls fuel final Hwn Hloop) as (Hreach & Hinv & Hdone).
  assert (is_Some (outputs final !! name t)) as [output Ho].
  { apply elem_of_dom. rewrite (inv_outputs _ _ Hinv). auto. }
  exists output. rewrite Ho. split_and!; [done | done |].
  destruct Hwn as [Hnd Hne].
  destruct (dispatch_loop_sourced tasks polls (conj Hnd Hne) fuel final Hloop
              _ _ Ho)
    as [(t' & turn & x & success & seconds & Ht' & Hn & Hpoll & Hx)
       |(t' & failed & Ht' & Hn & Hd & [o Herr] & ->)];
    assert (t' = t) as -> by (by apply (same_name tasks Hnd)).
  - left. by exists turn, x, success, seconds.
  - right. by exists failed, o.
Qed.

Lemma report_shows_every_output_witness :
  match dispatch_loop 3 pipeline (λ _ _, Some failing) 0 initial_state with
  | Returns final => length (task_outputs pipeline final) = 3%nat
  | _ => False
  end.
Proof.
  destruct (dispatch_loop 3 pipeline (λ _ _, Some failing) 0 initial_state)
    as [final| |] eqn:Hloop; [|by vm_compute in Hloop..].
  pose proof (report_shows_every_output pipeline (λ _ _, Some failing) 3 final
                pipeline_named Hloop) as H.
  by apply Forall2_length in H as <-.
Defined.

Example report_after_failure :
  (task_outputs pipeline <$>
     match dispatch_loop 3 pipeline (λ _ _, Some failing) 0 initial_state with
     | Returns final => Some final
     | _ => None
     end)
  = Some [ "Task A: connection timed out";
           "Task B: Skipped due to failure in A";
           "Task C: connection timed out" ].
Proof. by vm_compute. Qed.

(** * From the file to the end of the run *)

Lemma position_other t rest n :
  name t ≠ n → position (t :: rest) n = S (position rest n).
Proof. intros Hne. simpl. by destruct (String.eqb_spec (name t) n). Qed.

(** In a list in dependency order, a task stands after the tasks it
    lists. *)
Lemma dependency_ordered_position seen tasks t d :
  NoDup (name <$> tasks) → dependency_ordered seen tasks →
  t ∈ tasks → d ∈ dependencies t → d ≠ "" →
  d ∈ seen ∨ (d ∈ task_names tasks
              ∧ (position tasks d < position tasks (name t))%nat).
Proof.
  revert seen. induction tasks as [|t0 rest IH]; intros seen Hnd Hord Ht Hd Hne.
  { by apply elem_of_nil in Ht. }
  rewrite fmap_cons in Hnd. apply NoDup_cons in Hnd as [Hfresh Hnd].
  destruct Hord as [Hdeps Hord].
  apply elem_of_cons in Ht as [->|Ht]; [left; by apply Hdeps|].
  assert (name t0 ≠ name t) as Hother.
  { intros Heq. apply Hfresh. rewrite Heq. by apply list_elem_of_fmap_2. }
  rewrite (position_other _ _ _ Hother).
  destruct (IH _ Hnd Hord Ht Hd Hne) as [[->%elem_of_singleton|Hs]%elem_of_union
                                        |[Hk Hlt]].
  - right. split.
    + apply elem_of_task_names. exists t0. split; [left | done].
    + simpl. rewrite String.eqb_refl. lia.
  - by left.
  - right. split.
    + apply elem_of_task_names in Hk as (u & Hu & <-).
      apply elem_of_task_names. exists u. split; [by right | done].
    + simpl. destruct (String.eqb_spec (name t0) d); lia.
Qed.

Lemma dependency_ordered_valid tasks :
  NoDup (name <$> tasks) → dependency_ordered ∅ tasks →
  ¬ dangling tasks ∧ ¬ cyclic tasks.
Proof.
  intros Hnd Hord. split.
  - intros (t & d & Ht & Hd & Hne & Hunknown).
    destruct (dependency_ordered_position ∅ tasks t d) as [?|[? _]];
      try done; set_solver.
  - apply (ranked_acyclic _ (position tasks)). intros t d Ht Hd Hne.
    destruct (dependency_ordered_position ∅ tasks t d) as [?|[_ ?]];
      try done; set_solver.
Qed.

Lemma accepted_executable tasks :
  (∀ t, t ∈ tasks → task_type t ∈ task_types ∧ first_missing t = None) →
  executable tasks.
Proof.
  intros Hall t Ht. destruct (Hall t Ht) as [Hty Hfirst].
  pose proof (build_command_first_missing t Hty) as H. rewrite Hfirst in H.
  destruct H as (command & ? & _). by exists command.
Qed.

Lemma run_returns tasks polls :
  well_named tasks → dependency_ordered ∅ tasks → executable tasks →
  fair polls →
  ∃ fuel expected final,
    run_mode fuel tasks polls = Returns (Ran expected final)
    ∧ validate_mode tasks = Returns (Valid expected)
    ∧ (∀ c, chain tasks c → chain_duration c ≤ expected)
    ∧ terminated (trace final) ≡ₚ name <$> tasks
    ∧ ∀ t, t ∈ tasks → is_Some (outputs final !! name t).
Proof.
  intros Hwn Hord Hexec Hfair. pose proof Hwn as [Hnd _].
  destruct (dependency_ordered_valid tasks Hnd Hord) as [Hk Hac].
  destruct (expected_runtime_longest_chain tasks Hnd Hord)
    as (expected & Hexp & Hub & _).
  destruct (dispatch_loop_terminates tasks Hwn Hexec Hk Hac polls Hfair)
    as (fuel & final & Hloop & Hreach & Hs & Ht & Hall).
  exists fuel, expected, final.
  assert (Hcheck : check_dependencies tasks = None)
    by (by apply check_dependencies_None).
  assert (Hdetect : detect_cycles tasks = Returns None)
    by (by apply detect_cycles_acyclic).
  split_and!; try done.
  - unfold run_mode. by rewrite Hcheck, Hdetect, Hexp, Hloop.
  - unfold validate_mode. by rewrite Hcheck, Hdetect, Hexp.
  - pose proof (reachable_inv tasks Hwn final Hreach) as Hinv.
    apply NoDup_Permutation; [done | done |]. intros n. split.
    + intros Hn.
      assert (n ∈ task_names tasks) as (t & Hin & <-)%elem_of_task_names.
      { apply (inv_known _ _ Hinv). rewrite (inv_completed _ _ Hinv).
        apply elem_of_union. right. by apply elem_of_list_to_set. }
      by apply list_elem_of_fmap_2.
    + intros (t & -> & Hin)%list_elem_of_fmap. by apply Hall.
  - intros t Hin. by apply Hall.
Qed.

(** X16. A file that [parse_input] accepts, whose tasks are listed after the
    tasks they depend on and have the parameters of their kind, is run
    to the end when every worker finishes at some time: both checks
    pass, the expected runtime is at least the duration of every
    dependency chain, [validate_mode] reports the same value, every
    task reaches one terminal state and has an output. *)
Theorem accepted_file_runs int file_path file tasks polls :
  parse_input int file_path file = (Some tasks, None) →
  dependency_ordered ∅ tasks →
  (∀ t, t ∈ tasks → first_missing t = None) →
  fair polls →
  ∃ fuel expected final,
    run_mode fuel tasks polls = Returns (Ran expected final)
    ∧ validate_mode tasks = Returns (Valid expected)
    ∧ (∀ c, chain tasks c → chain_duration c ≤ expected)
    ∧ terminated (trace final) ≡ₚ name <$> tasks
    ∧ ∀ t, t ∈ tasks → is_Some (outputs final !! name t).
Proof.
  intros (_ & _ & _ & [Hwn Hall] & _)%parse_input_Some Hord Hparams Hfair.
  apply run_returns; try done.
  apply accepted_executable. intros t Ht. split; [by apply Hall | by apply Hparams].
Qed.

Lemma three_tasks_ordered : dependency_ordered ∅ three_tasks.
Proof.
  simpl. split_and!; try done; intros d Hd Hne;
    repeat (apply elem_of_cons in Hd as [->|Hd]; [set_solver|]);
    by apply elem_of_nil in Hd.
Qed.

Lemma accepted_file_runs_witness :
  ∃ fuel expected final,
    run_mode fuel three_tasks (prompt answering) = Returns (Ran expected final)
    ∧ validate_mode three_tasks = Returns (Valid expected)
    ∧ (∀ c, chain three_tasks c → chain_duration c ≤ expected)
    ∧ terminated (trace final) ≡ₚ name <$> three_tasks
    ∧ ∀ t, t ∈ three_tasks → is_Some (outputs final !! name t).
Proof.
  apply (accepted_file_runs decimal "tasks.txt" three_lines).
  - by vm_compute.
  - exact three_tasks_ordered.
  - intros t Ht. unfold three_tasks in Ht.
    repeat (apply elem_of_cons in Ht as [->|Ht]; [by vm_compute|]).
    by apply elem_of_nil in Ht.
  - intros n i. exists i. split; [lia | by eexists].
Defined.

Example three_tasks_run :
  run_mode 4 three_tasks (prompt answering)
  = Returns (Ran 17
      (mkSched {[ "lookup"; "route"; "load" ]} ∅ []
         (<[ "lookup" := 1 ]> (<[ "route" := 1 ]> {[ "load" := 1 ]}))
         (<[ "lookup" := "192.0.2.1" ]>
            (<[ "route" := "192.0.2.1" ]> {[ "load" := "192.0.2.1" ]}))
         [ Finished "load"; Starting "load"; Finished "route"; Starting "route";
           Finished "lookup"; Starting "lookup" ])).
Proof. by vm_compute. Qed.

(** * Writing a task as a line *)







(** * The depth of the recursion *)

(** ** A result does not change when more calls may be nested *)

Section deeper.
Variable tasks : list Task.

Lemma dfs_deps_deeper call call' deps s r :
  (∀ t s0 r0, call t s0 = r0 → r0 ≠ OutOfFuel → call' t s0 = r0) →
  dfs_deps tasks call deps s = r → r ≠ OutOfFuel →
  dfs_deps tasks call' deps s = r.
Proof.
  intros Hcall. revert s. induction deps as [|dep rest IH]; intros s; simpl;
    [done|].
  destruct (truthy dep); [|apply IH].
  destruct (find_task tasks dep) as [dep_task| |]; simpl; [|done..].
  case_bool_decide; [case_bool_decide; [done | apply IH]|].
  destruct (call dep_task s) as [[found s1]|e|] eqn:Hc.
  - rewrite (Hcall _ _ _ Hc) by done. simpl. destruct found; [done | apply IH].
  - by rewrite (Hcall _ _ _ Hc).
  - simpl. congruence.
Qed.

Lemma dfs_deeper fuel extra t s r :
  dfs fuel tasks t s = r → r ≠ OutOfFuel → dfs (fuel + extra) tasks t s = r.
Proof.
  revert t s r. induction fuel as [|fuel IH]; intros t s r; simpl; [congruence|].
  set (s1 := mkDfs ({[name t]} ∪ visited s) ({[name t]} ∪ rec_stack s)).
  destruct (dfs_deps tasks (dfs fuel tasks) (dependencies t) s1) as [[found s2]|e|]
    eqn:Hd.
  - rewrite (dfs_deps_deeper (dfs fuel tasks) (dfs (fuel + extra) tasks)
               _ _ _ IH Hd) by done.
    done.
  - rewrite (dfs_deps_deeper (dfs fuel tasks) (dfs (fuel + extra) tasks)
               _ _ _ IH Hd) by done.
    done.
  - simpl. congruence.
Qed.

Lemma detect_cycles_from_deeper fuel extra roots s r :
  detect_cycles_from fuel tasks roots s = r → r ≠ OutOfFuel →
  detect_cycles_from (fuel + extra) tasks roots s = r.
Proof.
  revert s. induction roots as [|t rest IH]; intros s; simpl; [done|].
  case_bool_decide; [apply IH|].
  destruct (dfs fuel tasks t s) as [[found s1]|e|] eqn:Hd.
  - rewrite (dfs_deeper _ extra _ _ _ Hd) by done. simpl.
    destruct found; [done | apply IH].
  - by rewrite (dfs_deeper _ extra _ _ _ Hd).
  - simpl. congruence.
Qed.
End deeper.

(** With room for more nested calls than there are tasks, the limit is
    not reached. *)
Lemma detect_cycles_within_enough tasks limit :
  check_dependencies tasks = None → (length tasks < limit)%nat →
  detect_cycles_within limit tasks = detect_cycles tasks.
Proof.
  intros Hcheck Hlen. unfold detect_cycles_within.
  replace limit with (S (length tasks) + (limit - S (length tasks)))%nat by lia.
  destruct (detect_cycles_total tasks Hcheck) as [Hd|Hd]; rewrite Hd;
    unfold detect_cycles in Hd;
    by rewrite (detect_cycles_from_deeper _ _ _ _ _ _ Hd).
Qed.

(** Whatever the limit, the answer is the one of [detect_cycles], or
    the limit is reached. *)
Lemma detect_cycles_within_cases tasks limit :
  check_dependencies tasks = None →
  detect_cycles_within limit tasks = detect_cycles tasks
  ∨ detect_cycles_within limit tasks = Raises RecursionError.
Proof.
  intros Hcheck. destruct (decide (length tasks < limit)%nat) as [Hlt|Hge].
  { left. by apply detect_cycles_within_enough. }
  unfold detect_cycles_within.
  destruct (detect_cycles_from limit tasks tasks (mkDfs ∅ ∅)) as [v|e|] eqn:Hd;
    [left | left | by right].
  - unfold detect_cycles.
    replace (S (length tasks)) with (limit + (S (length tasks) - limit))%nat by lia.
    by rewrite (detect_cycles_from_deeper _ _ _ _ _ _ Hd).
  - unfold detect_cycles.
    replace (S (length tasks)) with (limit + (S (length tasks) - limit))%nat by lia.
    by rewrite (detect_cycles_from_deeper _ _ _ _ _ _ Hd).
Qed.

(** ** A chain deeper than the limit *)

Lemma unary_length k : String.length (unary k) = k.
Proof. induction k as [|k IH]; simpl; [done | by rewrite IH]. Qed.

Lemma unary_inj j k : unary j = unary k → j = k.
Proof. intros H. by rewrite <- (unary_length j), H, unary_length. Qed.

Lemma elem_of_descending n t :
  t ∈ descending n ↔ ∃ k, (1 ≤ k ≤ n)%nat ∧ t = link k.
Proof.
  induction n as [|n IH]; simpl.
  - rewrite elem_of_nil. split; [done|]. intros (k & ? & _). lia.
  - rewrite elem_of_cons, IH. split.
    + intros [->|(k & ? & ->)]; [exists (S n) | exists k]; split; try done; lia.
    + intros (k & Hk & ->). destruct (decide (k = S n)) as [->|Hne]; [by left|].
      right. exists k. split; [lia | done].
Qed.

Lemma find_link n j :
  (1 ≤ j ≤ n)%nat → find_task (descending n) (unary j) = Returns (link j).
Proof.
  induction n as [|n IH]; intros Hj; [lia|].
  change (descending (S n)) with (link (S n) :: descending n).
  unfold find_task in *. cbn [find].
  change (name (link (S n))) with (unary (S n)).
  destruct (String.eqb_spec (unary (S n)) (unary j)) as [Heq|Hne].
  - apply unary_inj in Heq as <-. done.
  - apply IH. assert (j ≠ S n) by congruence. lia.
Qed.

Lemma descending_names n : NoDup (name <$> descending n).
Proof.
  induction n as [|n IH]; simpl; [constructor|]. constructor; [|done].
  intros (t & Hn & (k & Hk & ->)%elem_of_descending)%list_elem_of_fmap.
  simpl in Hn. change (String "x" (unary n)) with (unary (S n)) in Hn.
  apply unary_inj in Hn. lia.
Qed.

Lemma link_dependency k d :
  d ∈ dependencies (link k) → ∃ j, k = S (S j) ∧ d = unary (S j).
Proof.
  destruct k as [|[|j]]; simpl; [by rewrite elem_of_nil..|].
  intros ->%list_elem_of_singleton. by exists j.
Qed.

Lemma descending_known n : ¬ dangling (descending n).
Proof.
  intros (t & d & (k & Hk & ->)%elem_of_descending & Hd & _ & Hunknown).
  apply link_dependency in Hd as (j & -> & ->).
  apply Hunknown, elem_of_task_names. exists (link (S j)). split; [|done].
  apply elem_of_descending. exists (S j). split; [lia | done].
Qed.

Lemma descending_acyclic n : ¬ cyclic (descending n).
Proof.
  apply (ranked_acyclic _ String.length).
  intros t d (k & Hk & ->)%elem_of_descending Hd _.
  apply link_dependency in Hd as (j & -> & ->).
  change (name (link (S (S j)))) with (unary (S (S j))).
  rewrite !unary_length. lia.
Qed.

(** A call that is nested in a call with no budget left. *)
Lemma dfs_nested fuel tasks t s dep rest dep_task :
  dependencies t = dep :: rest → dep ≠ "" →
  find_task tasks dep = Returns dep_task →
  dep ∉ {[name t]} ∪ visited s →
  dfs fuel tasks dep_task
    (mkDfs ({[name t]} ∪ visited s) ({[name t]} ∪ rec_stack s)) = OutOfFuel →
  dfs (S fuel) tasks t s = OutOfFuel.
Proof.
  intros Hd Hne%truthy_true Hf Hv Hc. simpl. rewrite Hd. simpl.
  rewrite Hne, Hf. simpl. rewrite bool_decide_eq_false_2 by done.
  by rewrite Hc.
Qed.

(** The search from the task of [k] letters needs [k] nested calls. *)
Lemma dfs_descending n fuel k s :
  (fuel < k)%nat → (k ≤ n)%nat →
  (∀ j, (1 ≤ j ≤ k)%nat → unary j ∉ visited s) →
  dfs fuel (descending n) (link k) s = OutOfFuel.
Proof.
  revert k s. induction fuel as [|fuel IH]; intros k s Hlt Hle Hfresh; [done|].
  destruct k as [|[|k]]; [lia | lia |].
  apply (dfs_nested _ _ _ _ (unary (S k)) [] (link (S k))).
  - done.
  - done.
  - apply find_link. lia.
  - change (name (link (S (S k)))) with (unary (S (S k))).
    intros [Heq%elem_of_singleton|Hin]%elem_of_union.
    + apply (unary_inj (S k) (S (S k))) in Heq. lia.
    + apply (Hfresh (S k)); [lia | done].
  - apply IH; [lia | lia |].
    intros j Hj. cbn [visited].
    change (name (link (S (S k)))) with (unary (S (S k))).
    intros [Heq%elem_of_singleton|Hin]%elem_of_union.
    + apply (unary_inj j (S (S k))) in Heq. lia.
    + apply (Hfresh j); [lia | done].
Qed.

Lemma descending_exhausts limit extra :
  detect_cycles_within limit (descending (S (limit + extra)))
  = Raises RecursionError.
Proof.
  unfold detect_cycles_within.
  change (descending (S (limit + extra)))
    with (link (S (limit + extra)) :: descending (limit + extra)) at 2.
  simpl detect_cycles_from. rewrite bool_decide_eq_false_2 by set_solver.
  rewrite (dfs_descending (S (limit + extra)) limit (S (limit + extra)));
    [done | lia | lia | set_solver].
Qed.

(** ** Lists in dependency order need one call *)

Lemma dfs_deps_visited tasks call deps s :
  (∀ d, d ∈ deps → d ≠ "" →
        d ∈ task_names tasks ∧ d ∈ visited s ∧ d ∉ rec_stack s) →
  dfs_deps tasks call deps s = Returns (false, s).
Proof.
  induction deps as [|dep rest IH]; intros Hall; simpl; [done|].
  assert (Hrest : ∀ d, d ∈ rest → d ≠ "" →
                       d ∈ task_names tasks ∧ d ∈ visited s ∧ d ∉ rec_stack s).
  { intros d Hd. apply Hall. by right. }
  destruct (truthy dep) eqn:Hdep; [|by apply IH].
  apply truthy_true in Hdep.
  destruct (Hall dep) as (Hknown & Hvis & Hstack); [left | done |].
  destruct (find_task_known tasks dep Hknown) as [dep_task ->]. simpl.
  rewrite bool_decide_eq_true_2, bool_decide_eq_false_2 by done.
  by apply IH.
Qed.

Lemma detect_cycles_from_ordered fuel tasks roots s :
  rec_stack s = ∅ → visited s ⊆ task_names tasks →
  (∀ t, t ∈ roots → t ∈ tasks) →
  dependency_ordered (visited s) roots →
  detect_cycles_from (S fuel) tasks roots s = Returns None.
Proof.
  revert s. induction roots as [|t rest IH]; intros s Hstack Hvis Hroots Hord;
    [done|].
  destruct Hord as [Hdeps Hord].
  assert (Hrest : ∀ u, u ∈ rest → u ∈ tasks) by (intros u Hu; apply Hroots; by right).
  assert (Hname : name t ∈ task_names tasks).
  { apply elem_of_task_names. exists t. split; [apply Hroots; left | done]. }
  cbn [detect_cycles_from]. case_bool_decide as Hin.
  - apply IH; try done.
    replace (visited s) with ({[name t]} ∪ visited s); [done|].
    apply set_eq. set_solver.
  - cbn [dfs]. rewrite dfs_deps_visited.
    2: { intros d Hd Hne. specialize (Hdeps d Hd Hne). simpl. split_and!.
         - by apply Hvis.
         - set_solver.
         - rewrite Hstack. set_solver. }
    simpl. unfold set_remove. rewrite bool_decide_eq_true_2 by set_solver.
    simpl. apply IH; simpl; try done.
    + rewrite Hstack. apply set_eq. set_solver.
    + set_solver.
Qed.

(** One call of [dfs] at a time is enough for a list in which every
    task comes after the tasks it lists. *)
Lemma detect_cycles_within_ordered tasks limit :
  dependency_ordered ∅ tasks → (1 ≤ limit)%nat →
  detect_cycles_within limit tasks = Returns None.
Proof.
  intros Hord Hlimit. unfold detect_cycles_within.
  destruct limit as [|fuel]; [lia|].
  by rewrite detect_cycles_from_ordered.
Qed.

Lemma ascending_ordered n : dependency_ordered ∅ (reverse (descending n)).
Proof.
  induction n as [|n IH]; [done|].
  change (descending (S n)) with (link (S n) :: descending n).
  rewrite reverse_cons. apply dependency_ordered_app. split; [done|].
  cbn [dependency_ordered]. split; [|done]. intros d Hd _.
  apply link_dependency in Hd as (j & [= ->] & ->).
  apply elem_of_union. left. apply elem_of_task_names.
  exists (link (S j)). split; [|done].
  apply elem_of_reverse, elem_of_descending. exists (S j). split; [lia | done].
Qed.

Lemma validate_mode_within_unknown limit tasks e :
  check_dependencies tasks = Some e →
  validate_mode_within limit tasks = Returns (Invalid e).
Proof. intros H. unfold validate_mode_within. by rewrite H. Qed.

Lemma detect_cycles_from_resolved tasks fuel t :
  NoDup (name <$> tasks) →
  detect_cycles_from fuel tasks tasks (mkDfs ∅ ∅) = Returns None →
  t ∈ tasks → resolved tasks (name t).
Proof.
  intros Hnd Hnone.
  apply (detect_cycles_from_searched tasks fuel tasks (mkDfs ∅ ∅)); try done.
  intros t' Ht'. by apply find_task_NoDup.
Qed.

Lemma detect_cycles_within_None limit tasks :
  detect_cycles_within limit tasks = Returns None →
  detect_cycles_from limit tasks tasks (mkDfs ∅ ∅) = Returns None.
Proof.
  unfold detect_cycles_within.
  by destruct (detect_cycles_from limit tasks tasks (mkDfs ∅ ∅)).
Qed.

Lemma within_None_valid limit tasks :
  NoDup (name <$> tasks) → detect_cycles_within limit tasks = Returns None →
  ¬ dangling tasks ∧ ¬ cyclic tasks.
Proof.
  intros Hnd Hwithin. pose proof (detect_cycles_within_None _ _ Hwithin) as Hnone.
  assert (Hk : ¬ dangling tasks).
  { intros (t & d & Ht & Hd & Hne & Hunknown).
    destruct (detect_cycles_from_resolved tasks limit t Hnd Hnone Ht t d) as [u Hu];
      try done.
    - by apply find_task_NoDup.
    - apply find_task_Returns in Hu as [Hu <-].
      apply Hunknown, elem_of_task_names. eauto. }
  split; [done|]. intros Hc.
  pose proof (detect_cycles_cyclic tasks Hnd Hk Hc) as Hsome.
  destruct (detect_cycles_within_cases tasks limit) as [Heq|Heq].
  - by apply check_dependencies_None.
  - congruence.
  - congruence.
Qed.

(** ** The verdict of the two checks *)

(** C4. The existence check reports the task and the missing name of a
    dangling reference. With room for more nested calls of [dfs] than
    there are tasks, a graph with distinct names and a cycle is rejected
    with the cycle message, and a graph without dangling reference and
    without cycle passes both checks. Whatever the limit, a chain with
    more tasks than the limit, each listed before the task it depends
    on, is a valid graph for which [detect_cycles] and [validate_mode]
    raise [RecursionError] instead of accepting it. *)
Theorem validation_verdict limit tasks :
  (dangling tasks →
     ∃ t d, t ∈ tasks ∧ d ∈ dependencies t ∧ d ≠ "" ∧ (d ∉ task_names tasks)
            ∧ validate_mode_within limit tasks
              = Returns (Invalid ("Task " +:+ name t +:+ ": Unknown dependency '"
                                  +:+ d +:+ "'")))
  ∧ ((length tasks < limit)%nat → NoDup (name <$> tasks) → ¬ dangling tasks →
     cyclic tasks →
       validate_mode_within limit tasks
       = Returns (Invalid "Dependency cycle detected"))
  ∧ ((length tasks < limit)%nat → ¬ dangling tasks → ¬ cyclic tasks →
       check_dependencies tasks = None
       ∧ detect_cycles_within limit tasks = Returns None)
  ∧ (∀ extra,
       NoDup (name <$> descending (S (limit + extra)))
       ∧ ¬ dangling (descending (S (limit + extra)))
       ∧ ¬ cyclic (descending (S (limit + extra)))
       ∧ check_dependencies (descending (S (limit + extra))) = None
       ∧ detect_cycles_within limit (descending (S (limit + extra)))
         = Raises RecursionError
       ∧ validate_mode_within limit (descending (S (limit + extra)))
         = Raises RecursionError).
Proof.
  split_and!.
  - intros (t & d & ? & ? & ? & ? & Hc)%dangling_reported.
    exists t, d. split_and!; try done. by apply validate_mode_within_unknown.
  - intros Hlen Hnd Hk Hc. pose proof Hk as Hcheck%check_dependencies_None.
    unfold validate_mode_within.
    rewrite Hcheck, (detect_cycles_within_enough _ _ Hcheck Hlen).
    by rewrite (detect_cycles_cyclic tasks Hnd Hk Hc).
  - intros Hlen Hk Hc. pose proof Hk as Hcheck%check_dependencies_None.
    split; [done|].
    rewrite (detect_cycles_within_enough _ _ Hcheck Hlen).
    by apply detect_cycles_acyclic.
  - intros extra.
    assert (check_dependencies (descending (S (limit + extra))) = None) as Hcheck.
    { apply check_dependencies_None, descending_known. }
    split_and!.
    + apply descending_names.
    + apply descending_known.
    + apply descending_acyclic.
    + done.
    + apply descending_exhausts.
    + unfold validate_mode_within. by rewrite Hcheck, descending_exhausts.
Qed.

(** A self-dependency, a mutual dependency and a graph of two separate
    chains, with room for the recursion. *)
Example small_graphs_verdict :
  validate_mode_within 2 self_dependent
  = Returns (Invalid "Dependency cycle detected")
  ∧ validate_mode_within 3 mutual = Returns (Invalid "Dependency cycle detected")
  ∧ check_dependencies forest = None
  ∧ detect_cycles_within 5 forest = Returns None.
Proof. by vm_compute. Qed.

(** Three tasks in a chain and room for two nested calls. *)
Example deep_chain_verdict :
  descending 3
  = [ mkTask "xxx" 1 ["xx"] "resolve" {[ "fqdn" := "example.org" ]};
      mkTask "xx" 1 ["x"] "resolve" {[ "fqdn" := "example.org" ]};
      mkTask "x" 1 [] "resolve" {[ "fqdn" := "example.org" ]} ]
  ∧ detect_cycles_within 2 (descending 3) = Raises RecursionError
  ∧ validate_mode_within 2 (descending 3) = Raises RecursionError
  ∧ detect_cycles_within 3 (descending 3) = Returns None
  ∧ validate_mode_within 1 (reverse (descending 3)) = Returns (Valid 3).
Proof. by vm_compute. Qed.

(** C7. Both modes return the error of the existence check without
    calling [detect_cycles], and a dangling reference makes that check
    fail with the message that names the task and the missing name.
    Once the check has passed, the lookup of [dfs] finds a task each
    time it runs: whatever the recursion limit, [detect_cycles] returns
    an answer or raises [RecursionError], never [StopIteration] nor
    [KeyError]; with room for more nested calls than there are tasks it
    returns an answer. *)
Theorem lookup_never_fails limit tasks :
  (∀ e, check_dependencies tasks = Some e →
     validate_mode tasks = Returns (Invalid e)
     ∧ validate_mode_within limit tasks = Returns (Invalid e)
     ∧ ∀ fuel polls, run_mode fuel tasks polls = Returns (NotRun e))
  ∧ (dangling tasks →
       ∃ t d, t ∈ tasks ∧ d ∈ dependencies t ∧ d ≠ "" ∧ (d ∉ task_names tasks)
              ∧ check_dependencies tasks
                = Some ("Task " +:+ name t +:+ ": Unknown dependency '"
                        +:+ d +:+ "'"))
  ∧ (check_dependencies tasks = None →
       detect_cycles_within limit tasks = Returns (Some "Dependency cycle detected")
       ∨ detect_cycles_within limit tasks = Returns None
       ∨ detect_cycles_within limit tasks = Raises RecursionError)
  ∧ (check_dependencies tasks = None → (length tasks < limit)%nat →
       detect_cycles_within limit tasks = Returns (Some "Dependency cycle detected")
       ∨ detect_cycles_within limit tasks = Returns None).
Proof.
  split_and!.
  - intros e He. split_and!.
    + by apply validate_mode_unknown.
    + by apply validate_mode_within_unknown.
    + intros fuel polls. by apply run_mode_unknown.
  - apply dangling_reported.
  - intros Hcheck.
    destruct (detect_cycles_within_cases tasks limit Hcheck) as [-> | ->];
      [|by right; right].
    destruct (detect_cycles_total tasks Hcheck) as [-> | ->]; [by left | by right; left].
  - intros Hcheck Hlen. rewrite (detect_cycles_within_enough _ _ Hcheck Hlen).
    apply (detect_cycles_total tasks Hcheck).
Qed.

Lemma lookup_never_fails_witness :
  validate_mode missing = Returns (Invalid "Task B: Unknown dependency 'Z'")
  ∧ (detect_cycles_within 3 mutual = Returns (Some "Dependency cycle detected")
     ∨ detect_cycles_within 3 mutual = Returns None).
Proof.
  split.
  - destruct (lookup_never_fails 3 missing) as (H & _ & _ & _). by apply H.
  - destruct (lookup_never_fails 3 mutual) as (_ & _ & _ & H).
    apply H; [by vm_compute | simpl; lia].
Defined.

(** X6. Called without the existence check, on tasks with distinct names,
    [detect_cycles] answers that there is no cycle only for a graph
    that has no cycle and no dependency on an unknown name, whatever
    the recursion limit. *)
Theorem no_cycle_answer_is_sound limit tasks :
  NoDup (name <$> tasks) → detect_cycles_within limit tasks = Returns None →
  ¬ dangling tasks ∧ ¬ cyclic tasks.
Proof. apply within_None_valid. Qed.

Lemma no_cycle_answer_is_sound_witness :
  ¬ dangling three_tasks ∧ ¬ cyclic three_tasks.
Proof.
  apply (no_cycle_answer_is_sound 1).
  - apply (bool_decide_unpack _). by vm_compute.
  - by vm_compute.
Defined.

(** X7. With room for more nested calls of [dfs] than there are tasks,
    the answer of [detect_cycles] does not depend on the order of the
    lines: two lists with the same tasks, with distinct names and no
    dependency on an unknown name, get the same answer. With less room
    it does: a chain of more tasks than the limit raises
    [RecursionError] when every task is listed before the task it
    depends on, and is accepted in the reverse order. *)
Theorem detect_cycles_order limit :
  (∀ tasks tasks',
     tasks ≡ₚ tasks' → NoDup (name <$> tasks) →
     check_dependencies tasks = None → (length tasks < limit)%nat →
     detect_cycles_within limit tasks' = detect_cycles_within limit tasks)
  ∧ ((1 ≤ limit)%nat →
     ∀ extra,
       detect_cycles_within limit (descending (S (limit + extra)))
       = Raises RecursionError
       ∧ detect_cycles_within limit (reverse (descending (S (limit + extra))))
         = Returns None).
Proof.
  split.
  - intros tasks tasks' Hp Hnd Hcheck Hlen.
    assert (check_dependencies tasks' = None) as Hcheck'.
    { apply check_dependencies_None. intros Hd.
      apply check_dependencies_None in Hcheck. apply Hcheck.
      by apply (dangling_Permutation tasks' tasks). }
    rewrite (detect_cycles_within_enough _ _ Hcheck Hlen).
    rewrite (detect_cycles_within_enough _ _ Hcheck') by (by rewrite <- Hp).
    by apply detect_cycles_Permutation.
  - intros Hlimit extra. split; [apply descending_exhausts|].
    apply detect_cycles_within_ordered; [apply ascending_ordered | done].
Qed.

Lemma detect_cycles_order_witness :
  detect_cycles_within 4 (reverse three_tasks) = detect_cycles_within 4 three_tasks.
Proof.
  destruct (detect_cycles_order 4) as [H _]. apply H.
  - symmetry. apply reverse_Permutation.
  - apply (bool_decide_unpack _). by vm_compute.
  - by vm_compute.
  - simpl. lia.
Defined.

(** * A failure and the rest of the run *)







Lemma fan_acyclic : ¬ cyclic fan.
Proof.
  apply (ranked_acyclic _ (λ n, if String.eqb n "A" then 0 else 1)%nat).
  intros t d Ht Hd Hne. unfold fan in Ht.
  repeat (apply elem_of_cons in Ht as [->|Ht];
          [simpl in Hd;
           repeat (apply elem_of_cons in Hd as [->|Hd]; [by vm_compute; lia|]);
           by apply elem_of_nil in Hd|]).
  by apply elem_of_nil in Ht.
Qed.


